(** * Ghost MCP Server: resilient resource-access core

    A shallow embedding of the error taxonomy, the backoff policy, the
    circuit breaker, [retryWithBackoff], the LRU cache, the query-option
    translation of [ResourceFetcher.fetchPosts] and the subscription
    manager, with the properties established about them.

    Conventions of the embedding:
    - JavaScript numbers that the code only uses as integers (times in
      milliseconds, counters, sizes) are [Z]; the backoff computation, which
      multiplies by a random fraction, is carried out in [Q].
    - [Date.now()] and [Math.random()] are reads of an oracle indexed by the
      number of reads made so far, so that every execution of the
      JavaScript code corresponds to one choice of oracles.
    - [Map] objects are [gmap]s, with the list of their keys in insertion
      order beside them where the code iterates over them; arrays are
      lists.
    - An [async] function is split at its [await]: the part before it runs
      when the function is called, the part after it when the awaited
      promise settles. *)

From Stdlib Require Import ZArith QArith Qround Qminmax Qpower Ascii Sorted Lia.
From stdpp Require Import gmap strings list fin_maps pretty.

Close Scope Q_scope.
Open Scope Z_scope.

(** ** Error taxonomy (errors/index.js) *)

Module Errors.

(** The classes of the hierarchy; [CError] is the built-in [Error]. *)
Inductive ErrClass :=
  | CError
  | CBaseError
  | CValidationError
  | CAuthenticationError
  | CAuthorizationError
  | CNotFoundError
  | CConflictError
  | CRateLimitError
  | CExternalServiceError
  | CGhostAPIError
  | CMCPProtocolError
  | CToolExecutionError
  | CImageProcessingError
  | CConfigurationError.

#[global] Instance ErrClass_eq_dec : EqDecision ErrClass.
Proof. solve_decision. Defined.

(** [extends c] is the direct superclass of [c]. *)
Definition extends (c : ErrClass) : option ErrClass :=
  match c with
  | CError => None
  | CBaseError => Some CError
  | CGhostAPIError => Some CExternalServiceError
  | _ => Some CBaseError
  end.

(** The prototype chain is at most three links long. *)
Definition ancestors (c : ErrClass) : list ErrClass :=
  c :: match extends c with
       | None => []
       | Some p => p :: match extends p with
                        | None => []
                        | Some q => q :: match extends q with
                                         | None => []
                                         | Some r => [r]
                                         end
                        end
       end.

(** An error object, as its constructor leaves it. Each constructor of the
    type is one [new C(...)] of the source, with the arguments that the
    class stores. [EError] is a plain [Error] (or a Node system error) with
    its optional [code] property. *)
Inductive jsError :=
  | EError (message : string) (code : option string)
  | EValidation (message : string) (errors : list string)
  | EAuthentication (message : string)
  | EAuthorization (message : string)
  | ENotFound (resource identifier : string)
  | EConflict (message resource : string)
  | ERateLimit (retryAfter : Z)
  | EExternalService (service originalError : string)
  | EGhostAPI (operation originalError : string) (ghostStatusCode : option Z)
  | EMCPProtocol (message : string)
  | EToolExecution (toolName originalError : string)
  | EImageProcessing (operation originalError : string)
  | EConfiguration (message : string).

#[global] Instance jsError_eq_dec : EqDecision jsError.
Proof. solve_decision. Defined.

Definition classOf (e : jsError) : ErrClass :=
  match e with
  | EError _ _ => CError
  | EValidation _ _ => CValidationError
  | EAuthentication _ => CAuthenticationError
  | EAuthorization _ => CAuthorizationError
  | ENotFound _ _ => CNotFoundError
  | EConflict _ _ => CConflictError
  | ERateLimit _ => CRateLimitError
  | EExternalService _ _ => CExternalServiceError
  | EGhostAPI _ _ _ => CGhostAPIError
  | EMCPProtocol _ => CMCPProtocolError
  | EToolExecution _ _ => CToolExecutionError
  | EImageProcessing _ _ => CImageProcessingError
  | EConfiguration _ => CConfigurationError
  end.

(** [error instanceof C] *)
Definition instanceof (e : jsError) (c : ErrClass) : bool :=
  bool_decide (c ∈ ancestors (classOf e)).

(** [error.message]: the string each constructor hands to [super]. *)
Definition message (e : jsError) : string :=
  match e with
  | EError m _ | EValidation m _ | EAuthentication m | EAuthorization m
  | EConflict m _ | EMCPProtocol m | EConfiguration m => m
  | ENotFound r i => r +:+ " not found: " +:+ i
  | ERateLimit _ => "Rate limit exceeded"
  | EExternalService s _ => "External service error: " +:+ s
  | EGhostAPI _ _ _ => "External service error: Ghost API"
  | EToolExecution t _ => "Tool execution failed: " +:+ t
  | EImageProcessing o _ => "Image processing failed: " +:+ o
  end.

(** [error.code]: the machine-readable code. [GhostAPIError] starts from the
    code of [ExternalServiceError] and overrides it for four statuses. *)
Definition code (e : jsError) : option string :=
  match e with
  | EError _ c => c
  | EValidation _ _ => Some "VALIDATION_ERROR"
  | EAuthentication _ => Some "AUTHENTICATION_ERROR"
  | EAuthorization _ => Some "AUTHORIZATION_ERROR"
  | ENotFound _ _ => Some "NOT_FOUND"
  | EConflict _ _ => Some "CONFLICT"
  | ERateLimit _ => Some "RATE_LIMIT_EXCEEDED"
  | EExternalService _ _ => Some "EXTERNAL_SERVICE_ERROR"
  | EGhostAPI _ _ st =>
      if bool_decide (st = Some 401) then Some "GHOST_AUTH_ERROR"
      else if bool_decide (st = Some 404) then Some "GHOST_NOT_FOUND"
      else if bool_decide (st = Some 422) then Some "GHOST_VALIDATION_ERROR"
      else if bool_decide (st = Some 429) then Some "GHOST_RATE_LIMIT"
      else Some "EXTERNAL_SERVICE_ERROR"
  | EMCPProtocol _ => Some "MCP_PROTOCOL_ERROR"
  | EToolExecution _ _ => Some "TOOL_EXECUTION_ERROR"
  | EImageProcessing _ _ => Some "IMAGE_PROCESSING_ERROR"
  | EConfiguration _ => Some "CONFIGURATION_ERROR"
  end.

(** [error.statusCode] *)
Definition statusCode (e : jsError) : option Z :=
  match e with
  | EError _ _ => None
  | EValidation _ _ => Some 400
  | EAuthentication _ => Some 401
  | EAuthorization _ => Some 403
  | ENotFound _ _ => Some 404
  | EConflict _ _ => Some 409
  | ERateLimit _ => Some 429
  | EExternalService _ _ => Some 502
  | EGhostAPI _ _ st =>
      if bool_decide (st = Some 401) then Some 401
      else if bool_decide (st = Some 404) then Some 404
      else if bool_decide (st = Some 422) then Some 400
      else if bool_decide (st = Some 429) then Some 429
      else Some 502
  | EMCPProtocol _ => Some 400
  | EToolExecution _ _ => Some 500
  | EImageProcessing _ _ => Some 422
  | EConfiguration _ => Some 500
  end.

(** [ErrorHandler.fromGhostError(error, operation)], on the status and the
    message that the upstream error carries. *)
Definition fromGhostError (status : option Z) (msg operation : string) : jsError :=
  EGhostAPI operation msg status.

Definition networkCodes : list string :=
  ["ECONNREFUSED"; "ETIMEDOUT"; "ECONNRESET"].

(** [ErrorHandler.isRetryable(error)], test by test in the order of the
    source. *)
Definition isRetryable (e : jsError) : bool :=
  if instanceof e CRateLimitError then true
  else if instanceof e CExternalServiceError then true
  else if instanceof e CGhostAPIError then
    match e with
    | EGhostAPI _ _ (Some st) => bool_decide (st ∈ [429; 502; 503; 504])
    | _ => false
    end
  else match code e with
       | Some c => bool_decide (c ∈ networkCodes)
       | None => false
       end.

(** [Math.round]: the nearest integer, halves going up. *)
Definition Math_round (x : Q) : Z := Qfloor (x + (1 # 2))%Q.

Definition baseDelay : Q := inject_Z 1000.
Definition maxDelay : Q := inject_Z 30000.

(** The [delay] constant of [getRetryDelay]:
    [Math.min(baseDelay * Math.pow(2, attempt - 1), maxDelay)]. *)
Definition exponentialDelay (attempt : Z) : Q :=
  Qmin (baseDelay * Qpower 2 (attempt - 1)) maxDelay.

(** [ErrorHandler.getRetryDelay(attempt, error)]; [r] is the value that
    [Math.random()] returns in the jitter line. [RateLimitError] has no
    subclass, so [error instanceof RateLimitError] is the first case of the
    match, where [error.retryAfter] is at hand. *)
Definition getRetryDelay (r : Q) (attempt : Z) (e : jsError) : Z :=
  match e with
  | ERateLimit retryAfter => retryAfter * 1000
  | _ =>
      let delay := exponentialDelay attempt in
      let jitter := (r * (3 # 10) * delay)%Q in
      Math_round (delay + jitter)
  end.

(** An upstream failure of the server class: what [fromGhostError] makes of
    a response with a 5xx status. *)
Definition serverClassFailure (e : jsError) : Prop :=
  ∃ status msg operation,
    500 ≤ status < 600 ∧ e = fromGhostError (Some status) msg operation.

End Errors.

(** ** The host: clock, random numbers, timers and the wrapped operation *)

Module Host.

(** What a call leaves behind: a value, a thrown error object, or the value
    [undefined] thrown ([throw lastError] before any error was caught). *)
Inductive Outcome (V : Type) :=
  | Return (v : V)
  | Throw (e : Errors.jsError)
  | ThrowUndefined.
Arguments Return {V} v.
Arguments Throw {V} e.
Arguments ThrowUndefined {V}.

Definition isThrow {V} (o : Outcome V) : bool :=
  match o with Return _ => false | _ => true end.

(** What the host observes of a run. The [onRetry] option of
    [retryWithBackoff] is taken to be an observer, as the default and the
    one caller's are: it returns and changes nothing but logs. *)
Inductive Event :=
  | Invoked                                  (* the wrapped function was called *)
  | Slept (ms : Z)                           (* a [setTimeout] delay elapsed *)
  | Retried (attempt : Z) (e : Errors.jsError). (* [onRetry(attempt, error)] *)

#[global] Instance Event_eq_dec : EqDecision Event.
Proof. solve_decision. Defined.

(** The state a run threads: the state [user] that the wrapped operation
    works on, how many times the clock and the random generator were read,
    and the observed events, oldest first. *)
Record Runtime (S : Type) := mkRuntime {
  user : S;
  nowReads : nat;
  randomReads : nat;
  events : list Event;
}.
Arguments mkRuntime {S} _ _ _ _.
Arguments user {S} _.
Arguments nowReads {S} _.
Arguments randomReads {S} _.
Arguments events {S} _.

Definition start {S} (s : S) : Runtime S := mkRuntime s 0 0 [].

(** The user state after a call of the operation [fn]. *)
Definition advance {S V} (fn : S → Outcome V * S) (s : S) : S := (fn s).2.

(** The runtime after one read of the clock and nothing else. *)
Definition afterGate {S} (rt : Runtime S) : Runtime S :=
  mkRuntime (user rt) (Datatypes.S (nowReads rt)) (randomReads rt) (events rt).

(** Number of calls of the wrapped function in a run. *)
Definition invocations {S} (rt : Runtime S) : nat :=
  length (filter (λ ev, ev = Invoked) (events rt)).

(** A computation over the runtime. *)
Definition M (S A : Type) : Type := Runtime S → A * Runtime S.

Definition ret {S A} (a : A) : M S A := λ rt, (a, rt).
Definition bind {S A B} (m : M S A) (k : A → M S B) : M S B :=
  λ rt, let (a, rt') := m rt in k a rt'.

Declare Scope host_scope.
Delimit Scope host_scope with host.
Notation "'let*' x ':=' m 'in' k" := (bind m (λ x, k))
  (at level 10, x name, m at level 100, k at level 200) : host_scope.

Section Oracles.
Context {S : Type}.
(** [clock k] is what the [k]-th read of [Date.now()] returns, [rnd k]
    what the [k]-th read of [Math.random()] returns. *)
Variable clock : nat → Z.
Variable rnd : nat → Q.

Definition DateNow : M S Z :=
  λ rt, (clock (nowReads rt),
         mkRuntime (user rt) (Datatypes.S (nowReads rt)) (randomReads rt) (events rt)).

Definition MathRandom : M S Q :=
  λ rt, (rnd (randomReads rt),
         mkRuntime (user rt) (nowReads rt) (Datatypes.S (randomReads rt)) (events rt)).

Definition emit (ev : Event) : M S unit :=
  λ rt, (tt, mkRuntime (user rt) (nowReads rt) (randomReads rt) (events rt ++ [ev])).

(** [await fn(...)]: the call is observed, then [fn] runs on the user
    state. *)
Definition call {V} (fn : S → Outcome V * S) : M S (Outcome V) :=
  λ rt, let (o, s') := fn (user rt) in
        (o, mkRuntime s' (nowReads rt) (randomReads rt) (events rt ++ [Invoked])).

(** [await new Promise((resolve) => setTimeout(resolve, delay))] *)
Definition sleep (ms : Z) : M S unit := emit (Slept ms).
End Oracles.

(** [x || d] on numbers: [undefined] and [0] are falsy. *)
Definition orDefault (x : option Z) (d : Z) : Z :=
  match x with
  | None => d
  | Some v => if bool_decide (v = 0) then d else v
  end.

End Host.

(** ** CircuitBreaker (errors/index.js) *)

Module Breaker.
Import Errors Host.
Open Scope host_scope.

Inductive State := CLOSED | OPEN | HALF_OPEN.

#[global] Instance State_eq_dec : EqDecision State.
Proof. solve_decision. Defined.

Record CircuitBreaker := mkBreaker {
  failureThreshold : Z;
  resetTimeout : Z;
  monitoringPeriod : Z;
  state : State;
  failureCount : Z;
  lastFailureTime : option Z;
  nextAttempt : option Z;
}.

Record Options := mkOptions {
  opt_failureThreshold : option Z;
  opt_resetTimeout : option Z;
  opt_monitoringPeriod : option Z;
}.

(** [new CircuitBreaker(options)] *)
Definition new (options : Options) : CircuitBreaker :=
  {| failureThreshold := orDefault (opt_failureThreshold options) 5;
     resetTimeout := orDefault (opt_resetTimeout options) 60000;
     monitoringPeriod := orDefault (opt_monitoringPeriod options) 10000;
     state := CLOSED;
     failureCount := 0;
     lastFailureTime := None;
     nextAttempt := None |}.

(** The error with which an open breaker turns a call away. *)
Definition rejection : jsError :=
  EExternalService "Circuit breaker is OPEN" "Service temporarily unavailable".

Definition onSuccess (this : CircuitBreaker) : CircuitBreaker :=
  {| failureThreshold := failureThreshold this;
     resetTimeout := resetTimeout this;
     monitoringPeriod := monitoringPeriod this;
     state := if bool_decide (state this = HALF_OPEN) then CLOSED else state this;
     failureCount := 0;
     lastFailureTime := None;
     nextAttempt := nextAttempt this |}.

Section Execute.
Context {S V : Type}.
Variable clock : nat → Z.

(** [onFailure()]. The log line of the opening breaker is left out; it
    formats [nextAttempt] with [toISOString], and the deadline is taken to
    be within the range of dates. *)
Definition onFailure (this : CircuitBreaker) : M S CircuitBreaker :=
  let count := failureCount this + 1 in
  let* t := DateNow clock in
  if bool_decide (failureThreshold this ≤ count) then
    let* t' := DateNow clock in
    ret {| failureThreshold := failureThreshold this;
           resetTimeout := resetTimeout this;
           monitoringPeriod := monitoringPeriod this;
           state := OPEN;
           failureCount := count;
           lastFailureTime := Some t;
           nextAttempt := Some (t' + resetTimeout this) |}
  else
    ret {| failureThreshold := failureThreshold this;
           resetTimeout := resetTimeout this;
           monitoringPeriod := monitoringPeriod this;
           state := state this;
           failureCount := count;
           lastFailureTime := Some t;
           nextAttempt := nextAttempt this |}.

(** The [try] block of [execute]. *)
Definition attempt (this : CircuitBreaker) (fn : S → Outcome V * S)
  : M S (Outcome V * CircuitBreaker) :=
  let* result := call fn in
  match result with
  | Return v => ret (Return v, onSuccess this)
  | thrown => let* this' := onFailure this in ret (thrown, this')
  end.

Definition withState (st : State) (this : CircuitBreaker) : CircuitBreaker :=
  {| failureThreshold := failureThreshold this;
     resetTimeout := resetTimeout this;
     monitoringPeriod := monitoringPeriod this;
     state := st;
     failureCount := failureCount this;
     lastFailureTime := lastFailureTime this;
     nextAttempt := nextAttempt this |}.

(** [this.execute(fn)]. In [Date.now() < this.nextAttempt] a [null]
    deadline compares as [0]. The call is run as one piece, from the gate
    to the end of [onSuccess] or [onFailure]: this is [execute] when no
    other call uses the breaker while [fn] is awaited. [Overlap] below
    splits it at the [await]. *)
Definition execute (this : CircuitBreaker) (fn : S → Outcome V * S)
  : M S (Outcome V * CircuitBreaker) :=
  if bool_decide (state this = OPEN) then
    let* t := DateNow clock in
    if bool_decide (t < default 0 (nextAttempt this)) then
      ret (Throw rejection, this)
    else
      attempt (withState HALF_OPEN this) fn
  else
    attempt this fn.
End Execute.

End Breaker.

(** ** retryWithBackoff (errors/index.js) *)

Module Retry.
Import Errors Host.
Open Scope host_scope.

Section RetryWithBackoff.
Context {S V : Type}.
Variable rnd : nat → Q.

(** [ErrorHandler.getRetryDelay] with its read of [Math.random()], which
    happens only when the error is not a [RateLimitError]. *)
Definition getRetryDelayM (attempt : Z) (e : jsError) : M S Z :=
  if instanceof e CRateLimitError then ret (getRetryDelay 0 attempt e)
  else let* r := MathRandom rnd in ret (getRetryDelay r attempt e).

(** The values of the loop variable of
    [for (let attempt = 1; attempt <= maxAttempts; attempt++)]. *)
Definition attempts (maxAttempts : Z) : list Z :=
  map Z.of_nat (seq 1 (Z.to_nat maxAttempts)).

(** Reading [error.code] when [undefined] was thrown raises this. *)
Definition typeError : jsError :=
  EError "Cannot read properties of undefined (reading 'code')" None.

(** The loop of [retryWithBackoff] over the remaining values of
    [attempt]; when they are used up the function ends in
    [throw lastError]. *)
Fixpoint retryLoop (fn : S → Outcome V * S) (maxAttempts : Z)
    (todo : list Z) (lastError : option jsError) : M S (Outcome V) :=
  match todo with
  | [] =>
      ret (match lastError with Some e => Throw e | None => ThrowUndefined end)
  | attempt :: todo' =>
      let* result := call fn in
      match result with
      | Return v => ret (Return v)
      | Throw error =>
          if bool_decide (attempt = maxAttempts) || negb (isRetryable error)
          then ret (Throw error)
          else
            let* delay := getRetryDelayM attempt error in
            let* _ := sleep delay in
            let* _ := emit (Retried attempt error) in
            retryLoop fn maxAttempts todo' (Some error)
      | ThrowUndefined =>
          if bool_decide (attempt = maxAttempts) then ret ThrowUndefined
          else ret (Throw typeError)
      end
  end.

(** [retryWithBackoff(fn, { maxAttempts })]; [onRetry] is observed as a
    [Retried] event. *)
Definition retryWithBackoff (fn : S → Outcome V * S) (maxAttempts : option Z)
  : M S (Outcome V) :=
  let maxAttempts := orDefault maxAttempts 3 in
  retryLoop fn maxAttempts (attempts maxAttempts) None.
End RetryWithBackoff.

End Retry.

(** ** LRUCache (resources/ResourceManager.js) *)

Module Cache.
Import Host.

Section LRU.
Context {V : Type}.
(** [new RegExp(pattern)]: the test function of the compiled pattern, or
    [None] when the pattern is not a regular expression and the
    constructor throws. *)
Variable RegExp_new : string → option (string → bool).

Record Item := mkItem { value : V; expiry : Z }.

Record LRUCache := mkCache {
  maxSize : Z;
  ttl : Z;
  cache : gmap string Item;
  accessOrder : list string;
}.

(** [new LRUCache(maxSize = 100, ttl = 300000)] *)
Definition new (maxSize ttl : option Z) : LRUCache :=
  mkCache (default 100 maxSize) (default 300000 ttl) ∅ [].

(** [accessOrder.filter((k) => k !== key)] *)
Definition without (key : string) (order : list string) : list string :=
  filter (λ k, k ≠ key) order.

(** [get(key)] at clock reading [now]. *)
Definition get (now : Z) (key : string) (this : LRUCache) : option V * LRUCache :=
  match cache this !! key with
  | None => (None, this)
  | Some item =>
      if bool_decide (expiry item < now) then
        (None, mkCache (maxSize this) (ttl this)
                 (delete key (cache this)) (without key (accessOrder this)))
      else
        (Some (value item),
         mkCache (maxSize this) (ttl this)
           (cache this) (without key (accessOrder this) ++ [key]))
  end.

(** The [while] loop of [set]: as long as the map is at capacity and the
    order is not empty, [shift] the order and delete that key. *)
Fixpoint evict (maxSize : Z) (cache : gmap string Item) (order : list string)
  : gmap string Item * list string :=
  match order with
  | [] => (cache, [])
  | oldestKey :: rest =>
      if bool_decide (maxSize ≤ Z.of_nat (size cache))
      then evict maxSize (delete oldestKey cache) rest
      else (cache, order)
  end.

(** The map after [cache.delete] of each of [keys], first to last. *)
Definition deleteAll (keys : list string) (cache : gmap string Item)
  : gmap string Item :=
  foldl (λ c k, delete k c) cache keys.

(** [set(key, value, customTTL = null)] at clock reading [now]. *)
Definition set (now : Z) (key : string) (v : V) (customTTL : option Z)
    (this : LRUCache) : LRUCache :=
  let (cache', order') := evict (maxSize this) (cache this) (accessOrder this) in
  let ttl' := orDefault customTTL (ttl this) in
  mkCache (maxSize this) (ttl this)
    (<[key := mkItem v (now + ttl')]> cache')
    (order' ++ [key]).

(** The body of the [for] loop of [invalidate], over the keys that the
    iteration visits. *)
Fixpoint invalidateKeys (test : string → bool) (keys : list string)
    (this : LRUCache) : LRUCache :=
  match keys with
  | [] => this
  | key :: keys' =>
      invalidateKeys test keys'
        (if test key then
           mkCache (maxSize this) (ttl this)
             (delete key (cache this)) (without key (accessOrder this))
         else this)
  end.

Definition syntaxError : Errors.jsError :=
  Errors.EError "Invalid regular expression" None.

(** [invalidate(pattern = null)]; [!pattern] holds of [null] and of the
    empty string. *)
Definition invalidate (pattern : option string) (this : LRUCache)
  : Outcome unit * LRUCache :=
  match pattern with
  | None | Some "" => (Return tt, mkCache (maxSize this) (ttl this) ∅ [])
  | Some p =>
      match RegExp_new p with
      | None => (Throw syntaxError, this)
      | Some regex =>
          (Return tt, invalidateKeys regex (map_to_list (cache this)).*1 this)
      end
  end.

(** [getStats().size] *)
Definition stats_size (this : LRUCache) : Z := Z.of_nat (size (cache this)).

(** One call of the public interface. *)
Inductive Op :=
  | OpGet (now : Z) (key : string)
  | OpSet (now : Z) (key : string) (v : V) (customTTL : option Z)
  | OpInvalidate (pattern : option string).

Definition step (this : LRUCache) (op : Op) : LRUCache :=
  match op with
  | OpGet now key => (get now key this).2
  | OpSet now key v customTTL => set now key v customTTL this
  | OpInvalidate pattern => (invalidate pattern this).2
  end.

Definition run (ops : list Op) (this : LRUCache) : LRUCache :=
  foldl step this ops.

(** Every stored key is somewhere in the access order. *)
Definition covered (cache : gmap string Item) (order : list string) : Prop :=
  ∀ k, k ∈ dom cache → k ∈ order.

(** What every operation keeps: the capacity stays, stored keys are in
    the order, and the map holds at most [m] entries. *)
Definition bounded (m : Z) (this : LRUCache) : Prop :=
  maxSize this = m
  ∧ covered (cache this) (accessOrder this)
  ∧ stats_size this ≤ m.

(** The invariant of the cache store: the access order lists exactly the
    stored keys, each once. *)
Definition orderExact (this : LRUCache) : Prop :=
  NoDup (accessOrder this) ∧ ∀ k, k ∈ accessOrder this ↔ k ∈ dom (cache this).
End LRU.

Arguments Item : clear implicits.
Arguments LRUCache : clear implicits.
Arguments Op : clear implicits.

End Cache.

(** ** ResourceFetcher.fetchPosts: query parameters to upstream options *)

Module Fetcher.

Definition isSpace (c : ascii) : bool :=
  bool_decide (nat_of_ascii c ∈ [32; 9; 10; 11; 12; 13]%nat).

Fixpoint trimStart (s : string) : string :=
  match s with
  | String c s' => if isSpace c then trimStart s' else s
  | EmptyString => EmptyString
  end.

Definition digitValue (c : ascii) : option Z :=
  let n := Z.of_nat (nat_of_ascii c) in
  if bool_decide (48 ≤ n ≤ 57) then Some (n - 48)
  else if bool_decide (97 ≤ n ≤ 122) then Some (n - 87)
  else if bool_decide (65 ≤ n ≤ 90) then Some (n - 55)
  else None.

(** The value of the longest prefix of digits of the radix; [None] (NaN)
    when that prefix is empty. *)
Fixpoint digits (radix : Z) (s : string) (acc : option Z) : option Z :=
  match s with
  | String c s' =>
      match digitValue c with
      | Some d =>
          if bool_decide (d < radix)
          then digits radix s' (Some (default 0 acc * radix + d))
          else acc
      | None => acc
      end
  | EmptyString => acc
  end.

(** [parseInt(x)] of the host, without a radix argument, on a string or
    [undefined]; [None] is NaN. *)
Definition parseInt (x : option string) : option Z :=
  match x with
  | None => None
  | Some s =>
      let s := trimStart s in
      let '(sign, s) :=
        match s with
        | String "-" s' => (-1, s')
        | String "+" s' => (1, s')
        | _ => (1, s)
        end in
      let '(radix, s) :=
        match s with
        | String "0" (String "x" s') | String "0" (String "X" s') => (16, s')
        | _ => (10, s)
        end in
      Z.mul sign <$> digits radix s None
  end.

(** [x || d] on strings: [undefined] and the empty string are falsy. *)
Definition strOr (x : option string) (d : string) : string :=
  match x with
  | None | Some "" => d
  | Some s => s
  end.

(** Truthiness of a string-valued property. *)
Definition truthy (x : option string) : bool :=
  match x with
  | None | Some "" => false
  | Some _ => true
  end.

Record PostsOptions := mkPostsOptions {
  limit : Z;
  page : Z;
  include : string;
  filter : option string;
  order : string;
}.

(** The [options] object that [fetchPosts(query)] hands to
    [ghostService.getPosts]. *)
Definition postsOptions (query : gmap string string) : PostsOptions :=
  let options :=
    {| limit := Host.orDefault (parseInt (query !! "limit")) 15;
       page := Host.orDefault (parseInt (query !! "page")) 1;
       include := strOr (query !! "include") "tags,authors";
       filter := query !! "filter";
       order := strOr (query !! "order") "published_at desc" |} in
  if truthy (query !! "status") then
    let status := default "" (query !! "status") in
    {| limit := limit options;
       page := page options;
       include := include options;
       filter :=
         if truthy (filter options)
         then Some (default "" (filter options) +:+ "+status:" +:+ status)
         else Some ("status:" +:+ status);
       order := order options |}
  else options.

End Fetcher.

(** ** ResourceSubscriptionManager (resources/ResourceManager.js) *)

Module Subscriptions.
Import Errors Host.

Record Options := mkOptions {
  pollingInterval : option Z;
  enablePolling : bool;
}.

(** A subscription object. Values are kept as their [JSON.stringify] text,
    which is all the poll compares; [lastValue] starts as [null]. The
    [callback] field is not stored: an invocation of it is recorded in
    [delivered] against the address of the object, and whether it returns
    or throws is given with the event that runs it. Callbacks are taken not
    to call back into the manager. *)
Record Subscription := mkSubscription {
  id : string;
  uri : string;
  lastValue : string;
  options : Options;
}.

(** The argument of a callback invocation (without its timestamp). *)
Record CallbackEvent := mkEvent {
  ev_type : string;
  ev_uri : string;
  ev_body : string;
}.

(** An interval timer of the host and the subscription object that its
    [pollFunc] closure captured. *)
Record Timer := mkTimer {
  target : nat;
  interval : Z;
}.

(** The manager together with the part of the host it lives in. [heap]
    holds every subscription object created so far, by address; the map
    [subscriptions] and the closures refer to objects by address, so an
    object outlives its removal from the map. [order] lists the keys of
    [subscriptions] in the order of their insertion, which is the order in
    which a [Map] is iterated. *)
Record Manager := mkManager {
  heap : list Subscription;
  subscriptions : gmap string nat;
  order : list string;
  pollingIntervals : gmap string nat;
  timers : gmap nat Timer;
  nextTimer : nat;
  pending : list nat;
  delivered : list (nat * CallbackEvent);
}.

Definition init : Manager := mkManager [] ∅ [] ∅ ∅ 0 [] [].

(** [pollFunc()] up to its [await this.fetchResource(subscription.uri)]:
    the fetch is in flight, with the captured object waiting for it. *)
Definition pollStart (a : nat) (m : Manager) : Manager :=
  mkManager (heap m) (subscriptions m) (order m) (pollingIntervals m) (timers m)
    (nextTimer m) (pending m ++ [a]) (delivered m).

(** [startPolling(subscriptionId, interval)] *)
Definition startPolling (subscriptionId : string) (ms : Z) (m : Manager) : Manager :=
  match subscriptions m !! subscriptionId with
  | None => m
  | Some a =>
      let m1 := pollStart a m in
      let intervalId := nextTimer m1 in
      mkManager (heap m1) (subscriptions m1) (order m1)
        (<[subscriptionId := intervalId]> (pollingIntervals m1))
        (<[intervalId := mkTimer a ms]> (timers m1))
        (Datatypes.S intervalId) (pending m1) (delivered m1)
  end.

(** [stopPolling(subscriptionId)] *)
Definition stopPolling (subscriptionId : string) (m : Manager) : Manager :=
  match pollingIntervals m !! subscriptionId with
  | None => m
  | Some intervalId =>
      mkManager (heap m) (subscriptions m) (order m)
        (delete subscriptionId (pollingIntervals m))
        (delete intervalId (timers m))
        (nextTimer m) (pending m) (delivered m)
  end.

(** The iteration order after [Map.prototype.set]: a new key goes to the
    end, a key that is present keeps its place. *)
Definition orderAfterSet (key : string) (m : Manager) : list string :=
  match subscriptions m !! key with
  | Some _ => order m
  | None => order m ++ [key]
  end.

(** [subscribe(uri, callback, options)]; [subscriptionId] is the identifier
    that the first line builds from the clock and the random generator. *)
Definition subscribe (subscriptionId uri : string) (opts : Options) (m : Manager)
  : string * Manager :=
  let ms := orDefault (pollingInterval opts) 30000 in
  let subscription := mkSubscription subscriptionId uri "null" opts in
  let m1 :=
    mkManager (heap m ++ [subscription])
      (<[subscriptionId := length (heap m)]> (subscriptions m))
      (orderAfterSet subscriptionId m)
      (pollingIntervals m) (timers m) (nextTimer m) (pending m) (delivered m) in
  (subscriptionId,
   if enablePolling opts then startPolling subscriptionId ms m1 else m1).

(** [unsubscribe(subscriptionId)] *)
Definition unsubscribe (subscriptionId : string) (m : Manager)
  : Outcome unit * Manager :=
  match subscriptions m !! subscriptionId with
  | None => (Throw (ENotFound "Subscription" subscriptionId), m)
  | Some _ =>
      let m1 := stopPolling subscriptionId m in
      (Return tt,
       mkManager (heap m1) (delete subscriptionId (subscriptions m1))
         (filter (λ key, key ≠ subscriptionId) (order m1))
         (pollingIntervals m1) (timers m1) (nextTimer m1) (pending m1)
         (delivered m1))
  end.

(** The host fires interval timer [h]: a cleared timer does nothing. *)
Definition timerFires (h : nat) (m : Manager) : Manager :=
  match timers m !! h with
  | None => m
  | Some t => pollStart (target t) m
  end.

(** One invocation of the callback of the object at [a]. *)
Definition deliver (a : nat) (ev : CallbackEvent) (m : Manager) : Manager :=
  mkManager (heap m) (subscriptions m) (order m) (pollingIntervals m) (timers m)
    (nextTimer m) (pending m) (delivered m ++ [(a, ev)]).

(** The [catch] block of [pollFunc]: the callback is invoked with an
    [error] event carrying [error.message]. Whether this invocation returns
    or throws changes nothing in the manager: when it throws, the promise
    of [pollFunc] is rejected and nobody waits for it. *)
Definition pollCatch (a : nat) (subscription : Subscription) (error : jsError)
    (m : Manager) : Manager :=
  deliver a (mkEvent "error" (uri subscription) (message error)) m.

(** The rest of [pollFunc], run when the fetch of the [k]-th poll in flight
    has settled. [result] is how the [try] block got as far as the
    comparison: the [JSON.stringify] text of the fetched value, or what the
    fetch (or [JSON.stringify]) threw. [onUpdate] is what the callback does
    when it is invoked with the [update] event; this invocation is inside
    the [try], so an error that it throws goes to the [catch] block, which
    invokes the callback a second time. When [undefined] is thrown, reading
    [error.message] in the [catch] block throws before any invocation. *)
Definition fetchSettles (k : nat) (result : Outcome string) (onUpdate : Outcome unit)
    (m : Manager) : Manager :=
  match pending m !! k with
  | None => m
  | Some a =>
      let m1 :=
        mkManager (heap m) (subscriptions m) (order m) (pollingIntervals m)
          (timers m) (nextTimer m) (delete k (pending m)) (delivered m) in
      match heap m1 !! a with
      | None => m1
      | Some subscription =>
          match result with
          | Return currentValue =>
              if bool_decide (currentValue ≠ lastValue subscription) then
                let m2 :=
                  deliver a (mkEvent "update" (uri subscription) currentValue)
                    (mkManager
                       (<[a := mkSubscription (id subscription) (uri subscription)
                                 currentValue (options subscription)]> (heap m1))
                       (subscriptions m1) (order m1) (pollingIntervals m1)
                       (timers m1) (nextTimer m1) (pending m1) (delivered m1)) in
                match onUpdate with
                | Return _ => m2
                | Throw error => pollCatch a subscription error m2
                | ThrowUndefined => m2
                end
              else m1
          | Throw error => pollCatch a subscription error m1
          | ThrowUndefined => m1
          end
      end
  end.

(** [matchesSubscription(subscriptionURI, eventURI)] *)
Definition matchesSubscription (subscriptionURI eventURI : string) : bool :=
  bool_decide (subscriptionURI = eventURI)
  || String.prefix eventURI subscriptionURI
  || String.prefix subscriptionURI eventURI.

(** The [for ... of this.subscriptions] loop of [notifySubscribers] over
    the keys still to visit. [outcomes a] is what the callback of the
    object at [a] does when it is invoked; the loop has no [try], so the
    first callback that throws ends it, and [notifySubscribers] throws what
    that callback threw. *)
Fixpoint notifyLoop (eventURI data eventType : string)
    (outcomes : nat → Outcome unit) (keys : list string) (m : Manager)
  : Outcome unit * Manager :=
  match keys with
  | [] => (Return tt, m)
  | key :: keys' =>
      match subscriptions m !! key with
      | None => notifyLoop eventURI data eventType outcomes keys' m
      | Some a =>
          match heap m !! a with
          | None => notifyLoop eventURI data eventType outcomes keys' m
          | Some subscription =>
              if matchesSubscription (uri subscription) eventURI then
                let m1 := deliver a (mkEvent eventType eventURI data) m in
                match outcomes a with
                | Return _ => notifyLoop eventURI data eventType outcomes keys' m1
                | Throw error => (Throw error, m1)
                | ThrowUndefined => (ThrowUndefined, m1)
                end
              else notifyLoop eventURI data eventType outcomes keys' m
          end
      end
  end.

(** [notifySubscribers(uri, data, eventType)] *)
Definition notifySubscribers (eventURI data eventType : string)
    (outcomes : nat → Outcome unit) (m : Manager) : Outcome unit * Manager :=
  notifyLoop eventURI data eventType outcomes (order m) m.

(** What can happen to a manager: calls of its interface and the two host
    events that resume its code, each with what the callbacks it invokes
    do. *)
Inductive Action :=
  | Subscribe (subscriptionId uri : string) (opts : Options)
  | Unsubscribe (subscriptionId : string)
  | Notify (uri data eventType : string) (outcomes : nat → Outcome unit)
  | TimerFires (h : nat)
  | FetchSettles (k : nat) (result : Outcome string) (onUpdate : Outcome unit).

Definition step (m : Manager) (act : Action) : Manager :=
  match act with
  | Subscribe sid u opts => (subscribe sid u opts m).2
  | Unsubscribe sid => (unsubscribe sid m).2
  | Notify u data ty outcomes => (notifySubscribers u data ty outcomes m).2
  | TimerFires h => timerFires h m
  | FetchSettles k result onUpdate => fetchSettles k result onUpdate m
  end.

Definition run (acts : list Action) (m : Manager) : Manager := foldl step m acts.

(** Identifiers are unique in the process: a trace is admissible when no
    [subscribe] draws an identifier that is registered at that moment. *)
Fixpoint admissible (m : Manager) (acts : list Action) : bool :=
  match acts with
  | [] => true
  | act :: acts' =>
      match act with
      | Subscribe sid _ _ => bool_decide (subscriptions m !! sid = None)
      | _ => true
      end && admissible (step m act) acts'
  end.

(** The callbacks that the polls of a trace invoke with an [update] event
    all return. *)
Definition callbacksReturn (acts : list Action) : bool :=
  forallb (λ act, match act with
                  | FetchSettles _ _ onUpdate => negb (isThrow onUpdate)
                  | _ => true
                  end) acts.

(** Number of invocations of the callback of the object at address [a]. *)
Definition callbacks (a : nat) (m : Manager) : nat :=
  length (filter (λ d, d.1 = a) (delivered m)).

(** Number of polls in flight for the object at address [a]. *)
Definition inFlight (a : nat) (m : Manager) : nat :=
  length (filter (λ b, b = a) (pending m)).

(** The registry and the timers agree: registered objects exist and belong
    to one id each, every live timer belongs to a registered subscription
    and is the one recorded for it, and recorded handles have been handed
    out. *)
Definition consistent (m : Manager) : Prop :=
  (∀ sid a, subscriptions m !! sid = Some a → (a < length (heap m))%nat)
  ∧ (∀ sid sid' a,
       subscriptions m !! sid = Some a → subscriptions m !! sid' = Some a →
       sid = sid')
  ∧ (∀ h t, timers m !! h = Some t →
       ∃ sid, subscriptions m !! sid = Some (target t)
              ∧ pollingIntervals m !! sid = Some h)
  ∧ (∀ sid h, pollingIntervals m !! sid = Some h → (h < nextTimer m)%nat).

(** [order] is the iteration order of [subscriptions]: it lists the keys
    of the map, each once. *)
Definition registryOrdered (m : Manager) : Prop :=
  NoDup (order m) ∧ ∀ sid, sid ∈ order m ↔ is_Some (subscriptions m !! sid).

(** The object at address [a] exists, is not registered under any id and
    no live timer polls for it. *)
Definition retired (a : nat) (m : Manager) : Prop :=
  (a < length (heap m))%nat
  ∧ (∀ sid, subscriptions m !! sid ≠ Some a)
  ∧ (∀ h t, timers m !! h = Some t → target t ≠ a).

(** [m'] has the registry, the timers and the objects of [m]: what an
    action that only resumes a poll or notifies leaves in place. *)
Definition sameRegistry (m m' : Manager) : Prop :=
  subscriptions m' = subscriptions m
  ∧ order m' = order m
  ∧ pollingIntervals m' = pollingIntervals m
  ∧ timers m' = timers m
  ∧ nextTimer m' = nextTimer m
  ∧ length (heap m') = length (heap m).

(** The object registered under [key], if its URI matches [eventURI]. *)
Definition matchOf (eventURI : string) (m : Manager) (key : string) : option nat :=
  match subscriptions m !! key with
  | Some a =>
      match heap m !! a with
      | Some subscription =>
          if matchesSubscription (uri subscription) eventURI then Some a else None
      | None => None
      end
  | None => None
  end.

(** The objects that a notification for [eventURI] concerns: the
    registered subscriptions whose URI matches, in registration order. *)
Definition matching (eventURI : string) (m : Manager) : list nat :=
  omap (matchOf eventURI m) (order m).

(** The part of a list of objects up to and including the first whose
    callback throws. *)
Fixpoint uptoFirstThrow (outcomes : nat → Outcome unit) (l : list nat) : list nat :=
  match l with
  | [] => []
  | a :: l' =>
      a :: match outcomes a with
           | Return _ => uptoFirstThrow outcomes l'
           | _ => []
           end
  end.

(** What a loop over the callbacks of [l] ends with: the first outcome
    that is not a return, if there is one. *)
Fixpoint loopOutcome (outcomes : nat → Outcome unit) (l : list nat) : Outcome unit :=
  match l with
  | [] => Return tt
  | a :: l' =>
      match outcomes a with
      | Return _ => loopOutcome outcomes l'
      | thrown => thrown
      end
  end.

(** The interval that the specification words give: the requested one,
    30000 by default, and at least 5000. *)
Definition flooredInterval (opts : Options) : Z :=
  Z.max 5000 (default 30000 (pollingInterval opts)).

End Subscriptions.

(** ** Observations on runs, and runs of several calls *)

Module Runs.
Import Errors Host Breaker.

(** The delays slept in a run, oldest first. *)
Definition sleeps {S} (rt : Runtime S) : list Z :=
  omap (λ ev, match ev with Slept ms => Some ms | _ => None end) (events rt).

(** One retry of [retryWithBackoff]: the attempt that failed, the delay
    slept after it and the error it failed with. *)
Record Retry := mkRetry {
  retry_attempt : Z;
  retry_delay : Z;
  retry_error : jsError;
}.

(** What a run of the retry loop adds to the events: a call and, for each
    retry, the sleep, the [onRetry] and the next call, in this order. *)
Definition retryTrace (retries : list Retry) : list Event :=
  Invoked
  :: flat_map (λ r, [Slept (retry_delay r);
                     Retried (retry_attempt r) (retry_error r);
                     Invoked]) retries.

(** The user state after [k] calls of [fn]. *)
Definition afterCalls {S V} (fn : S → Outcome V * S) (k : nat) (s : S) : S :=
  Nat.iter k (advance fn) s.

(** Calls [execute(fn)] for each [fn] of a list, one after the other, on
    one breaker. *)
Definition executeAll {S V} (clock : nat → Z)
    (fns : list (S → Outcome V * S)) (this : CircuitBreaker) (rt : Runtime S)
  : CircuitBreaker * Runtime S :=
  foldl (λ st fn, let r := execute clock st.1 fn st.2 in (r.1.2, r.2)) (this, rt) fns.

(** What holds of a breaker between calls once its threshold is positive:
    it is never left half open, and it is open exactly when the failure
    count has reached the threshold, with a deadline set. *)
Definition atRest (this : CircuitBreaker) : Prop :=
  state this ≠ HALF_OPEN
  ∧ (state this = OPEN ↔ failureThreshold this ≤ failureCount this)
  ∧ (state this = OPEN → is_Some (nextAttempt this))
  ∧ 0 ≤ failureCount this.

End Runs.

(** ** Sample inputs *)

Module Samples.
Import Host Cache.

(** A stand-in for [new RegExp]: a pattern matches the keys that start
    with it. *)
Definition startsWith (p : string) : option (string → bool) :=
  Some (String.prefix p).

(** The cache of capacity 2 after [set a] and [set b]. *)
Definition twoEntries : LRUCache nat :=
  set 1 "b" 20%nat None (set 0 "a" 10%nat None (new (Some 2) None)).

End Samples.

(** ** RateLimiter (middleware/errorMiddleware.js) *)

Module RateLimit.
Import Errors Host.

Record RateLimiter := mkLimiter {
  windowMs : Z;
  maxRequests : Z;
  requests : gmap string (list Z);
}.

Record Options := mkOptions {
  opt_windowMs : option Z;
  opt_maxRequests : option Z;
}.

(** [new RateLimiter(options)] *)
Definition new (options : Options) : RateLimiter :=
  mkLimiter (orDefault (opt_windowMs options) 60000)
    (orDefault (opt_maxRequests options) 100) ∅.

(** [times.filter((time) => time > cutoff)] *)
Definition recent (cutoff : Z) (times : list Z) : list Z :=
  filter (λ time, cutoff < time) times.

(** [cleanup(now)]: every list keeps its times after the cutoff, and a key
    whose list becomes empty is deleted. *)
Definition cleanup (now : Z) (this : RateLimiter) : RateLimiter :=
  let cutoff := now - windowMs this in
  mkLimiter (windowMs this) (maxRequests this)
    (omap (λ times,
             let filtered := recent cutoff times in
             if bool_decide (length filtered = 0%nat) then None else Some filtered)
       (requests this)).

(** [Math.ceil(x / 1000)] for an integer [x]. *)
Definition ceilSeconds (x : Z) : Z := - ((- x) / 1000).

(** The middleware on a request from [key] ([req.ip]) when [Date.now()]
    reads [now]: [None] is [next()], [Some e] is [next(e)]. *)
Definition middleware (key : string) (now : Z) (this : RateLimiter)
  : option jsError * RateLimiter :=
  let this1 := cleanup now this in
  let requestTimes := default [] (requests this1 !! key) ++ [now] in
  let this2 :=
    mkLimiter (windowMs this1) (maxRequests this1)
      (<[key := requestTimes]> (requests this1)) in
  if bool_decide (maxRequests this < Z.of_nat (length requestTimes)) then
    let retryAfter :=
      ceilSeconds (windowMs this - (now - default 0 (head requestTimes))) in
    (Some (ERateLimit retryAfter), this2)
  else (None, this2).

(** The answers to a sequence of requests, each a key and the clock reading
    at its arrival. *)
Fixpoint serve (this : RateLimiter) (reqs : list (string * Z))
  : list (option jsError) :=
  match reqs with
  | [] => []
  | req :: reqs' =>
      let r := middleware req.1 req.2 this in
      r.1 :: serve r.2 reqs'
  end.

(** The limiter after a sequence of requests. *)
Definition after (this : RateLimiter) (reqs : list (string * Z)) : RateLimiter :=
  foldl (λ st req, (middleware req.1 req.2 st).2) this reqs.

(** The arrival times of the requests of [key], in order. *)
Definition timesOf (key : string) (reqs : list (string * Z)) : list Z :=
  omap (λ req, if decide (req.1 = key) then Some req.2 else None) reqs.

(** The number of requests of [key] among [reqs] that arrived after
    [cutoff]. *)
Definition arrivedSince (cutoff : Z) (key : string) (reqs : list (string * Z)) : Z :=
  Z.of_nat (length (recent cutoff (timesOf key reqs))).

(** The limiter holds, for every key, the times of its requests so far that
    are later than [last - windowMs]. *)
Definition tracks (last : Z) (served : list (string * Z)) (this : RateLimiter) : Prop :=
  ∀ key, default [] (requests this !! key)
         = recent (last - windowMs this) (timesOf key served).

End RateLimit.

(** ** handleApiRequest (services/ghostServiceImproved.js) *)

Module Executor.
Import Errors Host Breaker Retry.

(** What the Ghost client throws, as far as [fromGhostError] looks at it:
    [error.response?.status], [error.statusCode],
    [error.response?.data?.errors?.[0]?.message] and [error.message]. *)
Record UpstreamError := mkUpstreamError {
  responseStatus : option Z;
  ownStatus : option Z;
  responseMessage : option string;
  ownMessage : string;
}.

(** [error.response?.status || error.statusCode] *)
Definition statusOf (err : UpstreamError) : option Z :=
  match responseStatus err with
  | Some st => if bool_decide (st = 0) then ownStatus err else Some st
  | None => ownStatus err
  end.

(** [error.response?.data?.errors?.[0]?.message || error.message] *)
Definition messageOf (err : UpstreamError) : string :=
  match responseMessage err with
  | None | Some "" => ownMessage err
  | Some msg => msg
  end.

(** The state that requests share: the breaker of the module and the
    runtime of the upstream calls, where the clock reads of the breaker and
    the calls of the Ghost client are observed. *)
Definition Shared (U : Type) : Type := CircuitBreaker * Runtime U.

Section HandleApiRequest.
Context {U V : Type}.
Variable clock : nat → Z.
Variable rnd : nat → Q.
(** [api[resource][action](...)]: the call of the Ghost client. *)
Variable apiCall : U → (UpstreamError + V) * U.
Variable operation : string.

(** [executeRequest]: the call, with whatever it throws made into a
    [GhostAPIError]. *)
Definition executeRequest (u : U) : Outcome V * U :=
  match apiCall u with
  | (inl err, u') => (Throw (fromGhostError (statusOf err) (messageOf err) operation), u')
  | (inr v, u') => (Return v, u')
  end.

(** [wrappedExecute]: through the breaker when it is enabled. *)
Definition wrappedExecute (useCircuitBreaker : bool) (st : Shared U)
  : Outcome V * Shared U :=
  if useCircuitBreaker then
    let r := execute clock st.1 executeRequest st.2 in (r.1.1, (r.1.2, r.2))
  else
    let r := call executeRequest st.2 in (r.1, (st.1, r.2)).

(** Reading [error.message] in the [catch] block of [handleApiRequest]
    when [undefined] was thrown raises this. *)
Definition messageOfUndefined : jsError :=
  EError "Cannot read properties of undefined (reading 'message')" None.

(** [handleApiRequest(resource, action, data, options, config)]; [known]
    tells whether [api[resource][action]] is a function, [maxRetries] and
    [useCircuitBreaker] are the fields of [config]. The [catch] block logs
    [error.message] and throws the error again. The request is run as one
    piece: no other request uses the breaker while it runs. *)
Definition handleApiRequest (known : bool) (maxRetries : option Z)
    (useCircuitBreaker : option bool) : M (Shared U) (Outcome V) :=
  if negb known then
    ret (Throw (EValidation
                  ("Invalid Ghost API resource or action: " +:+ operation) []))
  else
    let* result :=
      retryWithBackoff rnd (wrappedExecute (default true useCircuitBreaker))
        (Some (default 3 maxRetries)) in
    ret (match result with
         | ThrowUndefined => Throw messageOfUndefined
         | settled => settled
         end).

End HandleApiRequest.

(** [getPost(postId, options)] (services/ghostServiceImproved.js). *)
Section GetPost.
Context {U V : Type}.
Variable clock : nat → Z.
Variable rnd : nat → Q.
(** [api.posts.read(options, { id: postId })] *)
Variable read : string → U → (UpstreamError + V) * U.

(** The [catch] of [getPost]: a [GhostAPIError] whose [ghostStatusCode] is
    404 becomes a [NotFoundError], anything else is thrown again. *)
Definition notFoundAs (resource id : string) (o : Outcome V) : Outcome V :=
  match o with
  | Throw (EGhostAPI _ _ st) =>
      if bool_decide (st = Some 404) then Throw (ENotFound resource id) else o
  | _ => o
  end.

Definition getPost (postId : string) : M (Shared U) (Outcome V) :=
  if bool_decide (postId = "") then
    ret (Throw (EValidation "Post ID is required" []))
  else
    let* r := handleApiRequest clock rnd (read postId) "posts.read" true None None in
    ret (notFoundAs "Post" postId r).
End GetPost.

(** The calls of the Ghost client observed so far. *)
Definition upstreamCalls {U} (rt : Runtime (Shared U)) : nat :=
  invocations (user rt).2.

(** The breaker of the module. *)
Definition breakerOf {U} (rt : Runtime (Shared U)) : CircuitBreaker :=
  (user rt).1.

End Executor.

(** ** ErrorMetrics (middleware/errorMiddleware.js) *)

Module Metrics.
Import Errors Host.

(** [error.constructor.name] *)
Definition className (c : ErrClass) : string :=
  match c with
  | CError => "Error"
  | CBaseError => "BaseError"
  | CValidationError => "ValidationError"
  | CAuthenticationError => "AuthenticationError"
  | CAuthorizationError => "AuthorizationError"
  | CNotFoundError => "NotFoundError"
  | CConflictError => "ConflictError"
  | CRateLimitError => "RateLimitError"
  | CExternalServiceError => "ExternalServiceError"
  | CGhostAPIError => "GhostAPIError"
  | CMCPProtocolError => "MCPProtocolError"
  | CToolExecutionError => "ToolExecutionError"
  | CImageProcessingError => "ImageProcessingError"
  | CConfigurationError => "ConfigurationError"
  end.

(** [this.metrics]; [lastReset] is the clock reading behind the ISO string.
    The counters are plain objects used as maps: the keys of
    [errorsByEndpoint] are taken not to name a property of
    [Object.prototype] (the one caller passes the request method, a space
    and the path). *)
Record ErrorMetrics := mkMetrics {
  totalErrors : Z;
  errorsByType : gmap string Z;
  errorsByStatusCode : gmap Z Z;
  errorsByEndpoint : gmap string Z;
  lastReset : Z;
}.

(** [new ErrorMetrics()] at clock reading [now]. *)
Definition new (now : Z) : ErrorMetrics := mkMetrics 0 ∅ ∅ ∅ now.

(** [reset()] at clock reading [now]. *)
Definition reset (now : Z) (this : ErrorMetrics) : ErrorMetrics :=
  mkMetrics 0 ∅ ∅ ∅ now.

(** [counts[key] = (counts[key] || 0) + 1] *)
Definition bump `{Countable K} (key : K) (counts : gmap K Z) : gmap K Z :=
  <[key := orDefault (counts !! key) 0 + 1]> counts.

(** [recordError(error, endpoint = null)] *)
Definition recordError (error : jsError) (endpoint : option string)
    (this : ErrorMetrics) : ErrorMetrics :=
  let errorType := className (classOf error) in
  let status := orDefault (statusCode error) 500 in
  mkMetrics (totalErrors this + 1)
    (bump errorType (errorsByType this))
    (bump status (errorsByStatusCode this))
    (match endpoint with
     | None | Some "" => errorsByEndpoint this
     | Some ep => bump ep (errorsByEndpoint this)
     end)
    (lastReset this).

(** One call on the collector. *)
Inductive Call :=
  | RecordError (error : jsError) (endpoint : option string)
  | Reset (now : Z).

Definition step (this : ErrorMetrics) (c : Call) : ErrorMetrics :=
  match c with
  | RecordError error endpoint => recordError error endpoint this
  | Reset now => reset now this
  end.

Definition run (calls : list Call) (this : ErrorMetrics) : ErrorMetrics :=
  foldl step this calls.

(** The errors recorded by [calls] since the last [Reset] among them. *)
Definition sinceReset (calls : list Call) : list jsError :=
  foldl (λ acc c, match c with
                  | RecordError error _ => acc ++ [error]
                  | Reset _ => []
                  end) [] calls.

End Metrics.

(** ** ResourceFetcher.fetchTags: pagination *)

Module Tags.
Import Host Fetcher.

(** The index that [Array.prototype.slice] makes of an integer argument. *)
Definition relativeIndex (len i : Z) : Z :=
  if bool_decide (i < 0) then Z.max (len + i) 0 else Z.min i len.

(** [l.slice(start, finish)] *)
Definition slice {A} (l : list A) (start finish : Z) : list A :=
  let len := Z.of_nat (length l) in
  let k := relativeIndex len start in
  let final := relativeIndex len finish in
  take (Z.to_nat (final - k)) (drop (Z.to_nat k) l).

(** [Math.ceil(a / b)] on integers, [b] not 0. *)
Definition ceilDiv (a b : Z) : Z := - ((- a) / b).

Record Pagination := mkPagination {
  page : Z;
  limit : Z;
  pages : Z;
  total : Z;
}.

Record Response (A : Type) := mkResponse {
  data : list A;
  pagination : Pagination;
}.
Arguments mkResponse {A} _ _.
Arguments data {A} _.
Arguments pagination {A} _.

(** The [response] that [fetchTags] builds from the filtered tags once
    [limit] and [page] are known. *)
Definition paginate {A} (filteredTags : list A) (limit page : Z) : Response A :=
  let start := (page - 1) * limit in
  let paginatedTags := slice filteredTags start (start + limit) in
  mkResponse paginatedTags
    (mkPagination page limit
       (ceilDiv (Z.of_nat (length filteredTags)) limit)
       (Z.of_nat (length filteredTags))).

(** [fetchTags(query)] from [// Apply pagination] on. *)
Definition tagsResponse {A} (query : gmap string string) (filteredTags : list A)
  : Response A :=
  let limit := orDefault (parseInt (query !! "limit")) 50 in
  let page := orDefault (parseInt (query !! "page")) 1 in
  paginate filteredTags limit page.

End Tags.

(** ** ResourceFetcher.fetchPost: a single post through the cache *)

Module PostFetcher.
Import Errors Host.

Record ParsedURI := mkParsedURI {
  identifier : string;
  identifierType : string;
  query : gmap string string;
  isCollection : bool;
}.

Section FetchPost.
(** [S] is the state of the Ghost service, [V] the objects it returns.
    [getPost] resolves to a post or to nothing, [getPosts] to an array. *)
Context {S V : Type}.
Variable getPost : string → S → Outcome (option V) * S.
Variable getPosts : string → S → Outcome (list V) * S.
(** [this.fetchPosts(query)], the other method of the fetcher. *)
Variable fetchPosts : gmap string string → Cache.LRUCache V * S
                      → Outcome V * (Cache.LRUCache V * S).

(** The [switch] of [fetchPost]: the post as the service has it. *)
Definition lookupPost (parsedURI : ParsedURI) (s : S) : Outcome (option V) * S :=
  let identifier := identifier parsedURI in
  let identifierType := identifierType parsedURI in
  if bool_decide (identifierType = "id") then getPost identifier s
  else if bool_decide (identifierType = "slug") then
    match getPosts ("slug:" +:+ identifier) s with
    | (Return posts, s') => (Return (head posts), s')
    | (Throw e, s') => (Throw e, s')
    | (ThrowUndefined, s') => (ThrowUndefined, s')
    end
  else if bool_decide (identifierType = "uuid") then
    match getPosts ("uuid:" +:+ identifier) s with
    | (Return posts, s') => (Return (head posts), s')
    | (Throw e, s') => (Throw e, s')
    | (ThrowUndefined, s') => (ThrowUndefined, s')
    end
  else (Throw (EValidation ("Unknown identifier type: " +:+ identifierType) []), s).

Definition cacheKey (parsedURI : ParsedURI) : string :=
  "post:" +:+ identifierType parsedURI +:+ ":" +:+ identifier parsedURI.

(** [fetchPost(parsedURI)], run without another call in between;
    [nowGet] and [nowSet] are the clock readings of [cache.get] and
    [cache.set]. *)
Definition fetchPost (nowGet nowSet : Z) (parsedURI : ParsedURI)
    (st : Cache.LRUCache V * S) : Outcome V * (Cache.LRUCache V * S) :=
  if isCollection parsedURI then fetchPosts (query parsedURI) st
  else
    let (cached, cache1) := Cache.get nowGet (cacheKey parsedURI) st.1 in
    match cached with
    | Some post => (Return post, (cache1, st.2))
    | None =>
        match lookupPost parsedURI st.2 with
        | (Return (Some post), s') =>
            (Return post, (Cache.set nowSet (cacheKey parsedURI) post None cache1, s'))
        | (Return None, s') =>
            (Throw (ENotFound "Post" (identifier parsedURI)), (cache1, s'))
        | (Throw e, s') => (Throw e, (cache1, s'))
        | (ThrowUndefined, s') => (ThrowUndefined, (cache1, s'))
        end
    end.
End FetchPost.

End PostFetcher.

(** ** searchPosts (services/ghostServiceImproved.js): the filter *)

Module Search.
Import Host.

Definition backslash : ascii := "092"%char.
Definition quote : ascii := "039"%char.

(** [s.replace(/c/g, by)] for a single character [c] and a replacement
    without [$]. *)
Fixpoint replaceAll (c : ascii) (replacement : string) (s : string) : string :=
  match s with
  | EmptyString => EmptyString
  | String a s' =>
      if bool_decide (a = c) then replacement +:+ replaceAll c replacement s'
      else String a (replaceAll c replacement s')
  end.

(** [query.replace(/\\/g, '\\\\').replace(/'/g, "\\'")] *)
Definition sanitizeQuery (query : string) : string :=
  replaceAll quote (String backslash (String quote EmptyString))
    (replaceAll backslash (String backslash (String backslash EmptyString)) query).

(** [parts.join(sep)] *)
Definition join (sep : string) (parts : list string) : string :=
  match parts with
  | [] => EmptyString
  | p :: ps => foldl (λ acc q, acc +:+ sep +:+ q) p ps
  end.

Record SearchOptions := mkSearchOptions {
  limit : Z;
  include : string;
  filter : string;
}.

(** The [searchOptions] that [searchPosts(query, options)] hands to the
    request, from [options.status] and [options.limit]. *)
Definition searchOptions (query : string) (status : option string)
    (limit : option Z) : SearchOptions :=
  let sanitizedQuery := sanitizeQuery query in
  let filterParts := ["title:~'" +:+ sanitizedQuery +:+ "'"] in
  let filterParts :=
    if Fetcher.truthy status && negb (bool_decide (status = Some "all"))
    then filterParts ++ ["status:" +:+ default EmptyString status]
    else filterParts in
  mkSearchOptions (orDefault limit 15) "tags,authors" (join "+" filterParts).

(** How a reader that takes the backslash as the escape character reads a
    quoted literal from behind its opening quote: the text of the literal
    and what follows its closing quote. *)
Fixpoint readEscaped (s : string) : option (string * string) :=
  match s with
  | EmptyString => None
  | String a s' =>
      if bool_decide (a = quote) then Some (EmptyString, s')
      else if bool_decide (a = backslash) then
        match s' with
        | EmptyString => None
        | String b s'' =>
            match readEscaped s'' with
            | Some (text, rest) => Some (String b text, rest)
            | None => None
            end
        end
      else
        match readEscaped s' with
        | Some (text, rest) => Some (String a text, rest)
        | None => None
        end
  end.

End Search.

(** ** CircuitBreaker.execute in its two halves, for calls that overlap *)

Module Overlap.
Import Errors Host Breaker.
Open Scope host_scope.

Section Steps.
Context {S V : Type}.
Variable clock : nat → Z.

(** [execute] as far as the call of [fn]: the gate. The result tells
    whether the call is let through, with the breaker as the gate leaves
    it. *)
Definition enter (this : CircuitBreaker) : M S (bool * CircuitBreaker) :=
  if bool_decide (state this = OPEN) then
    let* t := DateNow clock in
    if bool_decide (t < default 0 (nextAttempt this)) then ret (false, this)
    else ret (true, withState HALF_OPEN this)
  else ret (true, this).

(** [execute] from its [await] on: the promise of [fn] has settled with
    [result], and [this] is the breaker as it is at that moment, whatever
    other calls have done to it since the gate. *)
Definition settle (this : CircuitBreaker) (result : Outcome V)
  : M S (Outcome V * CircuitBreaker) :=
  match result with
  | Return v => ret (Return v, onSuccess this)
  | thrown => let* this' := onFailure clock this in ret (thrown, this')
  end.

(** What happens to a breaker that several calls share: a call arrives at
    the gate, or a call that was let through settles. *)
Inductive Step :=
  | Enters
  | Settles (result : Outcome V).

Definition step (st : CircuitBreaker * Runtime S) (s : Step)
  : CircuitBreaker * Runtime S :=
  match s with
  | Enters => let r := enter st.1 st.2 in (r.1.2, r.2)
  | Settles result => let r := settle st.1 result st.2 in (r.1.2, r.2)
  end.

Definition interleave (steps : list Step) (st : CircuitBreaker * Runtime S)
  : CircuitBreaker * Runtime S :=
  foldl step st steps.
End Steps.

Arguments Step : clear implicits.

(** What holds of a shared breaker at every moment, however the calls on
    it overlap: threshold and reset timeout are as configured, the failure
    count is not negative, a breaker that is not CLOSED has a deadline,
    and a breaker whose failure count has reached the threshold is not
    CLOSED. *)
Definition sound (threshold timeout : Z) (this : CircuitBreaker) : Prop :=
  failureThreshold this = threshold
  ∧ resetTimeout this = timeout
  ∧ 0 ≤ failureCount this
  ∧ (state this ≠ CLOSED → is_Some (nextAttempt this))
  ∧ (threshold ≤ failureCount this → state this ≠ CLOSED).

End Overlap.

(** ** ResourceManager (resources/ResourceManager.js): its cache *)

Module ResourceCache.
Import Cache.

(** [this.cache = new LRUCache(100, 300000)], the one cache that the
    program builds. *)
Definition managerCache {V} : LRUCache V := new (Some 100) (Some 300000).

(** The key under which [fetchPost] stores the post of id [i]:
    [`post:${identifierType}:${identifier}`]. *)
Definition postKey (i : nat) : string := "post:id:" +:+ pretty i.

(** [cache.set(postKey i, i)] for each [i] of [ids], one call per reading
    of the clock, from reading 0 on. *)
Definition setPosts (ids : list nat) : list (Op nat) :=
  imap (λ t i, OpSet (Z.of_nat t) (postKey i) i None) ids.

End ResourceCache.

(** * Properties *)

(** ** Backoff policy *)

Module BackoffFacts.
Import Errors.

Lemma Qmin_inject_Z (x y : Z) :
  (Qmin (inject_Z x) (inject_Z y) == inject_Z (Z.min x y))%Q.
Proof.
  destruct (Z.le_ge_cases x y) as [Hxy|Hxy].
  - rewrite Z.min_l by done. apply Q.min_l. by rewrite <- Zle_Qle.
  - rewrite Z.min_r by done. apply Q.min_r. by rewrite <- Zle_Qle.
Qed.

(** From attempt 1 on, the pre-jitter delay is the integer
    [min(30000, 1000 * 2^(attempt-1))]. *)
Lemma exponentialDelay_Z (a : Z) :
  1 ≤ a →
  (exponentialDelay a == inject_Z (Z.min (1000 * 2 ^ (a - 1)) 30000))%Q.
Proof.
  intros Ha. unfold exponentialDelay, baseDelay, maxDelay.
  rewrite <- Qmin_inject_Z, inject_Z_mult.
  rewrite (Zpower_Qpower 2 (a - 1)) by lia. reflexivity.
Qed.

Lemma exponentialDelay_nonneg (a : Z) : 1 ≤ a → (0 <= exponentialDelay a)%Q.
Proof.
  intros Ha. rewrite exponentialDelay_Z by done.
  change 0%Q with (inject_Z 0). rewrite <- Zle_Qle.
  apply Z.min_glb; [|lia].
  assert (0 < 2 ^ (a - 1)) by (apply Z.pow_pos_nonneg; lia). lia.
Qed.

Lemma Math_round_mono (x y : Q) : (x <= y)%Q → Math_round x ≤ Math_round y.
Proof.
  intros Hxy. unfold Math_round. apply Qfloor_resp_le.
  by apply Qplus_le_l.
Qed.

Lemma Math_round_proper (x y : Q) : (x == y)%Q → Math_round x = Math_round y.
Proof. intros Hxy. unfold Math_round. by rewrite Hxy. Qed.

Lemma Math_round_lower (n : Z) (x : Q) : (inject_Z n <= x)%Q → n ≤ Math_round x.
Proof.
  intros Hx. rewrite <- (Qfloor_Z n). apply Qfloor_resp_le.
  rewrite <- (Qplus_0_r (inject_Z n)). by apply Qplus_le_compat.
Qed.

Lemma backoff_Z_mono (a b : Z) :
  1 ≤ a → a ≤ b → Z.min 30000 (1000 * 2 ^ (a - 1)) ≤ Z.min 30000 (1000 * 2 ^ (b - 1)).
Proof.
  intros Ha Hab. apply Z.min_le_compat_l, Z.mul_le_mono_nonneg_l; [lia|].
  apply Z.pow_le_mono_r; lia.
Qed.

(** C5. For an attempt number [a >= 1] and a retryable error that is not a
    [RateLimitError] (so carries no retry-after hint), with [Math.random()]
    returning [r] in [0, 1): the pre-jitter delay of the code is
    [d = min(30000, 1000 * 2^(a-1))]; the delay returned is
    [Math.round(d + j)] for a jitter [0 <= j <= 0.3 * d]; it is never below
    [d]; and [d] is at most 30000 and non-decreasing in the attempt. *)
Theorem getRetryDelay_exponential_backoff (r : Q) (a : Z) (e : jsError) :
  1 ≤ a →
  isRetryable e = true →
  instanceof e CRateLimitError = false →
  (0 <= r)%Q → (r < 1)%Q →
  let d := Z.min 30000 (1000 * 2 ^ (a - 1)) in
  (exponentialDelay a == inject_Z d)%Q
  ∧ (∃ j : Q, (0 <= j)%Q ∧ (j <= (3 # 10) * inject_Z d)%Q
              ∧ getRetryDelay r a e = Math_round (inject_Z d + j))
  ∧ d ≤ getRetryDelay r a e
  ∧ d ≤ 30000
  ∧ (∀ b, a ≤ b → d ≤ Z.min 30000 (1000 * 2 ^ (b - 1))).
Proof.
  intros Ha _ Hrl Hr0 Hr1 d.
  assert (Hd : (exponentialDelay a == inject_Z d)%Q).
  { rewrite exponentialDelay_Z by done. unfold d. by rewrite Z.min_comm. }
  assert (Hd0 : (0 <= inject_Z d)%Q).
  { rewrite <- Hd. by apply exponentialDelay_nonneg. }
  assert (Hj0 : (0 <= r * (3 # 10) * inject_Z d)%Q).
  { apply Qmult_le_0_compat; [|done]. by apply Qmult_le_0_compat. }
  assert (Hval : getRetryDelay r a e
                 = Math_round (inject_Z d + r * (3 # 10) * inject_Z d)).
  { destruct e; try discriminate Hrl; cbn [getRetryDelay];
      apply Math_round_proper; by rewrite Hd. }
  split; [done|]. split; [|split; [|split]].
  - exists (r * (3 # 10) * inject_Z d)%Q. split; [done|]. split; [|done].
    rewrite <- (Qmult_1_l ((3 # 10) * inject_Z d)), <- Qmult_assoc.
    apply Qmult_le_compat_r; [by apply Qlt_le_weak|].
    by apply Qmult_le_0_compat.
  - rewrite Hval. apply Math_round_lower.
    rewrite <- (Qplus_0_r (inject_Z d)) at 1. by apply Qplus_le_r.
  - unfold d. lia.
  - intros b Hb. by apply backoff_Z_mono.
Qed.

(** The statement of C5 at attempt 3 with jitter fraction one half. *)
Lemma getRetryDelay_exponential_backoff_witness :
  getRetryDelay (1 # 2) 3 (EExternalService "Ghost API" "timeout") = 4600
  ∧ 4000 ≤ getRetryDelay (1 # 2) 3 (EExternalService "Ghost API" "timeout").
Proof.
  split; [reflexivity|].
  apply (getRetryDelay_exponential_backoff (1 # 2) 3
           (EExternalService "Ghost API" "timeout"));
    [lia | reflexivity | reflexivity | discriminate | reflexivity].
Defined.

End BackoffFacts.

(** ** Circuit breaker *)

Module BreakerFacts.
Import Errors Host Breaker.

Section Facts.
Context {S V : Type}.
Variable clock : nat → Z.
Implicit Types (this : CircuitBreaker) (fn : S → Outcome V * S) (rt : Runtime S).

Lemma execute_open_rejects this fn rt :
  state this = OPEN →
  clock (nowReads rt) < default 0 (nextAttempt this) →
  execute clock this fn rt = (Throw rejection, this, afterGate rt).
Proof.
  intros Hst Hnow. unfold execute, bind, DateNow, ret.
  rewrite bool_decide_eq_true_2 by done.
  by rewrite bool_decide_eq_true_2 by done.
Qed.

(** A failed call through a breaker that is not open, below the
    threshold: the failure is counted and the state stays. *)
Lemma execute_failure_below this fn rt :
  state this ≠ OPEN →
  isThrow (fn (user rt)).1 = true →
  failureCount this + 1 < failureThreshold this →
  execute clock this fn rt =
    ((fn (user rt)).1,
     {| failureThreshold := failureThreshold this;
        resetTimeout := resetTimeout this;
        monitoringPeriod := monitoringPeriod this;
        state := state this;
        failureCount := failureCount this + 1;
        lastFailureTime := Some (clock (nowReads rt));
        nextAttempt := nextAttempt this |},
     mkRuntime (fn (user rt)).2 (Datatypes.S (nowReads rt)) (randomReads rt)
       (events rt ++ [Invoked])).
Proof.
  intros Hst Hthrow Hlt. unfold execute, attempt, call, bind.
  rewrite bool_decide_eq_false_2 by done.
  destruct (fn (user rt)) as [o s'] eqn:Hfn. cbn [fst snd] in *.
  destruct o; [discriminate| |];
    unfold onFailure, bind, DateNow, ret; cbn;
    by rewrite bool_decide_eq_false_2 by lia.
Qed.

(** A failed call that reaches the threshold opens the breaker. *)
Lemma execute_failure_trips this fn rt :
  state this ≠ OPEN →
  isThrow (fn (user rt)).1 = true →
  failureThreshold this ≤ failureCount this + 1 →
  execute clock this fn rt =
    ((fn (user rt)).1,
     {| failureThreshold := failureThreshold this;
        resetTimeout := resetTimeout this;
        monitoringPeriod := monitoringPeriod this;
        state := OPEN;
        failureCount := failureCount this + 1;
        lastFailureTime := Some (clock (nowReads rt));
        nextAttempt := Some (clock (Datatypes.S (nowReads rt)) + resetTimeout this) |},
     mkRuntime (fn (user rt)).2 (Datatypes.S (Datatypes.S (nowReads rt)))
       (randomReads rt) (events rt ++ [Invoked])).
Proof.
  intros Hst Hthrow Hge. unfold execute, attempt, call, bind.
  rewrite bool_decide_eq_false_2 by done.
  destruct (fn (user rt)) as [o s'] eqn:Hfn. cbn [fst snd] in *.
  destruct o; [discriminate| |];
    unfold onFailure, bind, DateNow, ret; cbn;
    by rewrite bool_decide_eq_true_2 by lia.
Qed.

Lemma invocations_invoked (s : S) (n k : nat) (evs : list Event) :
  invocations (mkRuntime s n k (evs ++ [Invoked]))
  = Datatypes.S (invocations (mkRuntime s n k evs)).
Proof.
  unfold invocations. cbn [events].
  rewrite filter_app, length_app.
  rewrite filter_cons_True by done. rewrite filter_nil. cbn. lia.
Qed.

(** C2. A breaker built with [failureThreshold = 3] starts CLOSED; after
    three consecutive calls whose wrapped function fails, it is OPEN with
    [nextAttempt] set to the clock plus [resetTimeout], the wrapped
    functions having run three times. A call that finds a breaker OPEN
    before [nextAttempt] throws, leaves the breaker as it is and does not
    invoke the wrapped function; so does the call that follows the three
    failures, if the clock is still before [nextAttempt]. *)
Theorem breaker_opens_at_threshold (opts : Options)
    (f1 f2 f3 : S → Outcome V * S) rt :
  opt_failureThreshold opts = Some 3 →
  let r1 := execute clock (new opts) f1 rt in
  let r2 := execute clock r1.1.2 f2 r1.2 in
  let r3 := execute clock r2.1.2 f3 r2.2 in
  isThrow (f1 (user rt)).1 = true →
  isThrow (f2 (user r1.2)).1 = true →
  isThrow (f3 (user r2.2)).1 = true →
  (state (new opts) = CLOSED
   ∧ state r3.1.2 = OPEN
   ∧ nextAttempt r3.1.2
     = Some (clock (nowReads rt + 3)%nat + resetTimeout (new opts))
   ∧ invocations r3.2 = (invocations rt + 3)%nat)
  ∧ (∀ this fn rt',
       state this = OPEN →
       clock (nowReads rt') < default 0 (nextAttempt this) →
       let r := execute clock this fn rt' in
       isThrow r.1.1 = true ∧ r.1.2 = this
       ∧ user r.2 = user rt' ∧ events r.2 = events rt')
  ∧ (∀ fn,
       clock (nowReads r3.2) < clock (nowReads rt + 3)%nat + resetTimeout (new opts) →
       let r := execute clock r3.1.2 fn r3.2 in
       r.1.1 = Throw rejection ∧ state r.1.2 = OPEN
       ∧ invocations r.2 = invocations r3.2).
Proof.
  intros Hthr r1 r2 r3 H1 H2 H3.
  assert (Hthr' : failureThreshold (new opts) = 3).
  { unfold new. cbn [failureThreshold]. by rewrite Hthr. }
  assert (Hcnt : failureCount (new opts) = 0) by reflexivity.
  assert (Hst : state (new opts) = CLOSED) by reflexivity.
  assert (E1 : r1 = _) by
    (apply execute_failure_below; [cbn [state]; by rewrite ?Hst | done
      | cbn [failureThreshold failureCount]; rewrite ?Hthr', ?Hcnt; lia]).
  clearbody r1. subst r1. cbn [fst snd user] in *.
  assert (E2 : r2 = _) by
    (apply execute_failure_below; [cbn [state]; by rewrite ?Hst | done
      | cbn [failureThreshold failureCount]; rewrite ?Hthr', ?Hcnt; lia]).
  clearbody r2. subst r2. cbn [fst snd user] in *.
  assert (E3 : r3 = _) by
    (apply execute_failure_trips; [cbn [state]; by rewrite ?Hst | done
      | cbn [failureThreshold failureCount]; rewrite ?Hthr', ?Hcnt; lia]).
  clearbody r3. subst r3. clear H1 H2 H3.
  cbn [fst snd state nextAttempt nowReads resetTimeout failureCount
       failureThreshold monitoringPeriod lastFailureTime user randomReads
       events].
  replace (Datatypes.S (Datatypes.S (Datatypes.S (nowReads rt))))
    with (nowReads rt + 3)%nat by lia.
  split; [|split].
  - split; [done|]. split; [done|]. split; [done|].
    rewrite !invocations_invoked. destruct rt; cbn. lia.
  - intros this fn rt' Hopen Hnow. cbv zeta.
    by rewrite execute_open_rejects.
  - intros fn Hnow. cbv zeta.
    by rewrite execute_open_rejects.
Qed.
End Facts.

(** C2 on a clock that advances one millisecond per read and a wrapped
    function that always fails. *)
Lemma breaker_opens_at_threshold_witness :
  let clock := λ k : nat, 1000 + Z.of_nat k in
  let fn := λ s : nat, (@Throw unit (fromGhostError (Some 503) "down" "posts.browse"), Datatypes.S s) in
  let opts := mkOptions (Some 3) None None in
  let r1 := execute clock (new opts) fn (start 0%nat) in
  let r2 := execute clock r1.1.2 fn r1.2 in
  let r3 := execute clock r2.1.2 fn r2.2 in
  state r3.1.2 = OPEN ∧ nextAttempt r3.1.2 = Some 61003 ∧ invocations r3.2 = 3%nat.
Proof.
  intros clock fn opts r1 r2 r3.
  destruct (breaker_opens_at_threshold clock opts fn fn fn (start 0%nat))
    as [(_ & Hst & Hnext & Hinv) _];
    [reflexivity | reflexivity | reflexivity | reflexivity |].
  split; [exact Hst|]. split; [exact Hnext | exact Hinv].
Defined.

Lemma serverClassFailure_code (upstream : jsError) :
  serverClassFailure upstream →
  code upstream = Some "EXTERNAL_SERVICE_ERROR" ∧ classOf upstream = CGhostAPIError
  ∧ message upstream = "External service error: Ghost API".
Proof.
  intros (st & msg & op & Hst & ->). unfold fromGhostError. cbn.
  repeat case_bool_decide; simplify_eq; try lia. done.
Qed.

(** C1 as stated does not hold: the error of an open breaker has the same
    machine-readable code as an upstream failure of the server class. *)
Lemma open_rejection_kind_not_distinct :
  ¬ (∀ (clock : nat → Z) (this : CircuitBreaker)
       (fn : unit → Outcome unit * unit) (rt : Runtime unit) (upstream e : jsError),
       state this = OPEN →
       clock (nowReads rt) < default 0 (nextAttempt this) →
       serverClassFailure upstream →
       (execute clock this fn rt).1.1 = Throw e →
       code e ≠ code upstream).
Proof.
  intros Hclaim.
  apply (Hclaim (λ _, 0) (mkBreaker 5 60000 10000 OPEN 5 (Some 0) (Some 60000))
           (λ s, (Return tt, s)) (start tt)
           (fromGhostError (Some 503) "Service Unavailable" "posts.browse")
           rejection); try reflexivity.
  exists 503, "Service Unavailable", "posts.browse". split; [lia | reflexivity].
Qed.

(** C1, amended. A call turned away by an open breaker throws the fixed
    [ExternalServiceError] for the service "Circuit breaker is OPEN",
    whatever the wrapped function and the earlier failures were; its code
    is EXTERNAL_SERVICE_ERROR, its status 502, and it counts as retryable.
    An upstream failure of the server class has the same code and is an
    [ExternalServiceError] as well; the two differ in class name and
    message only. *)
Theorem open_rejection_is_external_service_error {S V : Type}
    (clock : nat → Z) (this : CircuitBreaker) (fn : S → Outcome V * S)
    (rt : Runtime S) :
  state this = OPEN →
  clock (nowReads rt) < default 0 (nextAttempt this) →
  (execute clock this fn rt).1.1 = Throw rejection
  ∧ classOf rejection = CExternalServiceError
  ∧ code rejection = Some "EXTERNAL_SERVICE_ERROR"
  ∧ statusCode rejection = Some 502
  ∧ message rejection = "External service error: Circuit breaker is OPEN"
  ∧ isRetryable rejection = true
  ∧ (∀ upstream, serverClassFailure upstream →
       code upstream = code rejection
       ∧ instanceof upstream CExternalServiceError
         = instanceof rejection CExternalServiceError
       ∧ classOf upstream ≠ classOf rejection
       ∧ message upstream ≠ message rejection).
Proof.
  intros Hopen Hnow. rewrite execute_open_rejects by done.
  repeat (split; [reflexivity|]).
  intros upstream (Hcode & Hcls & Hmsg)%serverClassFailure_code.
  unfold instanceof. rewrite Hcode, Hcls, Hmsg. done.
Qed.

Lemma open_rejection_is_external_service_error_witness :
  (execute (λ _, 0) (mkBreaker 5 60000 10000 OPEN 5 (Some 0) (Some 60000))
     (λ s : unit, (Return tt, s)) (start tt)).1.1 = Throw rejection.
Proof.
  apply (open_rejection_is_external_service_error (λ _, 0)
           (mkBreaker 5 60000 10000 OPEN 5 (Some 0) (Some 60000))
           (λ s : unit, (Return tt, s)) (start tt)); [reflexivity | reflexivity].
Defined.

End BreakerFacts.

(** ** Retry with backoff *)

Module RetryFacts.
Import Errors Host Retry.

Section Facts.
Context {S V : Type}.
Variable rnd : nat → Q.
Variable fn : S → Outcome V * S.

Local Abbreviation next := (advance fn).

Lemma invocations_app (rt : Runtime S) (s : S) (n k : nat) (evs : list Event) :
  invocations (mkRuntime s n k (events rt ++ evs))
  = (invocations rt + length (filter (λ ev, ev = Invoked) evs))%nat.
Proof. unfold invocations. cbn [events]. by rewrite filter_app, length_app. Qed.

Lemma getRetryDelayM_runtime (a : Z) (e : jsError) (rt : Runtime S) :
  user (getRetryDelayM rnd a e rt).2 = user rt
  ∧ events (getRetryDelayM rnd a e rt).2 = events rt.
Proof. unfold getRetryDelayM. by destruct (instanceof e CRateLimitError). Qed.

(** One pass through the loop body when the call fails with a retryable
    error and attempts remain: the state of [fn] advances, one call is
    observed, and the loop goes on. *)
Lemma retryLoop_retry (maxAttempts a : Z) (todo : list Z)
    (lastError : option jsError) (e : jsError) (rt : Runtime S) :
  (fn (user rt)).1 = Throw e →
  isRetryable e = true →
  a ≠ maxAttempts →
  ∃ rt', user rt' = next (user rt)
         ∧ invocations rt' = Datatypes.S (invocations rt)
         ∧ retryLoop rnd fn maxAttempts (a :: todo) lastError rt
           = retryLoop rnd fn maxAttempts todo (Some e) rt'.
Proof.
  intros Hfn Hre Hne. cbn [retryLoop]. unfold bind at 1. unfold call at 1.
  unfold advance. destruct (fn (user rt)) as [o s'] eqn:E.
  cbn [fst snd] in *. subst o.
  rewrite bool_decide_eq_false_2 by done. rewrite Hre. cbn [negb orb].
  unfold bind at 1.
  set (rt1 := mkRuntime s' (nowReads rt) (randomReads rt) (events rt ++ [Invoked])).
  destruct (getRetryDelayM_runtime a e rt1) as [Hu Hev].
  destruct (getRetryDelayM rnd a e rt1) as [delay rt2]. cbn [snd] in Hu, Hev.
  unfold bind, sleep, emit. cbn [fst snd user events nowReads randomReads].
  eexists. split; [|split; [|reflexivity]].
  - cbn [user]. by rewrite Hu.
  - rewrite Hev. unfold rt1. cbn [events].
    rewrite <- !app_assoc. rewrite invocations_app.
    cbn [app]. rewrite filter_cons_True by done.
    rewrite !filter_cons_False by done. cbn. lia.
Qed.

(** The last pass: the call fails on the attempt numbered [maxAttempts]
    and its error is thrown on. *)
Lemma retryLoop_last (maxAttempts : Z) (todo : list Z)
    (lastError : option jsError) (e : jsError) (rt : Runtime S) :
  (fn (user rt)).1 = Throw e →
  ∃ rt', user rt' = next (user rt)
         ∧ invocations rt' = Datatypes.S (invocations rt)
         ∧ retryLoop rnd fn maxAttempts (maxAttempts :: todo) lastError rt
           = (Throw e, rt').
Proof.
  intros Hfn. cbn [retryLoop]. unfold bind, call, advance.
  destruct (fn (user rt)) as [o s'] eqn:E. cbn [fst snd] in *. subst o.
  rewrite bool_decide_eq_true_2 by done. cbn [orb]. unfold ret.
  eexists. split; [|split; [|reflexivity]]; [done|].
  rewrite invocations_app. rewrite filter_cons_True by done. cbn. lia.
Qed.

Hypothesis always_fails : ∀ s, ∃ e, (fn s).1 = Throw e ∧ isRetryable e = true.

Lemma retryLoop_exhausts (m k : nat) (lastError : option jsError) (rt : Runtime S) :
  let res := retryLoop rnd fn (Z.of_nat (k + m))
               (map Z.of_nat (seq k (Datatypes.S m))) lastError rt in
  res.1 = (fn (Nat.iter m next (user rt))).1
  ∧ user res.2 = Nat.iter (Datatypes.S m) next (user rt)
  ∧ invocations res.2 = (invocations rt + Datatypes.S m)%nat.
Proof.
  revert k lastError rt. induction m as [|m IH]; intros k lastError rt res.
  - subst res. cbn [seq map]. rewrite Nat.add_0_r.
    destruct (always_fails (user rt)) as (e & He & _).
    destruct (retryLoop_last (Z.of_nat k) [] lastError e rt He)
      as (rt' & Hu & Hinv & ->).
    cbn [fst snd]. change (Nat.iter 0 next (user rt)) with (user rt).
    change (Nat.iter 1 next (user rt)) with (next (user rt)).
    rewrite He, Hu, Hinv. split; [done|]. split; [done | lia].
  - subst res. cbn [seq map].
    destruct (always_fails (user rt)) as (e & He & Hre).
    destruct (retryLoop_retry (Z.of_nat (k + Datatypes.S m)) (Z.of_nat k)
                (map Z.of_nat (seq (Datatypes.S k) (Datatypes.S m)))
                lastError e rt He Hre ltac:(lia))
      as (rt' & Hu & Hinv & Hloop).
    cbn [seq map] in Hloop. rewrite Hloop.
    replace (k + Datatypes.S m)%nat with (Datatypes.S k + m)%nat by lia.
    destruct (IH (Datatypes.S k) (Some e) rt') as (H1 & H2 & H3).
    cbn [seq map] in H1, H2, H3. rewrite H1, H2, H3, Hu, Hinv.
    rewrite !Nat.iter_succ_r. split; [done|]. split; [done | lia].
Qed.

(** C3. Against an operation that fails with a retryable error on every
    invocation, [retryWithBackoff] with [maxAttempts = n >= 1] calls the
    operation exactly [n] times: the state of the operation has advanced
    [n] times and [n] calls were observed. It then ends by throwing, and
    what it throws is what the [n]-th call threw. *)
Theorem retry_calls_maxAttempts_times (n : Z) (rt : Runtime S) :
  1 ≤ n →
  let res := retryWithBackoff rnd fn (Some n) rt in
  invocations res.2 = (invocations rt + Z.to_nat n)%nat
  ∧ user res.2 = Nat.iter (Z.to_nat n) next (user rt)
  ∧ res.1 = (fn (Nat.iter (Z.to_nat n - 1) next (user rt))).1
  ∧ ∃ e, res.1 = Throw e ∧ isRetryable e = true.
Proof.
  intros Hn res. subst res. unfold retryWithBackoff, orDefault, attempts.
  rewrite bool_decide_eq_false_2 by lia.
  destruct (Z.to_nat n) as [|m] eqn:Hm; [lia|].
  assert (n = Z.of_nat (1 + m)) as -> by lia.
  destruct (retryLoop_exhausts m 1 None rt) as (H1 & H2 & H3).
  rewrite H1, H2, H3. replace (Datatypes.S m - 1)%nat with m by lia.
  repeat (split; [done|]).
  destruct (always_fails (Nat.iter m next (user rt))) as (e & He & Hre).
  by exists e.
Qed.
End Facts.

(** C3 on an operation that counts its calls and always answers with a
    rate-limit error, with four attempts. *)
Lemma retry_calls_maxAttempts_times_witness :
  let fn := λ s : nat, (@Throw unit (ERateLimit 2), Datatypes.S s) in
  let res := retryWithBackoff (λ _, 0%Q) fn (Some 4) (start 0%nat) in
  invocations res.2 = 4%nat ∧ user res.2 = 4%nat ∧ res.1 = Throw (ERateLimit 2).
Proof.
  intros fn res.
  destruct (retry_calls_maxAttempts_times (λ _, 0%Q) fn
              ltac:(intros s; exists (ERateLimit 2); split; reflexivity)
              4 (start 0%nat) ltac:(lia))
    as (H1 & H2 & H3 & _).
  split; [exact H1|]. split; [exact H2 | exact H3].
Defined.

End RetryFacts.

(** ** LRU cache *)

Module CacheFacts.
Import Host Cache ResourceCache.

Section Facts.
Context {V : Type}.
Variable RegExp_new : string → option (string → bool).
Implicit Types (c : gmap string (Item V)) (order keys : list string)
  (this : LRUCache V) (key k : string).

Lemma elem_of_without key k order : k ∈ without key order ↔ k ≠ key ∧ k ∈ order.
Proof. unfold without. by rewrite list_elem_of_filter. Qed.

Lemma size_delete_le c key : Z.of_nat (size (delete key c)) ≤ Z.of_nat (size c).
Proof. apply Nat2Z.inj_le, map_subseteq_size, delete_subseteq. Qed.

Lemma covered_delete c order key :
  covered c order → covered (delete key c) (without key order).
Proof.
  intros Hcov k. rewrite dom_delete_L, elem_of_difference, elem_of_singleton.
  intros [Hk Hne]. apply elem_of_without. split; [done | by apply Hcov].
Qed.

(** The eviction loop removes a prefix of the order, one key at a time,
    and stops at the first point where the map is below capacity or the
    order is used up. *)
Lemma evict_prefix (m : Z) c order :
  ∃ n, evict m c order = (deleteAll (take n order) c, drop n order)
       ∧ (∀ j, (j < n)%nat → m ≤ Z.of_nat (size (deleteAll (take j order) c)))
       ∧ (drop n order = [] ∨ Z.of_nat (size (deleteAll (take n order) c)) < m).
Proof.
  revert c. induction order as [|o rest IH]; intros c.
  - exists 0%nat. cbn. split; [done|]. split; [lia | by left].
  - cbn [evict]. case_bool_decide as Hcap.
    + destruct (IH (delete o c)) as (n & Hev & Hmin & Hend).
      exists (Datatypes.S n). cbn [take drop deleteAll foldl].
      split; [done|]. split; [|done].
      intros [|j] Hj; cbn [take deleteAll foldl]; [done|]. apply Hmin. lia.
    + exists 0%nat. cbn. split; [done|]. split; [lia | right; lia].
Qed.

Lemma evict_covered (m : Z) c order :
  covered c order → covered (evict m c order).1 (evict m c order).2.
Proof.
  revert c. induction order as [|o rest IH]; intros c Hcov; [done|].
  cbn [evict]. case_bool_decide; [|done]. apply IH.
  intros k. rewrite dom_delete_L, elem_of_difference, elem_of_singleton.
  intros [Hk Hne]. apply Hcov, elem_of_cons in Hk as [Hk|Hk]; done.
Qed.

Lemma evict_size_le (m : Z) c order : (size (evict m c order).1 ≤ size c)%nat.
Proof.
  revert c. induction order as [|o rest IH]; intros c; [done|].
  cbn [evict]. case_bool_decide; [|done].
  etrans; [apply IH|]. apply map_subseteq_size, delete_subseteq.
Qed.

(** With room for at least one entry, the loop ends below capacity. *)
Lemma evict_below (m : Z) c order :
  1 ≤ m → covered c order → Z.of_nat (size (evict m c order).1) < m.
Proof.
  intros Hm. revert c. induction order as [|o rest IH]; intros c Hcov.
  - cbn. assert (c = ∅) as ->; [|rewrite map_size_empty; lia].
    apply map_empty. intros k. apply not_elem_of_dom. intros Hk.
    specialize (Hcov k Hk). by apply elem_of_nil in Hcov.
  - cbn [evict]. case_bool_decide as Hcap; [|cbn; lia]. apply IH.
    intros k. rewrite dom_delete_L, elem_of_difference, elem_of_singleton.
    intros [Hk Hne]. apply Hcov, elem_of_cons in Hk as [Hk|Hk]; done.
Qed.

Lemma get_bounded (m : Z) (now : Z) key this :
  bounded m this → bounded m (get now key this).2.
Proof.
  intros (Hm & Hcov & Hsz). unfold get.
  destruct (cache this !! key) as [item|] eqn:Hkey; [|done].
  case_bool_decide; cbn [snd]; (split; [done|]); cbn [cache accessOrder]; split.
  - by apply covered_delete.
  - unfold stats_size in *. cbn [cache].
    etrans; [apply size_delete_le | done].
  - intros k Hk. apply Hcov in Hk. rewrite elem_of_app, elem_of_without.
    destruct (decide (k = key)) as [->|]; [right; by apply list_elem_of_singleton | by left].
  - done.
Qed.

Lemma set_bounded (m : Z) (now : Z) key (v : V) (customTTL : option Z) this :
  1 ≤ m → bounded m this → bounded m (set now key v customTTL this).
Proof.
  intros Hpos (Hm & Hcov & Hsz). unfold set.
  pose proof (evict_covered (maxSize this) _ _ Hcov) as Hcov'.
  pose proof (evict_below (maxSize this) _ _ ltac:(lia) Hcov) as Hlt.
  destruct (evict (maxSize this) (cache this) (accessOrder this)) as [c' o'].
  cbn [fst snd] in *. split; [done|]. cbn [cache accessOrder]. split.
  - intros k. rewrite dom_insert_L, elem_of_union, elem_of_singleton, elem_of_app.
    intros [->|Hk]; [right; by apply list_elem_of_singleton | left; by apply Hcov'].
  - unfold stats_size. cbn [cache].
    pose proof (map_size_insert key (mkItem v (now + orDefault customTTL (ttl this))) c') as Hins.
    rewrite Hins. destruct (c' !! key); unfold id; lia.
Qed.

Lemma invalidateKeys_bounded (m : Z) (test : string → bool) keys this :
  bounded m this → bounded m (invalidateKeys test keys this).
Proof.
  revert this. induction keys as [|key keys IH]; intros this Hb; [done|].
  cbn [invalidateKeys]. apply IH. destruct (test key); [|done].
  destruct Hb as (Hm & Hcov & Hsz). split; [done|]. cbn [cache accessOrder]. split.
  - by apply covered_delete.
  - unfold stats_size in *. cbn [cache].
    etrans; [apply size_delete_le | done].
Qed.

Lemma invalidate_bounded (m : Z) (pattern : option string) this :
  0 ≤ m → bounded m this → bounded m (invalidate RegExp_new pattern this).2.
Proof.
  intros Hpos Hb. unfold invalidate.
  assert (Hclear : bounded m (mkCache (V:=V) (maxSize this) (ttl this) ∅ [])).
  { destruct Hb as (Hm & _ & _). split; [done|]. split.
    - intros k. cbn [cache]. by rewrite dom_empty_L.
    - unfold stats_size. cbn [cache]. rewrite map_size_empty. lia. }
  destruct pattern as [[|a p]|]; [done| |done].
  destruct (RegExp_new (String a p)); [|done].
  by apply invalidateKeys_bounded.
Qed.

Lemma run_bounded (m : Z) (ops : list (Op V)) this :
  1 ≤ m → bounded m this → bounded m (run RegExp_new ops this).
Proof.
  intros Hpos. revert this. induction ops as [|op ops IH]; intros this Hb; [done|].
  cbn [run foldl]. apply IH. destruct op as [now key|now key v customTTL|pattern]; cbn [step].
  - by apply get_bounded.
  - by apply set_bounded.
  - apply invalidate_bounded; [lia | done].
Qed.

(** X30. For a capacity [maxSize >= 1], after every sequence of [get],
    [set] and [invalidate] calls on a new cache the number of stored
    entries is at most [maxSize]. In that state a [set] first removes keys
    from the front of the access order, one at a time, for as long as the
    map is at capacity, which leaves it below capacity; only then does it
    insert the entry and append the key to the order. *)
Theorem cache_size_bounded (m : Z) (ttl0 : option Z) (ops : list (Op V)) :
  1 ≤ m →
  let this := run RegExp_new ops (new (Some m) ttl0) in
  stats_size this ≤ m
  ∧ ∀ now key (v : V) customTTL,
      ∃ n,
        let kept := deleteAll (take n (accessOrder this)) (cache this) in
        (∀ j, (j < n)%nat →
           m ≤ Z.of_nat (size (deleteAll (take j (accessOrder this)) (cache this))))
        ∧ Z.of_nat (size kept) < m
        ∧ cache (set now key v customTTL this)
          = <[key := mkItem v (now + orDefault customTTL (ttl this))]> kept
        ∧ accessOrder (set now key v customTTL this)
          = drop n (accessOrder this) ++ [key].
Proof.
  intros Hpos this.
  assert (Hb : bounded m this).
  { apply run_bounded; [done|]. split; [done|]. split.
    - intros k. cbn [new cache]. by rewrite dom_empty_L.
    - unfold stats_size. cbn [new cache]. rewrite map_size_empty. lia. }
  destruct Hb as (Hm & Hcov & Hsz). split; [done|].
  intros now key v customTTL.
  destruct (evict_prefix m (cache this) (accessOrder this)) as (n & Hev & Hmin & _).
  pose proof (evict_below m _ _ Hpos Hcov) as Hlt.
  exists n. cbv zeta. unfold set. rewrite Hm, Hev in *. cbn [fst] in Hlt.
  cbn [cache accessOrder]. done.
Qed.

(** *** The access order as an exact record of the stored keys *)

Lemma orderExact_delete key this :
  orderExact this →
  orderExact (mkCache (maxSize this) (ttl this)
                (delete key (cache this)) (without key (accessOrder this))).
Proof.
  intros [Hnd Hdom]. split; cbn [cache accessOrder].
  - by apply NoDup_filter.
  - intros k. rewrite elem_of_without, dom_delete_L, elem_of_difference,
      elem_of_singleton, Hdom. tauto.
Qed.

(** [get] keeps the invariant: a hit moves the key to the end, an
    expired entry leaves both the map and the order. *)
Lemma get_orderExact (now : Z) key this :
  orderExact this → orderExact (get now key this).2.
Proof.
  intros Hex. unfold get.
  destruct (cache this !! key) as [item|] eqn:Hkey; [|done].
  case_bool_decide; cbn [snd]; [by apply orderExact_delete|].
  destruct Hex as [Hnd Hdom]. split; cbn [cache accessOrder].
  - apply NoDup_app. split; [by apply NoDup_filter|]. split; [|apply NoDup_singleton].
    intros k [Hne _]%elem_of_without ->%list_elem_of_singleton. done.
  - intros k. rewrite elem_of_app, elem_of_without, list_elem_of_singleton, Hdom.
    assert (key ∈ dom (cache this)) by (apply elem_of_dom; eauto).
    destruct (decide (k = key)) as [->|]; tauto.
Qed.

Lemma invalidateKeys_orderExact (test : string → bool) keys this :
  orderExact this → orderExact (invalidateKeys test keys this).
Proof.
  revert this. induction keys as [|key keys IH]; intros this Hex; [done|].
  cbn [invalidateKeys]. apply IH. destruct (test key); [|done].
  by apply orderExact_delete.
Qed.

(** [invalidate] keeps the invariant. *)
Lemma invalidate_orderExact (pattern : option string) this :
  orderExact this → orderExact (invalidate RegExp_new pattern this).2.
Proof.
  intros Hex. unfold invalidate.
  assert (Hclear : orderExact (mkCache (V:=V) (maxSize this) (ttl this) ∅ [])).
  { split; cbn [cache accessOrder]; [apply NoDup_nil_2|].
    intros k. rewrite dom_empty_L. set_solver. }
  destruct pattern as [[|a p]|]; [done| |done].
  destruct (RegExp_new (String a p)); [|done].
  by apply invalidateKeys_orderExact.
Qed.

Lemma evict_orderExact (m : Z) c order :
  NoDup order → (∀ k, k ∈ order ↔ k ∈ dom c) →
  NoDup (evict m c order).2
  ∧ ∀ k, k ∈ (evict m c order).2 ↔ k ∈ dom (evict m c order).1.
Proof.
  revert c. induction order as [|o rest IH]; intros c Hnd Hdom; [done|].
  cbn [evict]. case_bool_decide; [|done].
  apply NoDup_cons in Hnd as [Ho Hnd]. apply IH; [done|].
  intros k. rewrite dom_delete_L, elem_of_difference, elem_of_singleton, <- Hdom.
  rewrite elem_of_cons. split; [|tauto].
  intros Hk. split; [by right|]. by intros ->.
Qed.

(** [set] keeps the invariant when the key is not stored once the
    eviction loop is over. *)
Lemma set_orderExact_absent (now : Z) key (v : V) (customTTL : option Z) this :
  orderExact this →
  (evict (maxSize this) (cache this) (accessOrder this)).1 !! key = None →
  orderExact (set now key v customTTL this).
Proof.
  intros [Hnd Hdom] Habs. unfold set.
  destruct (evict_orderExact (maxSize this) _ _ Hnd Hdom) as [Hnd' Hdom'].
  destruct (evict (maxSize this) (cache this) (accessOrder this)) as [c' o'].
  cbn [fst snd] in *. apply not_elem_of_dom in Habs.
  split; cbn [cache accessOrder].
  - apply NoDup_app. split; [done|]. split; [|apply NoDup_singleton].
    intros k Hk ->%list_elem_of_singleton. by apply Habs, Hdom'.
  - intros k. rewrite elem_of_app, list_elem_of_singleton, dom_insert_L,
      elem_of_union, elem_of_singleton, Hdom'. tauto.
Qed.
End Facts.

(** C6 at a [set] of a key that is stored: the key is appended to the access
    order a second time, so the order no longer lists each stored key once.
    With capacity 3, after [set a; set b; set a; set c] the next [set d]
    takes the front of the order, [a], for the least recently used key and
    drops it, although [b] is the older one; the second [a] stays in the
    order without being stored. *)
Lemma set_present_key_duplicates_order :
  let this := run (λ _, None) [OpSet 0 "a" 1%nat None; OpSet 1 "a" 2%nat None]
                (new (Some 3) None) in
  let later := run (λ _, None)
                 [OpSet 0 "a" 1%nat None; OpSet 1 "b" 2%nat None;
                  OpSet 2 "a" 3%nat None; OpSet 3 "c" 4%nat None;
                  OpSet 4 "d" 5%nat None]
                 (new (Some 3) None) in
  accessOrder this = ["a"; "a"]
  ∧ dom (cache this) = {["a"]}
  ∧ ¬ orderExact this
  ∧ accessOrder later = ["b"; "a"; "c"; "d"]
  ∧ dom (cache later) = {["b"; "c"; "d"]}
  ∧ ¬ orderExact later.
Proof.
  intros this later.
  assert (H1 : accessOrder this = ["a"; "a"]) by (vm_compute; reflexivity).
  assert (H2 : accessOrder later = ["b"; "a"; "c"; "d"]) by (vm_compute; reflexivity).
  assert (H3 : dom (cache later) = {["b"; "c"; "d"]}) by (vm_compute; reflexivity).
  split; [done|]. split; [vm_compute; reflexivity|]. split; [|split; [done|split; [done|]]].
  - intros [Hnd _]. rewrite H1 in Hnd. apply NoDup_cons in Hnd as [Hin _].
    apply Hin. by left.
  - intros [_ Hdom]. specialize (Hdom "a"). rewrite H2, H3 in Hdom.
    assert (Hin : "a" ∈ ["b"; "a"; "c"; "d"]) by (right; left).
    apply Hdom in Hin. clear -Hin. set_unfold in Hin. intuition discriminate.
Qed.

(** C4. The cache of the resource manager, [new LRUCache(100, 300000)],
    never holds more than 100 entries, whatever is done with it. But the
    entry that a [set] removes to make room is the one whose key is at the
    front of the access order, and that need not be the least recently
    used one. After [set] of post 0, of post 1, of post 0 again and of
    posts 2 to 99, one call per clock reading, the cache is full; post 1,
    written at reading 1, is the entry used longest ago, every other entry
    having been written later (post 0 at reading 2). The [set] of post 100
    then removes post 0 and keeps post 1. *)
Theorem set_evicts_entry_that_is_not_least_recently_used :
  (∀ (RegExp_new : string → option (string → bool)) (ops : list (Op nat)),
     stats_size (run RegExp_new ops managerCache) ≤ 100)
  ∧ let full := run (λ _, None) (setPosts ([0; 1; 0] ++ seq 2 98))%nat managerCache in
    let after := set 101 (postKey 100) 100%nat None full in
    stats_size full = 100
    ∧ cache full !! postKey 0 = Some (mkItem 0%nat 300002)
    ∧ cache full !! postKey 1 = Some (mkItem 1%nat 300001)
    ∧ map_Forall (λ key item, key = postKey 1 ∨ 300001 < expiry item) (cache full)
    ∧ head (accessOrder full) = Some (postKey 0)
    ∧ cache after !! postKey 0 = None
    ∧ cache after !! postKey 1 = Some (mkItem 1%nat 300001)
    ∧ cache after !! postKey 100 = Some (mkItem 100%nat 300101)
    ∧ stats_size after = 100.
Proof.
  split.
  - intros RegExp_new ops.
    apply (run_bounded RegExp_new 100 ops managerCache); [lia|].
    split; [done|]. split.
    + intros k. cbn [managerCache new cache]. by rewrite dom_empty_L.
    + unfold stats_size. cbn [managerCache new cache]. rewrite map_size_empty. lia.
  - intros full after.
    assert (Hold : map_Forall (λ key item, key = postKey 1 ∨ 300001 < expiry item)
                     (cache full)).
    { apply map_Forall_to_list.
      assert (Hb : forallb (λ p : string * Item nat,
                              bool_decide (p.1 = postKey 1)
                              || bool_decide (300001 < expiry p.2))
                     (map_to_list (cache full)) = true)
        by (vm_compute; reflexivity).
      apply Forall_forall. intros [key item] Hin.
      rewrite forallb_forall in Hb. apply list_elem_of_In, Hb in Hin.
      apply orb_true_iff in Hin as [Hin|Hin]; apply bool_decide_eq_true in Hin;
        [by left | by right]. }
    split; [vm_compute; reflexivity|].
    split; [vm_compute; reflexivity|].
    split; [vm_compute; reflexivity|].
    split; [exact Hold|].
    split; [vm_compute; reflexivity|].
    split; [vm_compute; reflexivity|].
    split; [vm_compute; reflexivity|].
    split; vm_compute; reflexivity.
Qed.

(** The bound needs a capacity of at least 1: the loop of [set] stops on
    an empty access order, so a cache built with capacity 0 holds one entry
    after a [set]. *)
Lemma zero_capacity_holds_one_entry :
  stats_size (set 0 "a" 1%nat None (new (Some 0) None)) = 1.
Proof. vm_compute. reflexivity. Qed.

(** A cache of capacity 2 after three insertions. *)
Lemma cache_size_bounded_witness :
  stats_size
    (run (λ _, None) [OpSet 0 "a" 1%nat None; OpSet 1 "b" 2%nat None; OpSet 2 "c" 3%nat None]
       (new (Some 2) None)) ≤ 2.
Proof.
  apply (cache_size_bounded (λ _, None) 2 None
           [OpSet 0 "a" 1%nat None; OpSet 1 "b" 2%nat None; OpSet 2 "c" 3%nat None]).
  lia.
Defined.

End CacheFacts.

(** ** Query parameters of a collection fetch *)

Module FetcherFacts.
Import Fetcher.

(** Without query parameters the options are the defaults. *)
Lemma postsOptions_defaults :
  postsOptions ∅ = mkPostsOptions 15 1 "tags,authors" None "published_at desc".
Proof. reflexivity. Qed.

Lemma postsOptions_no_status (query : gmap string string) :
  query !! "status" = None →
  postsOptions query
  = mkPostsOptions
      (Host.orDefault (parseInt (query !! "limit")) 15)
      (Host.orDefault (parseInt (query !! "page")) 1)
      (strOr (query !! "include") "tags,authors")
      (query !! "filter")
      (strOr (query !! "order") "published_at desc").
Proof. intros Hst. unfold postsOptions. by rewrite Hst. Qed.

(** A status that is given (and not empty) is joined to the filter with
    [+], the AND of the filter language, or becomes the filter when there
    is none; the other options are as without it. *)
Lemma postsOptions_status (query : gmap string string) (status : string) :
  query !! "status" = Some status → status ≠ "" →
  filter (postsOptions query)
  = match query !! "filter" with
    | None | Some "" => Some ("status:" +:+ status)
    | Some f => Some (f +:+ "+status:" +:+ status)
    end
  ∧ limit (postsOptions query) = Host.orDefault (parseInt (query !! "limit")) 15
  ∧ page (postsOptions query) = Host.orDefault (parseInt (query !! "page")) 1
  ∧ include (postsOptions query) = strOr (query !! "include") "tags,authors"
  ∧ order (postsOptions query) = strOr (query !! "order") "published_at desc".
Proof.
  intros Hst Hne. unfold postsOptions. rewrite Hst.
  destruct status as [|a s]; [done|]. cbn [truthy default].
  cbn [limit page include filter order].
  by destruct (query !! "filter") as [[|b f]|].
Qed.

(** C9 at the query [status=all]: the code makes [status:all] part of the
    upstream filter, alone or joined to the filter that is given. *)
Lemma postsOptions_status_all_is_folded :
  filter (postsOptions {["status" := "all"]}) = Some "status:all"
  ∧ filter (postsOptions (<["filter" := "tag:news"]> {["status" := "all"]}))
    = Some "tag:news+status:all"
  ∧ filter (postsOptions {["status" := "published"]}) = Some "status:published"
  ∧ limit (postsOptions {["status" := "all"]}) = 15
  ∧ page (postsOptions {["status" := "all"]}) = 1.
Proof. repeat split; vm_compute; reflexivity. Qed.

End FetcherFacts.

(** ** Subscription manager *)

Module SubscriptionFacts.
Import Errors Host Subscriptions.

(** C8 as stated does not hold: a requested interval of 1000 ms is the
    interval of the timer, not 5000 ms. *)
Lemma polling_interval_not_floored :
  ¬ (∀ (m : Manager) (sid u : string) (opts : Options),
       enablePolling opts = true →
       timers (subscribe sid u opts m).2 !! nextTimer m
       = Some (mkTimer (length (heap m)) (flooredInterval opts))).
Proof.
  intros Hclaim.
  specialize (Hclaim init "sub_1" "ghost/posts" (mkOptions (Some 1000) true) eq_refl).
  vm_compute in Hclaim. discriminate Hclaim.
Qed.

(** C8, amended. A [subscribe] with [enablePolling] set starts one timer,
    registered under the subscription id, for the new subscription object;
    its interval is [options.pollingInterval] when that is given and not 0,
    and 30000 ms otherwise. No lower bound is applied: whatever non-zero
    interval is requested is the interval of the timer. Without
    [enablePolling] no timer is started. *)
Theorem subscribe_polling_interval (m : Manager) (sid u : string)
    (requested : option Z) :
  let polled := (subscribe sid u (mkOptions requested true) m).2 in
  let idle := (subscribe sid u (mkOptions requested false) m).2 in
  timers polled
  = <[nextTimer m :=
        mkTimer (length (heap m))
          match requested with
          | None => 30000
          | Some ms => if bool_decide (ms = 0) then 30000 else ms
          end]> (timers m)
  ∧ pollingIntervals polled !! sid = Some (nextTimer m)
  ∧ subscriptions polled !! sid = Some (length (heap m))
  ∧ timers idle = timers m
  ∧ pollingIntervals idle = pollingIntervals m.
Proof.
  cbv zeta. unfold subscribe. cbn [enablePolling pollingInterval snd].
  unfold startPolling. cbn [subscriptions]. rewrite lookup_insert_eq.
  cbn [pollStart nextTimer timers pollingIntervals subscriptions heap].
  rewrite !lookup_insert_eq. done.
Qed.

Lemma unsubscribe_absent (m : Manager) (sid : string) :
  subscriptions m !! sid = None →
  unsubscribe sid m = (Throw (ENotFound "Subscription" sid), m).
Proof. intros Hnone. unfold unsubscribe. by rewrite Hnone. Qed.

(** C10. [unsubscribe] of an id that is not registered throws the
    [NotFoundError] for "Subscription" and that id, whose code is NOT_FOUND
    and whose message names the id, and changes nothing in the manager.
    After an [unsubscribe] that succeeded the id is not registered, so a
    second [unsubscribe] of it throws the same way. *)
Theorem unsubscribe_unknown_throws (m : Manager) (sid : string) :
  (subscriptions m !! sid = None →
     unsubscribe sid m = (Throw (ENotFound "Subscription" sid), m))
  ∧ code (ENotFound "Subscription" sid) = Some "NOT_FOUND"
  ∧ statusCode (ENotFound "Subscription" sid) = Some 404
  ∧ message (ENotFound "Subscription" sid) = "Subscription not found: " +:+ sid
  ∧ (is_Some (subscriptions m !! sid) →
       let m' := (unsubscribe sid m).2 in
       (unsubscribe sid m).1 = Return tt
       ∧ subscriptions m' !! sid = None
       ∧ unsubscribe sid m' = (Throw (ENotFound "Subscription" sid), m')).
Proof.
  split; [|split; [done|split; [done|split; [done|]]]].
  - apply unsubscribe_absent.
  - intros [a Ha]. cbv zeta.
    assert (Hgone : subscriptions (unsubscribe sid m).2 !! sid = None).
    { unfold unsubscribe. rewrite Ha. cbn [snd subscriptions].
      apply lookup_delete_eq. }
    split; [|split; [done|]].
    + unfold unsubscribe. by rewrite Ha.
    + by apply unsubscribe_absent.
Qed.

Lemma unsubscribe_unknown_throws_witness :
  let m := (subscribe "sub_1" "ghost/posts" (mkOptions None true) init).2 in
  unsubscribe "sub_2" m = (Throw (ENotFound "Subscription" "sub_2"), m)
  ∧ unsubscribe "sub_1" (unsubscribe "sub_1" m).2
    = (Throw (ENotFound "Subscription" "sub_1"), (unsubscribe "sub_1" m).2).
Proof.
  intros m. split.
  - destruct (unsubscribe_unknown_throws m "sub_2") as [Habsent _].
    apply Habsent. vm_compute. reflexivity.
  - destruct (unsubscribe_unknown_throws m "sub_1") as (_ & _ & _ & _ & Htwice).
    apply Htwice. exists 0%nat. vm_compute. reflexivity.
Defined.

(** *** Callbacks after [unsubscribe] *)

Lemma callbacks_deliver (a b : nat) (ev : CallbackEvent) (m : Manager) :
  callbacks a (deliver b ev m)
  = (callbacks a m + if decide (b = a) then 1 else 0)%nat.
Proof.
  unfold callbacks, deliver. cbn [delivered].
  rewrite filter_app, length_app. f_equal.
  destruct (decide (b = a)) as [Hba|Hba].
  - by rewrite filter_cons_True.
  - by rewrite filter_cons_False.
Qed.

Lemma inFlight_pollStart (a b : nat) (m : Manager) :
  inFlight a (pollStart b m)
  = (inFlight a m + if decide (b = a) then 1 else 0)%nat.
Proof.
  unfold inFlight, pollStart. cbn [pending].
  rewrite filter_app, length_app. f_equal.
  destruct (decide (b = a)) as [Hba|Hba].
  - by rewrite filter_cons_True.
  - by rewrite filter_cons_False.
Qed.

(** Taking the [k]-th poll out of the list of polls in flight. *)
Lemma count_delete (a b k : nat) (l : list nat) :
  l !! k = Some b →
  length (filter (λ x, x = a) l)
  = (length (filter (λ x, x = a) (delete k l)) + if decide (b = a) then 1 else 0)%nat.
Proof.
  revert k. induction l as [|x l IH]; intros k Hk; [done|].
  destruct k as [|k]; cbn in Hk.
  - simplify_eq. cbn [delete list_delete].
    destruct (decide (b = a)) as [Hba|Hba].
    + rewrite filter_cons_True by done. cbn. lia.
    + rewrite filter_cons_False by done. lia.
  - change (delete (Datatypes.S k) (x :: l)) with (x :: delete k l).
    specialize (IH k Hk).
    destruct (decide (x = a)) as [Hxa|Hxa].
    + rewrite !filter_cons_True by done. cbn [length]. lia.
    + rewrite !filter_cons_False by done. lia.
Qed.

Lemma sameRegistry_refl (m : Manager) : sameRegistry m m.
Proof. by repeat split. Qed.

Lemma sameRegistry_trans (m1 m2 m3 : Manager) :
  sameRegistry m1 m2 → sameRegistry m2 m3 → sameRegistry m1 m3.
Proof.
  intros (?&?&?&?&?&?) (?&?&?&?&?&?). repeat split; congruence.
Qed.

Lemma sameRegistry_consistent (m m' : Manager) :
  sameRegistry m m' → consistent m → consistent m'.
Proof.
  intros (Hs & Ho & Hp & Ht & Hn & Hl) (H1 & H2 & H3 & H4).
  unfold consistent. rewrite Hs, Hp, Ht, Hn, Hl. done.
Qed.

Lemma sameRegistry_ordered (m m' : Manager) :
  sameRegistry m m' → registryOrdered m → registryOrdered m'.
Proof.
  intros (Hs & Ho & _) H. unfold registryOrdered. by rewrite Hs, Ho.
Qed.

Lemma sameRegistry_retired (a : nat) (m m' : Manager) :
  sameRegistry m m' → retired a m → retired a m'.
Proof.
  intros (Hs & Ho & Hp & Ht & Hn & Hl) (H1 & H2 & H3).
  unfold retired. rewrite Hs, Ht, Hl. done.
Qed.

Lemma fetchSettles_sameRegistry (k : nat) (result : Outcome string)
    (onUpdate : Outcome unit) (m : Manager) :
  sameRegistry m (fetchSettles k result onUpdate m).
Proof.
  unfold fetchSettles.
  destruct (pending m !! k) as [b|]; [|apply sameRegistry_refl].
  cbn [heap]. destruct (heap m !! b) as [sub|]; [|by repeat split].
  destruct result as [v|e|]; [|by repeat split..].
  case_bool_decide; [|by repeat split].
  destruct onUpdate as [u|e|]; repeat split;
    cbn [pollCatch deliver heap]; by rewrite length_insert.
Qed.

(** A settling fetch turns one poll in flight into at most two callbacks
    for the object that the poll captured: the [update] invocation and,
    when that one throws, the [error] invocation of the [catch] block. When
    the [update] invocation returns there is at most one. *)
Lemma fetchSettles_potential (a k : nat) (result : Outcome string)
    (onUpdate : Outcome unit) (m : Manager) :
  let m' := fetchSettles k result onUpdate m in
  (callbacks a m' + 2 * inFlight a m' ≤ callbacks a m + 2 * inFlight a m)%nat
  ∧ (isThrow onUpdate = false →
     (callbacks a m' + inFlight a m' ≤ callbacks a m + inFlight a m)%nat).
Proof.
  cbv zeta. unfold fetchSettles.
  destruct (pending m !! k) as [b|] eqn:Hk; [|split; [done | intros _; done]].
  pose proof (count_delete a b k (pending m) Hk) as Hcount.
  fold (inFlight a m) in Hcount.
  cbn [heap]. destruct (heap m !! b) as [sub|].
  - destruct result as [v|e|]; [case_bool_decide; [destruct onUpdate as [u|e|]|]| |];
      unfold pollCatch; rewrite ?callbacks_deliver;
      unfold callbacks, inFlight, deliver in *;
      cbn [delivered pending isThrow]; destruct (decide (b = a));
      (split; [lia | intros Hret; (discriminate Hret || lia)]).
  - unfold callbacks, inFlight in *. cbn [delivered pending].
    destruct (decide (b = a)); (split; [lia | intros _; lia]).
Qed.

(** The notification loop touches nothing but the record of invocations,
    and invokes no callback of an object that is not registered under one
    of the keys it visits. *)
Lemma notifyLoop_facts (eventURI data eventType : string)
    (outcomes : nat → Outcome unit) (keys : list string) (m : Manager) :
  let m' := (notifyLoop eventURI data eventType outcomes keys m).2 in
  sameRegistry m m'
  ∧ pending m' = pending m
  ∧ heap m' = heap m
  ∧ ∀ a, (∀ key, key ∈ keys → subscriptions m !! key ≠ Some a) →
         callbacks a m' = callbacks a m.
Proof.
  revert m. induction keys as [|key keys IH]; intros m; cbn [notifyLoop].
  - cbn [snd]. split; [apply sameRegistry_refl|]. done.
  - assert (Hskip :
      let m' := (notifyLoop eventURI data eventType outcomes keys m).2 in
      sameRegistry m m' ∧ pending m' = pending m ∧ heap m' = heap m
      ∧ ∀ a, (∀ key', key' ∈ key :: keys → subscriptions m !! key' ≠ Some a) →
             callbacks a m' = callbacks a m).
    { destruct (IH m) as (H1 & H2 & H3 & H4). split; [done|]. split; [done|].
      split; [done|]. intros a Ha. apply H4. intros key' Hin. apply Ha. by right. }
    destruct (subscriptions m !! key) as [b|] eqn:Hkey; [|exact Hskip].
    destruct (heap m !! b) as [sub|]; [|exact Hskip].
    destruct (matchesSubscription (uri sub) eventURI); [|exact Hskip].
    set (m1 := deliver b (mkEvent eventType eventURI data) m).
    assert (Hm1 : sameRegistry m m1 ∧ pending m1 = pending m ∧ heap m1 = heap m
                  ∧ ∀ a, (∀ key', key' ∈ key :: keys → subscriptions m !! key' ≠ Some a) →
                         callbacks a m1 = callbacks a m).
    { split; [by repeat split|]. split; [done|]. split; [done|].
      intros a Ha. subst m1. rewrite callbacks_deliver.
      destruct (decide (b = a)) as [->|]; [|lia].
      exfalso. apply (Ha key); [by left | done]. }
    destruct (outcomes b) as [u|e|]; cbn [snd]; try exact Hm1.
    destruct Hm1 as (H1 & H2 & H3 & H4).
    destruct (IH m1) as (H1' & H2' & H3' & H4').
    split; [by eapply sameRegistry_trans|]. split; [congruence|].
    split; [congruence|]. intros a Ha. rewrite H4', H4; [done | done |].
    intros key' Hin. apply Ha. by right.
Qed.

Lemma notify_facts (eventURI data eventType : string)
    (outcomes : nat → Outcome unit) (m : Manager) :
  let m' := (notifySubscribers eventURI data eventType outcomes m).2 in
  sameRegistry m m'
  ∧ pending m' = pending m
  ∧ heap m' = heap m
  ∧ ∀ a, (∀ sid, subscriptions m !! sid ≠ Some a) → callbacks a m' = callbacks a m.
Proof.
  destruct (notifyLoop_facts eventURI data eventType outcomes (order m) m)
    as (H1 & H2 & H3 & H4).
  cbv zeta. unfold notifySubscribers. split; [done|]. split; [done|].
  split; [done|]. intros a Ha. apply H4. intros key _. apply Ha.
Qed.

Lemma retired_subscribe (a : nat) (sid u : string) (opts : Options) (m : Manager) :
  retired a m →
  retired a (subscribe sid u opts m).2
  ∧ callbacks a (subscribe sid u opts m).2 = callbacks a m
  ∧ inFlight a (subscribe sid u opts m).2 = inFlight a m.
Proof.
  intros (Hlt & Hreg & Htim).
  assert (Hnew : length (heap m) ≠ a) by lia.
  assert (Hregs : ∀ sid', <[sid := length (heap m)]> (subscriptions m) !! sid' ≠ Some a).
  { intros sid'. destruct (decide (sid = sid')) as [->|Hne].
    - rewrite lookup_insert_eq. congruence.
    - rewrite lookup_insert_ne by done. apply Hreg. }
  unfold subscribe. cbn [snd]. destruct (enablePolling opts).
  - unfold startPolling. cbn [subscriptions]. rewrite lookup_insert_eq.
    cbn [pollStart nextTimer timers pollingIntervals subscriptions heap pending
         delivered order].
    split; [|split].
    + split; [|split]; cbn [heap subscriptions timers].
      * rewrite length_app. lia.
      * done.
      * intros h t. destruct (decide (nextTimer m = h)) as [->|Hne].
        -- rewrite lookup_insert_eq. intros [= <-]. done.
        -- rewrite lookup_insert_ne by done. apply Htim.
    + done.
    + unfold inFlight. cbn [pending]. rewrite filter_app, length_app.
      rewrite filter_cons_False by done. cbn. lia.
  - split; [|done]. split; [|split]; cbn [heap subscriptions timers]; [|done..].
    rewrite length_app. lia.
Qed.

Lemma retired_unsubscribe (a : nat) (sid : string) (m : Manager) :
  retired a m →
  retired a (unsubscribe sid m).2
  ∧ callbacks a (unsubscribe sid m).2 = callbacks a m
  ∧ inFlight a (unsubscribe sid m).2 = inFlight a m.
Proof.
  intros (Hlt & Hreg & Htim). unfold unsubscribe.
  destruct (subscriptions m !! sid) as [b|]; [|done]. cbn [snd].
  unfold stopPolling. destruct (pollingIntervals m !! sid) as [h|];
    unfold retired, callbacks, inFlight;
    cbn [heap subscriptions pollingIntervals timers nextTimer pending delivered];
    (split; [|done]); (split; [done|]); split.
  - intros sid' [_ Hs]%lookup_delete_Some. by apply (Hreg sid').
  - intros h' t [_ Ht]%lookup_delete_Some. by apply (Htim h' t).
  - intros sid' [_ Hs]%lookup_delete_Some. by apply (Hreg sid').
  - done.
Qed.

(** Once an object is retired it stays retired, and no action makes its
    callbacks grow by more than two for each of its polls in flight, nor by
    more than one when the [update] invocation of the action returns. *)
Lemma retired_step (a : nat) (m : Manager) (act : Action) :
  retired a m →
  retired a (step m act)
  ∧ (callbacks a (step m act) + 2 * inFlight a (step m act)
     ≤ callbacks a m + 2 * inFlight a m)%nat
  ∧ (callbacksReturn [act] = true →
     (callbacks a (step m act) + inFlight a (step m act)
      ≤ callbacks a m + inFlight a m)%nat).
Proof.
  intros Hret.
  destruct act as [sid u opts|sid|u data ty outcomes|h|k result onUpdate]; cbn [step].
  - destruct (retired_subscribe a sid u opts m Hret) as (H1 & H2 & H3).
    split; [done|]. split; [lia | intros _; lia].
  - destruct (retired_unsubscribe a sid m Hret) as (H1 & H2 & H3).
    split; [done|]. split; [lia | intros _; lia].
  - destruct (notify_facts u data ty outcomes m) as (Hreg & Hpen & _ & Hcb).
    split; [by eapply sameRegistry_retired|].
    destruct Hret as (_ & Hnot & _). rewrite (Hcb a Hnot).
    unfold inFlight. rewrite Hpen. split; [lia | intros _; lia].
  - unfold timerFires. destruct (timers m !! h) as [t|] eqn:Ht;
      [|split; [done|]; split; [lia | intros _; lia]].
    split; [by apply (sameRegistry_retired a m); [repeat split|]|].
    rewrite inFlight_pollStart.
    destruct Hret as (_ & _ & Htim). specialize (Htim h t Ht).
    destruct (decide (target t = a)); [done|].
    unfold callbacks, pollStart. cbn [delivered]. split; [lia | intros _; lia].
  - destruct (fetchSettles_potential a k result onUpdate m) as [H2 H1].
    split; [eapply sameRegistry_retired; [apply fetchSettles_sameRegistry | done]|].
    split; [done|]. intros Hq. apply H1. cbn in Hq.
    rewrite andb_true_r in Hq. by apply negb_true_iff in Hq.
Qed.

Lemma callbacksReturn_cons (act : Action) (acts : list Action) :
  callbacksReturn (act :: acts) = callbacksReturn [act] && callbacksReturn acts.
Proof. unfold callbacksReturn. cbn [forallb]. by rewrite andb_true_r. Qed.

Lemma retired_run (a : nat) (acts : list Action) (m : Manager) :
  retired a m →
  retired a (run acts m)
  ∧ (callbacks a (run acts m) + 2 * inFlight a (run acts m)
     ≤ callbacks a m + 2 * inFlight a m)%nat
  ∧ (callbacksReturn acts = true →
     (callbacks a (run acts m) + inFlight a (run acts m)
      ≤ callbacks a m + inFlight a m)%nat).
Proof.
  revert m. induction acts as [|act acts IH]; intros m Hret.
  - cbn. split; [done|]. split; [lia | intros _; lia].
  - cbn [run foldl]. destruct (retired_step a m act Hret) as (Hret' & Hle2 & Hle1).
    destruct (IH (step m act) Hret') as (Hret'' & Hle2' & Hle1').
    unfold run in Hle2', Hle1'.
    split; [done|]. split; [lia|]. intros Hq.
    rewrite callbacksReturn_cons in Hq. apply andb_true_iff in Hq as [Hq1 Hq2].
    specialize (Hle1 Hq1). specialize (Hle1' Hq2). lia.
Qed.

Lemma consistent_init : consistent init.
Proof. unfold consistent, init. cbn. by repeat split; intros *; rewrite lookup_empty. Qed.

Lemma consistent_subscribe (sid u : string) (opts : Options) (m : Manager) :
  consistent m → subscriptions m !! sid = None →
  consistent (subscribe sid u opts m).2.
Proof.
  intros (H1 & H2 & H3 & H4) Hfresh.
  set (reg := <[sid := length (heap m)]> (subscriptions m)).
  assert (C1 : ∀ sid' a, reg !! sid' = Some a →
                 (a < length (heap m ++ [mkSubscription sid u "null" opts]))%nat).
  { intros sid' a. rewrite length_app. cbn [length]. unfold reg.
    destruct (decide (sid' = sid)) as [->|Hne].
    - rewrite lookup_insert_eq. intros [= <-]. lia.
    - rewrite lookup_insert_ne by done. intros Hs%H1. lia. }
  assert (C2 : ∀ sid1 sid2 a, reg !! sid1 = Some a → reg !! sid2 = Some a → sid1 = sid2).
  { intros sid1 sid2 a. unfold reg.
    destruct (decide (sid1 = sid)) as [->|Hne1], (decide (sid2 = sid)) as [->|Hne2];
      rewrite ?lookup_insert_eq, ?lookup_insert_ne by done; try done.
    - intros [= <-] Hs%H1. lia.
    - intros Hs%H1 [= <-]. lia.
    - apply H2. }
  assert (C3 : ∀ h t, timers m !! h = Some t →
                 ∃ sid', reg !! sid' = Some (target t)
                         ∧ pollingIntervals m !! sid' = Some h
                         ∧ sid' ≠ sid).
  { intros h t (sid' & Hs & Hp)%H3. exists sid'.
    assert (sid ≠ sid') by congruence.
    unfold reg. by rewrite lookup_insert_ne. }
  unfold subscribe. cbn [snd]. fold reg. destruct (enablePolling opts).
  - unfold startPolling. cbn [subscriptions]. unfold reg at 1. rewrite lookup_insert_eq.
    unfold consistent.
    cbn [pollStart nextTimer timers pollingIntervals subscriptions heap].
    split; [done|]. split; [done|]. split.
    + intros h t. destruct (decide (nextTimer m = h)) as [->|Hne].
      * rewrite lookup_insert_eq. intros [= <-]. exists sid. cbn [target].
        unfold reg. by rewrite !lookup_insert_eq.
      * rewrite lookup_insert_ne by done. intros (sid' & Hs & Hp & Hsid)%C3.
        exists sid'. by rewrite lookup_insert_ne.
    + intros sid' h. destruct (decide (sid' = sid)) as [->|Hne].
      * rewrite lookup_insert_eq. intros [= <-]. lia.
      * rewrite lookup_insert_ne by done. intros Hp%H4. lia.
  - unfold consistent. cbn [nextTimer timers pollingIntervals subscriptions heap].
    split; [done|]. split; [done|]. split; [|done].
    intros h t (sid' & Hs & Hp & _)%C3. by exists sid'.
Qed.

Lemma consistent_unsubscribe (sid : string) (m : Manager) :
  consistent m → consistent (unsubscribe sid m).2.
Proof.
  intros (H1 & H2 & H3 & H4). unfold unsubscribe.
  destruct (subscriptions m !! sid) as [b|] eqn:Hsid; [|done]. cbn [snd].
  unfold stopPolling. destruct (pollingIntervals m !! sid) as [h|] eqn:Hp;
    unfold consistent;
    cbn [heap subscriptions pollingIntervals timers nextTimer].
  - split; [|split; [|split]].
    + intros sid' a [_ Hs]%lookup_delete_Some. by eapply H1.
    + intros sid1 sid2 a [_ Hs1]%lookup_delete_Some [_ Hs2]%lookup_delete_Some.
      by eapply H2.
    + intros h' t [Hne Ht]%lookup_delete_Some.
      destruct (H3 h' t Ht) as (sid' & Hs & Hp').
      assert (sid ≠ sid') by congruence.
      exists sid'. by rewrite !lookup_delete_ne.
    + intros sid' h' [_ Hp']%lookup_delete_Some. by eapply H4.
  - split; [|split; [|split]].
    + intros sid' a [_ Hs]%lookup_delete_Some. by eapply H1.
    + intros sid1 sid2 a [_ Hs1]%lookup_delete_Some [_ Hs2]%lookup_delete_Some.
      by eapply H2.
    + intros h' t Ht. destruct (H3 h' t Ht) as (sid' & Hs & Hp').
      assert (sid ≠ sid') by congruence.
      exists sid'. by rewrite lookup_delete_ne.
    + done.
Qed.

Lemma consistent_run (acts : list Action) (m : Manager) :
  consistent m → admissible m acts = true → consistent (run acts m).
Proof.
  revert m. induction acts as [|act acts IH]; intros m Hcon Hadm; [done|].
  cbn [admissible] in Hadm. apply andb_true_iff in Hadm as [Hfresh Hadm].
  cbn [run foldl]. apply IH; [|done].
  destruct act as [sid u opts|sid|u data ty outcomes|h|k result onUpdate]; cbn [step].
  - apply consistent_subscribe; [done|]. by apply bool_decide_eq_true in Hfresh.
  - by apply consistent_unsubscribe.
  - destruct (notify_facts u data ty outcomes m) as (Hreg & _).
    by eapply sameRegistry_consistent.
  - unfold timerFires. destruct (timers m !! h); [|done].
    by apply (sameRegistry_consistent m); [repeat split|].
  - eapply sameRegistry_consistent; [apply fetchSettles_sameRegistry | done].
Qed.

(** [order] stays the iteration order of [subscriptions]. *)
Lemma ordered_step (m : Manager) (act : Action) :
  registryOrdered m → registryOrdered (step m act).
Proof.
  intros [Hnd Hdom].
  destruct act as [sid u opts|sid|u data ty outcomes|h|k result onUpdate]; cbn [step].
  - assert (Hbase : registryOrdered
              (mkManager (heap m ++ [mkSubscription sid u "null" opts])
                 (<[sid := length (heap m)]> (subscriptions m))
                 (orderAfterSet sid m)
                 (pollingIntervals m) (timers m) (nextTimer m) (pending m)
                 (delivered m))).
    { unfold registryOrdered, orderAfterSet. cbn [order subscriptions].
      destruct (subscriptions m !! sid) as [b|] eqn:Hsid.
      - split; [done|]. intros sid'. rewrite lookup_insert_is_Some, Hdom. split.
        + intros H. destruct (decide (sid = sid')); [by left | by right].
        + intros [<-|[_ H]]; [by rewrite Hsid | done].
      - split.
        + apply NoDup_app. split; [done|]. split; [|apply NoDup_singleton].
          intros x Hx ->%list_elem_of_singleton. apply Hdom in Hx.
          rewrite Hsid in Hx. by destruct Hx.
        + intros sid'. rewrite elem_of_app, list_elem_of_singleton,
            lookup_insert_is_Some, Hdom.
          destruct (decide (sid = sid')) as [->|Hne]; [tauto|].
          split; [intros [H|H]; [by right | congruence]
                 | intros [H|[_ H]]; [congruence | by left]]. }
    unfold subscribe. cbn [snd]. destruct (enablePolling opts); [|done].
    unfold startPolling. cbn [subscriptions]. rewrite lookup_insert_eq.
    exact Hbase.
  - unfold unsubscribe. destruct (subscriptions m !! sid) as [b|] eqn:Hsid; [|done].
    cbn [snd]. unfold stopPolling.
    assert (Hgoal : NoDup (filter (λ key, key ≠ sid) (order m))
                    ∧ ∀ sid', sid' ∈ filter (λ key, key ≠ sid) (order m)
                              ↔ is_Some (delete sid (subscriptions m) !! sid')).
    { split; [by apply NoDup_filter|]. intros sid'.
      rewrite list_elem_of_filter, Hdom. unfold is_Some.
      setoid_rewrite lookup_delete_Some. split.
      - intros [Hne [x Hx]]. exists x. split; [congruence | done].
      - intros (x & Hne & Hx). split; [congruence | by exists x]. }
    by destruct (pollingIntervals m !! sid).
  - eapply sameRegistry_ordered; [apply notify_facts | done].
  - unfold timerFires. destruct (timers m !! h); [|done].
    by apply (sameRegistry_ordered m); [repeat split|].
  - eapply sameRegistry_ordered; [apply fetchSettles_sameRegistry | done].
Qed.

Lemma ordered_run (acts : list Action) (m : Manager) :
  registryOrdered m → registryOrdered (run acts m).
Proof.
  revert m. induction acts as [|act acts IH]; intros m Hord; [done|].
  cbn [run foldl]. by apply IH, ordered_step.
Qed.

Lemma ordered_init : registryOrdered init.
Proof.
  split; [apply NoDup_nil_2|]. intros sid. cbn. rewrite lookup_empty.
  split; [by intros ?%elem_of_nil | by intros [? ?]].
Qed.

(** [unsubscribe] retires the object it removes: the timer recorded for the
    id was the only one polling for it. *)
Lemma unsubscribe_retires (sid : string) (a : nat) (m : Manager) :
  consistent m → subscriptions m !! sid = Some a →
  retired a (unsubscribe sid m).2
  ∧ callbacks a (unsubscribe sid m).2 = callbacks a m
  ∧ inFlight a (unsubscribe sid m).2 = inFlight a m.
Proof.
  intros (H1 & H2 & H3 & H4) Hsid. unfold unsubscribe. rewrite Hsid. cbn [snd].
  assert (Hgone : ∀ sid', delete sid (subscriptions m) !! sid' ≠ Some a).
  { intros sid' [Hne Hs]%lookup_delete_Some. apply Hne. by eapply H2. }
  unfold stopPolling. destruct (pollingIntervals m !! sid) as [h|] eqn:Hp;
    unfold retired, callbacks, inFlight;
    cbn [heap subscriptions pollingIntervals timers nextTimer pending delivered];
    (split; [|done]); (split; [by eapply H1|]); (split; [done|]).
  - intros h' t [Hne Ht]%lookup_delete_Some Ha.
    destruct (H3 h' t Ht) as (sid' & Hs & Hp'). rewrite Ha in Hs.
    assert (sid' = sid) as -> by (by eapply H2). congruence.
  - intros h' t Ht Ha.
    destruct (H3 h' t Ht) as (sid' & Hs & Hp'). rewrite Ha in Hs.
    assert (sid' = sid) as -> by (by eapply H2). congruence.
Qed.

(** C7 as stated does not hold: the first poll of a subscription is in
    flight as soon as [subscribe] returns; when its fetch settles after
    [unsubscribe], the callback of the removed subscription is invoked. *)
Lemma callback_invoked_after_unsubscribe :
  ¬ (∀ (before after : list Action) (sid : string) (a : nat),
       admissible init before = true →
       subscriptions (run before init) !! sid = Some a →
       callbacks a (run after (unsubscribe sid (run before init)).2)
       = callbacks a (unsubscribe sid (run before init)).2).
Proof.
  intros Hclaim.
  specialize (Hclaim [Subscribe "sub_1" "ghost/posts" (mkOptions None true)]
                [FetchSettles 0 (Return "[]") (Return tt)] "sub_1" 0%nat
                eq_refl eq_refl).
  vm_compute in Hclaim. discriminate Hclaim.
Qed.

(** C7, amended. When subscription ids are unique, after [unsubscribe(id)]
    has returned no timer tick, notification or later subscription invokes
    the callback of the removed subscription, and no new poll is started for
    it. The callback can still be invoked by the polls whose fetch was in
    flight when [unsubscribe] was called: at most twice for each of them
    (with the [update] event and, if that invocation throws, once more with
    an [error] event from the [catch] block), and at most once for each
    when the callback returns normally. The number of invocations stays as
    it was at [unsubscribe] when no poll was in flight. *)
Theorem unsubscribe_bounds_callbacks (before after : list Action)
    (sid : string) (a : nat) :
  admissible init before = true →
  subscriptions (run before init) !! sid = Some a →
  let m' := (unsubscribe sid (run before init)).2 in
  callbacks a m' = callbacks a (run before init)
  ∧ (callbacks a (run after m') + 2 * inFlight a (run after m')
     ≤ callbacks a m' + 2 * inFlight a m')%nat
  ∧ (callbacksReturn after = true →
     (callbacks a (run after m') + inFlight a (run after m')
      ≤ callbacks a m' + inFlight a m')%nat)
  ∧ (inFlight a m' = 0%nat → (callbacks a (run after m') ≤ callbacks a m')%nat)
  ∧ (∀ h t, timers (run after m') !! h = Some t → target t ≠ a)
  ∧ (∀ sid', subscriptions (run after m') !! sid' ≠ Some a).
Proof.
  intros Hadm Hsid m'.
  pose proof (consistent_run before init consistent_init Hadm) as Hcon.
  destruct (unsubscribe_retires sid a _ Hcon Hsid) as (Hret & Hcb & _).
  fold m' in Hret, Hcb.
  destruct (retired_run a after m' Hret) as ((_ & Hreg & Htim) & Hle2 & Hle1).
  split; [done|]. split; [done|]. split; [done|]. split; [lia|]. split; done.
Qed.

Lemma unsubscribe_bounds_callbacks_witness :
  let before := [Subscribe "sub_1" "ghost/posts" (mkOptions None true)] in
  let after := [TimerFires 0; Notify "ghost/posts" "[1]" "update" (λ _, Return tt);
                FetchSettles 0 (Return "[1]") (Throw (EError "callback failed" None))] in
  let m' := (unsubscribe "sub_1" (run before init)).2 in
  callbacks 0 m' = 0%nat
  ∧ inFlight 0 m' = 1%nat
  ∧ delivered (run after m')
    = [(0%nat, mkEvent "update" "ghost/posts" "[1]");
       (0%nat, mkEvent "error" "ghost/posts" "callback failed")]
  ∧ (callbacks 0 (run after m') + 2 * inFlight 0 (run after m')
     ≤ callbacks 0 m' + 2 * inFlight 0 m')%nat.
Proof.
  intros before after m'.
  destruct (unsubscribe_bounds_callbacks before after "sub_1" 0%nat)
    as (_ & Hbound & _); [reflexivity | reflexivity |].
  split; [reflexivity|]. split; [reflexivity|]. split; [reflexivity|].
  exact Hbound.
Defined.

End SubscriptionFacts.

(** ** More on retry with backoff *)

Module RetryExtra.
Import Errors Host Retry Runs.

Section Facts.
Context {S V : Type}.
Variable rnd : nat → Q.
Variable fn : S → Outcome V * S.

Lemma invocations_of_events (rt rt' : Runtime S) (evs : list Event) :
  events rt' = events rt ++ evs →
  invocations rt' = (invocations rt + length (filter (λ ev, ev = Invoked) evs))%nat.
Proof. intros He. unfold invocations. by rewrite He, filter_app, length_app. Qed.

Lemma sleeps_of_events (rt rt' : Runtime S) (evs : list Event) :
  events rt' = events rt ++ evs →
  sleeps rt'
  = sleeps rt ++ omap (λ ev, match ev with Slept ms => Some ms | _ => None end) evs.
Proof. intros He. unfold sleeps. by rewrite He, omap_app. Qed.

(** The loop body when the call fails with a retryable error before the
    last attempt: one call, one sleep of the backoff delay, one [onRetry],
    and the loop goes on. *)
Lemma retryLoop_step (maxAttempts a : Z) (todo : list Z)
    (lastError : option jsError) (e : jsError) (rt : Runtime S) :
  (fn (user rt)).1 = Throw e →
  isRetryable e = true →
  a ≠ maxAttempts →
  ∃ rt' d, user rt' = advance fn (user rt)
           ∧ events rt' = events rt ++ [Invoked; Slept d; Retried a e]
           ∧ nowReads rt' = nowReads rt
           ∧ randomReads rt'
             = (if instanceof e CRateLimitError then randomReads rt
                else Datatypes.S (randomReads rt))
           ∧ d = getRetryDelay (rnd (randomReads rt)) a e
           ∧ retryLoop rnd fn maxAttempts (a :: todo) lastError rt
             = retryLoop rnd fn maxAttempts todo (Some e) rt'.
Proof.
  intros Hfn Hre Hne. cbn [retryLoop]. unfold bind at 1. unfold call at 1.
  unfold advance. destruct (fn (user rt)) as [o s'] eqn:E.
  cbn [fst snd] in *. subst o.
  rewrite bool_decide_eq_false_2 by done. rewrite Hre. cbn [negb orb].
  unfold bind at 1. unfold getRetryDelayM.
  destruct (instanceof e CRateLimitError) eqn:Hrl.
  - unfold ret, bind, sleep, emit. cbn [fst snd user events nowReads randomReads].
    exists (mkRuntime s' (nowReads rt) (randomReads rt)
              ((events rt ++ [Invoked]) ++ [Slept (getRetryDelay 0 a e)]
               ++ [Retried a e])),
      (getRetryDelay 0 a e).
    cbn [user events nowReads randomReads]. rewrite <- !app_assoc.
    split; [done|]. split; [done|]. split; [done|]. split; [done|]. split; [|done].
    destruct e; try discriminate Hrl. reflexivity.
  - unfold ret, bind, sleep, emit, MathRandom.
    cbn [fst snd user events nowReads randomReads].
    exists (mkRuntime s' (nowReads rt) (Datatypes.S (randomReads rt))
              ((events rt ++ [Invoked])
               ++ [Slept (getRetryDelay (rnd (randomReads rt)) a e)]
               ++ [Retried a e])),
      (getRetryDelay (rnd (randomReads rt)) a e).
    cbn [user events nowReads randomReads]. rewrite <- !app_assoc. done.
Qed.

(** The loop body when the call ends the loop: it returns, or it throws on
    the last attempt, or it throws an error that is not retryable. *)
Lemma retryLoop_stop (maxAttempts a : Z) (todo : list Z)
    (lastError : option jsError) (rt : Runtime S) :
  match (fn (user rt)).1 with
  | Return _ => True
  | Throw e => a = maxAttempts ∨ isRetryable e = false
  | ThrowUndefined => a = maxAttempts
  end →
  retryLoop rnd fn maxAttempts (a :: todo) lastError rt
  = ((fn (user rt)).1,
     mkRuntime (advance fn (user rt)) (nowReads rt) (randomReads rt)
       (events rt ++ [Invoked])).
Proof.
  intros Hstop. cbn [retryLoop]. unfold bind, call, advance.
  destruct (fn (user rt)) as [o s'] eqn:E. cbn [fst snd] in *.
  destruct o as [v|e|]; [done| |].
  - destruct Hstop as [->|Hnr].
    + by rewrite bool_decide_eq_true_2.
    + rewrite Hnr. cbn [negb]. by rewrite orb_true_r.
  - by rewrite bool_decide_eq_true_2.
Qed.

Lemma retryTrace_cons (r : Retry) (retries : list Retry) :
  retryTrace (r :: retries)
  = [Invoked; Slept (retry_delay r); Retried (retry_attempt r) (retry_error r)]
    ++ retryTrace retries.
Proof. reflexivity. Qed.

Lemma invocations_retryTrace (rt rt' : Runtime S) (retries : list Retry) :
  events rt' = events rt ++ retryTrace retries →
  invocations rt' = (invocations rt + Datatypes.S (length retries))%nat.
Proof.
  intros Hev. rewrite (invocations_of_events rt rt' _ Hev). f_equal. clear Hev.
  induction retries as [|r retries IH]; [done|].
  rewrite retryTrace_cons, filter_app, length_app, IH.
  rewrite filter_cons_True by done. rewrite !filter_cons_False by done. cbn. lia.
Qed.

Lemma sleeps_retryTrace (rt rt' : Runtime S) (retries : list Retry) :
  events rt' = events rt ++ retryTrace retries →
  sleeps rt' = sleeps rt ++ map retry_delay retries.
Proof.
  intros Hev. rewrite (sleeps_of_events rt rt' _ Hev). f_equal. clear Hev.
  induction retries as [|r retries IH]; [done|].
  rewrite retryTrace_cons, omap_app, IH. reflexivity.
Qed.

Lemma afterCalls_0 (s : S) : afterCalls fn 0 s = s.
Proof. reflexivity. Qed.

Lemma afterCalls_1 (s : S) : afterCalls fn 1 s = (fn s).2.
Proof. reflexivity. Qed.

(** The run of the loop over the attempts [k .. k+m], with
    [maxAttempts = k+m], whatever the operation does. The events it adds
    are a call and, for each retry, a sleep, the [onRetry] and the next
    call; each retry follows a call that threw a retryable error; the loop
    ends with the outcome of its last call (or with the [TypeError] of
    reading [error.code] when that call threw [undefined] before the last
    attempt); and it ends before the attempts are used up only when the
    last call returned, threw [undefined], or threw an error that is not
    retryable. *)
Lemma retryLoop_trace (m k : nat) (lastError : option jsError) (rt : Runtime S) :
  let res := retryLoop rnd fn (Z.of_nat (k + m))
               (map Z.of_nat (seq k (Datatypes.S m))) lastError rt in
  ∃ retries : list Retry,
    let last := (fn (afterCalls fn (length retries) (user rt))).1 in
    events res.2 = events rt ++ retryTrace retries
    ∧ (length retries ≤ m)%nat
    ∧ map retry_attempt retries = map Z.of_nat (seq k (length retries))
    ∧ (∀ i r, retries !! i = Some r →
         (fn (afterCalls fn i (user rt))).1 = Throw (retry_error r)
         ∧ isRetryable (retry_error r) = true
         ∧ ∃ q, retry_delay r = getRetryDelay q (retry_attempt r) (retry_error r))
    ∧ user res.2 = afterCalls fn (Datatypes.S (length retries)) (user rt)
    ∧ nowReads res.2 = nowReads rt
    ∧ (res.1 = last ∨ (last = ThrowUndefined ∧ res.1 = Throw typeError))
    ∧ ((length retries < m)%nat →
       match last with
       | Throw e => isRetryable e = false
       | _ => True
       end).
Proof.
  revert k lastError rt. induction m as [|m IH]; intros k lastError rt res; subst res.
  - cbn [seq map]. rewrite Nat.add_0_r.
    rewrite retryLoop_stop by (destruct (fn (user rt)).1; [done | by left | done]).
    exists []. cbn [length fst snd events user nowReads].
    rewrite afterCalls_0, afterCalls_1.
    split; [done|]. split; [lia|]. split; [done|].
      split; [intros i r Hi; by rewrite lookup_nil in Hi|].
    split; [done|]. split; [done|]. split; [by left | lia].
  - cbn [seq map].
    assert (Hstop : ∀ o s', fn (user rt) = (o, s') →
              match o with
              | Return _ => True
              | Throw e => isRetryable e = false
              | ThrowUndefined => False
              end →
              ∃ retries : list Retry,
                let last := (fn (afterCalls fn (length retries) (user rt))).1 in
                events (o, mkRuntime s' (nowReads rt) (randomReads rt)
                             (events rt ++ [Invoked])).2
                = events rt ++ retryTrace retries
                ∧ (length retries ≤ Datatypes.S m)%nat
                ∧ map retry_attempt retries = map Z.of_nat (seq k (length retries))
                ∧ (∀ i r, retries !! i = Some r →
                     (fn (afterCalls fn i (user rt))).1 = Throw (retry_error r)
                     ∧ isRetryable (retry_error r) = true
                     ∧ ∃ q, retry_delay r
                            = getRetryDelay q (retry_attempt r) (retry_error r))
                ∧ user (o, mkRuntime s' (nowReads rt) (randomReads rt)
                             (events rt ++ [Invoked])).2
                  = afterCalls fn (Datatypes.S (length retries)) (user rt)
                ∧ nowReads (o, mkRuntime s' (nowReads rt) (randomReads rt)
                                 (events rt ++ [Invoked])).2 = nowReads rt
                ∧ ((o, mkRuntime s' (nowReads rt) (randomReads rt)
                         (events rt ++ [Invoked])).1 = last
                   ∨ (last = ThrowUndefined
                      ∧ (o, mkRuntime s' (nowReads rt) (randomReads rt)
                              (events rt ++ [Invoked])).1 = Throw typeError))
                ∧ ((length retries < Datatypes.S m)%nat →
                   match last with
                   | Throw e => isRetryable e = false
                   | _ => True
                   end)).
    { intros o s' E Ho. exists [].
      cbn [length fst snd events user nowReads].
      rewrite afterCalls_0, afterCalls_1, E. cbn [fst snd].
      split; [done|]. split; [lia|]. split; [done|].
      split; [intros i r Hi; by rewrite lookup_nil in Hi|].
      split; [done|]. split; [done|]. split; [by left|]. intros _.
      by destruct o. }
    destruct (fn (user rt)) as [o s'] eqn:E. destruct o as [v|e|].
    + rewrite retryLoop_stop by (by rewrite E). unfold advance. rewrite E.
      by apply Hstop.
    + destruct (isRetryable e) eqn:Hre.
      * destruct (retryLoop_step (Z.of_nat (k + Datatypes.S m)) (Z.of_nat k)
                    (map Z.of_nat (seq (Datatypes.S k) (Datatypes.S m)))
                    lastError e rt ltac:(by rewrite E) Hre ltac:(lia))
          as (rt' & d & Hu & Hev & Hnow & _ & Hd & Hloop).
        cbn [seq map] in Hloop. rewrite Hloop.
        replace (k + Datatypes.S m)%nat with (Datatypes.S k + m)%nat by lia.
        destruct (IH (Datatypes.S k) (Some e) rt')
          as (retries & H1 & H2 & H3 & H4 & H5 & H6 & H7 & H8).
        cbn [seq map] in H1, H5, H6, H7.
        assert (Hshift : ∀ i, afterCalls fn i (user rt')
                              = afterCalls fn (Datatypes.S i) (user rt)).
        { intros i. rewrite Hu. unfold afterCalls. by rewrite Nat.iter_succ_r. }
        exists (mkRetry (Z.of_nat k) d e :: retries). cbn [length]. cbv zeta.
        rewrite <- !Hshift.
        split; [rewrite H1, Hev, retryTrace_cons; by rewrite <- app_assoc|].
        split; [lia|]. split; [cbn [map seq retry_attempt]; by rewrite H3|].
        split; [|split; [done|split; [congruence|split; [done|]]]].
        -- intros [|i] r Hi; cbn in Hi.
           ++ simplify_eq. cbn [retry_error retry_delay retry_attempt].
              rewrite afterCalls_0, E.
              split; [done|]. split; [done|]. eauto.
           ++ rewrite <- Hshift. by apply H4.
        -- intros Hlt. apply H8. lia.
      * rewrite retryLoop_stop by (rewrite E; by right). unfold advance. rewrite E.
        by apply Hstop.
    + cbn [retryLoop]. unfold bind, call. rewrite E.
      rewrite bool_decide_eq_false_2 by lia. unfold ret. exists [].
      cbn [length fst snd events user nowReads].
      rewrite afterCalls_0, afterCalls_1, E. cbn [fst snd].
      split; [done|]. split; [lia|]. split; [done|].
      split; [intros i r Hi; by rewrite lookup_nil in Hi|].
      split; [done|]. split; [done|]. split; [by right | done].
Qed.


(** X2. A first call that returns, or that throws an error that is not
    retryable, is the only call: its outcome is passed on at once, without
    a sleep and without a read of the random generator. *)
Theorem retry_first_outcome_final (maxAttempts : option Z) (rt : Runtime S) :
  1 ≤ orDefault maxAttempts 3 →
  (∃ v, (fn (user rt)).1 = Return v)
  ∨ (∃ e, (fn (user rt)).1 = Throw e ∧ isRetryable e = false) →
  retryWithBackoff rnd fn maxAttempts rt
  = ((fn (user rt)).1,
     mkRuntime (advance fn (user rt)) (nowReads rt) (randomReads rt)
       (events rt ++ [Invoked])).
Proof.
  intros Hn Hfinal. unfold retryWithBackoff, attempts.
  destruct (Z.to_nat (orDefault maxAttempts 3)) as [|m] eqn:Hm; [lia|].
  cbn [seq map]. apply retryLoop_stop.
  destruct Hfinal as [[v ->]|(e & -> & Hnr)]; [done | by right].
Qed.

(** The loop when the operation fails with retryable errors [k] times and
    then returns, with attempts to spare. *)
Lemma retryLoop_succeeds (k m a : nat) (lastError : option jsError) (v : V)
    (rt : Runtime S) :
  (k ≤ m)%nat →
  (∀ i, (i < k)%nat →
     ∃ e, (fn (afterCalls fn i (user rt))).1 = Throw e ∧ isRetryable e = true) →
  (fn (afterCalls fn k (user rt))).1 = Return v →
  let res := retryLoop rnd fn (Z.of_nat (a + m))
               (map Z.of_nat (seq a (Datatypes.S m))) lastError rt in
  res.1 = Return v
  ∧ invocations res.2 = (invocations rt + Datatypes.S k)%nat
  ∧ length (sleeps res.2) = (length (sleeps rt) + k)%nat
  ∧ user res.2 = afterCalls fn (Datatypes.S k) (user rt).
Proof.
  revert m a lastError rt.
  induction k as [|k IH]; intros m a lastError rt Hkm Hfail Hok res; subst res.
  - cbn [seq map]. change (afterCalls fn 0 (user rt)) with (user rt) in Hok.
    rewrite retryLoop_stop by (by rewrite Hok). cbn [fst snd]. split; [done|].
    set (rt' := mkRuntime _ _ _ _).
    rewrite (invocations_of_events rt rt' [Invoked] eq_refl),
      (sleeps_of_events rt rt' [Invoked] eq_refl).
    rewrite filter_cons_True by done. rewrite length_app. cbn. split; [lia|].
    split; [lia | done].
  - destruct m as [|m]; [lia|]. cbn [seq map].
    destruct (Hfail 0%nat ltac:(lia)) as (e & He & Hre).
    change (afterCalls fn 0 (user rt)) with (user rt) in He.
    destruct (retryLoop_step (Z.of_nat (a + Datatypes.S m)) (Z.of_nat a)
                (map Z.of_nat (seq (Datatypes.S a) (Datatypes.S m)))
                lastError e rt He Hre ltac:(lia))
      as (rt' & d & Hu & Hev & _ & _ & _ & Hloop).
    cbn [seq map] in Hloop. rewrite Hloop.
    replace (a + Datatypes.S m)%nat with (Datatypes.S a + m)%nat by lia.
    destruct (IH m (Datatypes.S a) (Some e) rt') as (H1 & H2 & H3 & H4); [lia| | |].
    + intros i Hi. rewrite Hu. unfold afterCalls. rewrite <- Nat.iter_succ_r.
      apply (Hfail (Datatypes.S i)). lia.
    + rewrite Hu. unfold afterCalls. rewrite <- Nat.iter_succ_r. exact Hok.
    + cbn [seq map] in H1, H2, H3, H4. rewrite H1, H2, H3, H4, Hu.
      rewrite (invocations_of_events rt rt' _ Hev), (sleeps_of_events rt rt' _ Hev).
      rewrite filter_cons_True by done. rewrite !filter_cons_False by done.
      rewrite length_app. unfold afterCalls. rewrite <- Nat.iter_succ_r.
      cbn [omap length filter]. split; [done|]. split; [cbn; lia|].
      split; [cbn; lia | done].
Qed.

(** X3. When the operation fails with retryable errors on its first [k]
    calls and returns a value on the next, and [k < maxAttempts], then
    [retryWithBackoff] returns that value after exactly [k + 1] calls and
    [k] sleeps. *)
Theorem retry_returns_first_success (n : Z) (k : nat) (v : V) (rt : Runtime S) :
  Z.of_nat k < n →
  (∀ i, (i < k)%nat →
     ∃ e, (fn (afterCalls fn i (user rt))).1 = Throw e ∧ isRetryable e = true) →
  (fn (afterCalls fn k (user rt))).1 = Return v →
  let res := retryWithBackoff rnd fn (Some n) rt in
  res.1 = Return v
  ∧ invocations res.2 = (invocations rt + Datatypes.S k)%nat
  ∧ length (sleeps res.2) = (length (sleeps rt) + k)%nat
  ∧ user res.2 = afterCalls fn (Datatypes.S k) (user rt).
Proof.
  intros Hk Hfail Hok res. subst res. unfold retryWithBackoff, orDefault, attempts.
  rewrite bool_decide_eq_false_2 by lia.
  destruct (Z.to_nat n) as [|m] eqn:Hm; [lia|].
  assert (n = Z.of_nat (1 + m)) as -> by lia.
  apply retryLoop_succeeds; [lia | done | done].
Qed.

(** X4. A negative [maxAttempts] is taken as it is (only 0 and a missing
    option give the default 3): the loop body never runs, the operation is
    not called, and the function throws [undefined]. *)
Theorem retry_negative_maxAttempts (n : Z) (rt : Runtime S) :
  n < 0 →
  retryWithBackoff rnd fn (Some n) rt = (ThrowUndefined, rt).
Proof.
  intros Hn. unfold retryWithBackoff, orDefault, attempts.
  rewrite bool_decide_eq_false_2 by lia.
  replace (Z.to_nat n) with 0%nat by lia. reflexivity.
Qed.

(** The retries of a run in which every attempt from [a] on, [m] of them,
    met a rate-limit error carrying [retryAfter]. *)
Lemma rateLimitedRetries_delays (retryAfter : Z) (a m : nat) :
  map retry_delay
    (map (λ i, mkRetry (Z.of_nat i) (retryAfter * 1000) (ERateLimit retryAfter))
       (seq a m))
  = replicate m (retryAfter * 1000).
Proof.
  revert a. induction m as [|m IH]; intros a; [done|].
  cbn [seq map replicate retry_delay]. by rewrite IH.
Qed.

(** The loop against an operation that always answers with a rate-limit
    error carrying [retryAfter]: every attempt is made, and the sleep
    before each retry lasts [retryAfter * 1000]. *)
Lemma retryLoop_rate_limited (retryAfter : Z) (m a : nat)
    (lastError : option jsError) (rt : Runtime S) :
  (∀ s, (fn s).1 = Throw (ERateLimit retryAfter)) →
  let res := retryLoop rnd fn (Z.of_nat (a + m))
               (map Z.of_nat (seq a (Datatypes.S m))) lastError rt in
  events res.2
  = events rt
    ++ retryTrace
         (map (λ i, mkRetry (Z.of_nat i) (retryAfter * 1000) (ERateLimit retryAfter))
            (seq a m))
  ∧ randomReads res.2 = randomReads rt
  ∧ res.1 = Throw (ERateLimit retryAfter).
Proof.
  intros Hfn. revert a lastError rt.
  induction m as [|m IH]; intros a lastError rt res; subst res.
  - cbn [seq map]. rewrite Nat.add_0_r.
    rewrite retryLoop_stop by (rewrite Hfn; by left). cbn [fst snd randomReads events].
    by rewrite Hfn.
  - cbn [seq map].
    destruct (retryLoop_step (Z.of_nat (a + Datatypes.S m)) (Z.of_nat a)
                (map Z.of_nat (seq (Datatypes.S a) (Datatypes.S m)))
                lastError (ERateLimit retryAfter) rt (Hfn _) eq_refl ltac:(lia))
      as (rt' & d & Hu & Hev & _ & Hrr & Hd & Hloop).
    cbn [seq map] in Hloop. rewrite Hloop.
    replace (a + Datatypes.S m)%nat with (Datatypes.S a + m)%nat by lia.
    destruct (IH (Datatypes.S a) (Some (ERateLimit retryAfter)) rt') as (H1 & H2 & H3).
    cbn [seq map] in H1, H2, H3. rewrite H1, H3, Hev, retryTrace_cons.
    cbn [retry_delay retry_attempt retry_error].
    cbn [getRetryDelay] in Hd. subst d. rewrite <- app_assoc.
    split; [done|]. split; [|done]. by rewrite H2, Hrr.
Qed.

(** X5. Against an operation that always answers with a rate-limit error
    carrying [retryAfter] seconds, [retryWithBackoff] with an integer
    [maxAttempts >= 1] makes all its [maxAttempts] calls, sleeps exactly
    [retryAfter * 1000] ms after each call but the last, before the
    [onRetry] and the next call, never reads the random generator, and
    throws the rate-limit error. *)
Theorem retry_rate_limit_delays (retryAfter n : Z) (rt : Runtime S) :
  1 ≤ n →
  (∀ s, (fn s).1 = Throw (ERateLimit retryAfter)) →
  let res := retryWithBackoff rnd fn (Some n) rt in
  events res.2
  = events rt
    ++ retryTrace
         (map (λ i, mkRetry (Z.of_nat i) (retryAfter * 1000) (ERateLimit retryAfter))
            (seq 1 (Z.to_nat n - 1)))
  ∧ invocations res.2 = (invocations rt + Z.to_nat n)%nat
  ∧ sleeps res.2 = sleeps rt ++ replicate (Z.to_nat n - 1) (retryAfter * 1000)
  ∧ randomReads res.2 = randomReads rt
  ∧ res.1 = Throw (ERateLimit retryAfter).
Proof.
  intros Hn Hfn res. subst res. unfold retryWithBackoff, orDefault, attempts.
  rewrite bool_decide_eq_false_2 by lia.
  destruct (Z.to_nat n) as [|m] eqn:Hm; [lia|].
  assert (n = Z.of_nat (1 + m)) as -> by lia.
  replace (Datatypes.S m - 1)%nat with m by lia.
  destruct (retryLoop_rate_limited retryAfter m 1 None rt Hfn) as (H1 & H2 & H3).
  split; [done|].
  split; [rewrite (invocations_retryTrace rt _ _ H1), !length_map, length_seq; lia|].
  split; [|done].
  by rewrite (sleeps_retryTrace rt _ _ H1), rateLimitedRetries_delays.
Qed.
End Facts.


Lemma retry_first_outcome_final_witness :
  let fn := λ s : nat, (@Throw unit (EValidation "Invalid resource URI format" []),
                        Datatypes.S s) in
  retryWithBackoff (λ _, 0%Q) fn (Some 5) (start 0%nat)
  = (Throw (EValidation "Invalid resource URI format" []),
     mkRuntime 1%nat 0 0 [Invoked]).
Proof.
  intros fn.
  apply (retry_first_outcome_final (λ _, 0%Q) fn (Some 5) (start 0%nat));
    [vm_compute; discriminate|].
  right. exists (EValidation "Invalid resource URI format" []).
  split; reflexivity.
Defined.

Lemma retry_returns_first_success_witness :
  let fn := λ s : nat,
    (if bool_decide (s = 2%nat) then Return s
     else Throw (EError "connect ECONNRESET" (Some "ECONNRESET")), Datatypes.S s) in
  let res := retryWithBackoff (λ _, 0%Q) fn (Some 3) (start 0%nat) in
  res.1 = Return 2%nat ∧ invocations res.2 = 3%nat ∧ length (sleeps res.2) = 2%nat.
Proof.
  intros fn res.
  destruct (retry_returns_first_success (λ _, 0%Q) fn 3 2 2%nat (start 0%nat))
    as (H1 & H2 & H3 & _); [lia | | reflexivity |].
  - intros i Hi. exists (EError "connect ECONNRESET" (Some "ECONNRESET")).
    destruct i as [|[|i]]; [split; reflexivity | split; reflexivity | lia].
  - split; [exact H1|]. split; [exact H2 | exact H3].
Defined.

Lemma retry_negative_maxAttempts_witness :
  retryWithBackoff (λ _, 0%Q) (λ s : nat, (Return tt, Datatypes.S s)) (Some (-1))
    (start 0%nat)
  = (ThrowUndefined, start 0%nat).
Proof.
  apply (retry_negative_maxAttempts (λ _, 0%Q) (λ s : nat, (Return tt, Datatypes.S s))).
  lia.
Defined.

Lemma retry_rate_limit_delays_witness :
  let fn := λ s : nat, (@Throw unit (ERateLimit 7), Datatypes.S s) in
  events (retryWithBackoff (λ _, (1 # 2)%Q) fn (Some 3) (start 0%nat)).2
  = [Invoked; Slept 7000; Retried 1 (ERateLimit 7);
     Invoked; Slept 7000; Retried 2 (ERateLimit 7); Invoked].
Proof.
  intros fn.
  destruct (retry_rate_limit_delays (λ _, (1 # 2)%Q) fn 7 3 (start 0%nat))
    as (H1 & _); [lia | reflexivity |].
  exact H1.
Defined.

End RetryExtra.

(** ** More on error classification and backoff *)

Module ErrorsExtra.
Import Errors.

(** X6. [isRetryable] holds exactly of rate-limit errors, of external
    service errors with their subclass [GhostAPIError], and of plain errors
    whose code is one of the three network codes. The test of the Ghost
    status against 429, 502, 503, 504 is never reached, a [GhostAPIError]
    being an [ExternalServiceError]: what [fromGhostError] builds is
    retryable whatever the upstream status, 401, 404 and 422 included. *)
Theorem isRetryable_characterised (e : jsError) :
  (isRetryable e = true ↔
     classOf e ∈ [CRateLimitError; CExternalServiceError; CGhostAPIError]
     ∨ ∃ m c, e = EError m (Some c) ∧ c ∈ networkCodes)
  ∧ (∀ status msg operation,
       isRetryable (fromGhostError status msg operation) = true)
  ∧ (instanceof e CValidationError = true ∨ instanceof e CNotFoundError = true →
     isRetryable e = false).
Proof.
  split; [|split].
  - split.
    + intros Hre. destruct e as [m [c|]| | | | | | | | | | | |];
        try discriminate Hre; try (left; set_solver).
      right. exists m, c. split; [done|].
      unfold isRetryable in Hre. cbn in Hre. by apply bool_decide_eq_true in Hre.
    + intros [Hcls|(m & c & -> & Hc)].
      * destruct e; cbn in Hcls; set_unfold in Hcls; try (exfalso; intuition discriminate);
          reflexivity.
      * unfold isRetryable. cbn. by apply bool_decide_eq_true.
  - reflexivity.
  - intros [H|H]; destruct e; try discriminate H; reflexivity.
Qed.

Lemma exponentialDelay_bounds (a : Z) :
  (0 <= exponentialDelay a)%Q ∧ (exponentialDelay a <= inject_Z 30000)%Q.
Proof.
  unfold exponentialDelay, maxDelay. split; [|apply Q.le_min_r].
  apply Q.min_glb; [|done].
  apply Qmult_le_0_compat; [done|]. by apply Qpower_0_le.
Qed.

(** X7. For every attempt number, positive or not, and every random
    fraction [r] in [0, 1), the delay for an error that is not a
    [RateLimitError] is between 0 and 39000 ms; for a [RateLimitError] it is
    [retryAfter * 1000] whatever the attempt and the random fraction. *)
Theorem getRetryDelay_range (r : Q) (a : Z) (e : jsError) :
  (0 <= r)%Q → (r < 1)%Q →
  (instanceof e CRateLimitError = false → 0 ≤ getRetryDelay r a e ≤ 39000)
  ∧ (∀ retryAfter, getRetryDelay r a (ERateLimit retryAfter) = retryAfter * 1000).
Proof.
  intros Hr0 Hr1. split; [|done]. intros Hrl.
  destruct (exponentialDelay_bounds a) as [Hd0 Hd1].
  assert (Hval : getRetryDelay r a e
                 = Math_round (exponentialDelay a + r * (3 # 10) * exponentialDelay a)).
  { destruct e; try discriminate Hrl; reflexivity. }
  rewrite Hval. unfold Math_round.
  assert (Hj0 : (0 <= r * (3 # 10) * exponentialDelay a)%Q).
  { apply Qmult_le_0_compat; [|done]. by apply Qmult_le_0_compat. }
  assert (Hj1 : (r * (3 # 10) * exponentialDelay a <= inject_Z 9000)%Q).
  { assert (E : (inject_Z 9000 == 1 * (3 # 10) * inject_Z 30000)%Q) by reflexivity.
    rewrite E. apply Qmult_le_compat_nonneg.
    - split; [by apply Qmult_le_0_compat|].
      apply Qmult_le_compat_r; [by apply Qlt_le_weak | done].
    - by split. }
  split.
  - change 0 with (Qfloor 0). apply Qfloor_resp_le.
    rewrite <- (Qplus_0_r 0). apply Qplus_le_compat; [|done].
    rewrite <- (Qplus_0_r 0). by apply Qplus_le_compat.
  - change 39000 with (Qfloor (inject_Z 30000 + inject_Z 9000 + (1 # 2))).
    apply Qfloor_resp_le. apply Qplus_le_compat; [|apply Qle_refl].
    by apply Qplus_le_compat.
Qed.

Lemma getRetryDelay_range_witness :
  0 ≤ getRetryDelay (9 # 10) (-2) (EError "connect ETIMEDOUT" (Some "ETIMEDOUT"))
  ≤ 39000.
Proof.
  apply (getRetryDelay_range (9 # 10) (-2) (EError "connect ETIMEDOUT" (Some "ETIMEDOUT")));
    [discriminate | reflexivity | reflexivity].
Defined.

End ErrorsExtra.

(** ** More on the circuit breaker *)

Module BreakerExtra.
Import Errors Host Breaker Runs Overlap.

Section Facts.
Context {S V : Type}.
Variable clock : nat → Z.
Implicit Types (this : CircuitBreaker) (fn : S → Outcome V * S) (rt : Runtime S).

Lemma execute_success this fn rt (v : V) :
  state this ≠ OPEN →
  (fn (user rt)).1 = Return v →
  execute clock this fn rt
  = (Return v, onSuccess this,
     mkRuntime (fn (user rt)).2 (nowReads rt) (randomReads rt)
       (events rt ++ [Invoked])).
Proof.
  intros Hst Hfn. unfold execute, attempt, call, bind, ret.
  rewrite bool_decide_eq_false_2 by done.
  destruct (fn (user rt)) as [o s']. cbn [fst snd] in *. by subst o.
Qed.

(** An open breaker whose deadline has passed lets the call through as a
    half-open breaker would, after the clock read of the gate. *)
Lemma execute_open_elapsed this fn rt :
  state this = OPEN →
  default 0 (nextAttempt this) ≤ clock (nowReads rt) →
  execute clock this fn rt
  = execute clock (withState HALF_OPEN this) fn (afterGate rt).
Proof.
  intros Hst Hnow. unfold execute at 1. unfold bind, DateNow.
  rewrite bool_decide_eq_true_2 by done.
  rewrite bool_decide_eq_false_2 by lia.
  unfold execute. by rewrite bool_decide_eq_false_2.
Qed.

Lemma isThrow_not_return (o : Outcome V) :
  isThrow o = true ∨ ∃ v, o = Return v.
Proof. destruct o; eauto. Qed.

(** [execute] is its two halves with nothing in between: the gate, the
    call of [fn], and the rest of [execute] on the breaker as the gate left
    it. This is a call that no other call on the breaker overlaps. *)
Lemma execute_enter_settle this fn rt :
  execute clock this fn rt
  = let g := enter clock this rt in
    if g.1.1 then
      let c := call fn g.2 in settle clock g.1.2 c.1 c.2
    else (Throw rejection, g.1.2, g.2).
Proof.
  unfold execute, enter, attempt, settle, bind, ret. cbn [fst snd].
  case_bool_decide.
  - unfold DateNow. cbn [fst snd]. case_bool_decide; [done|]. cbn [fst snd].
    destruct (call fn _) as [[v|e|] rt1]; cbn [fst snd]; [done|..];
      by destruct (onFailure clock _ rt1).
  - cbn [fst snd].
    destruct (call fn rt) as [[v|e|] rt1]; cbn [fst snd]; [done|..];
      by destruct (onFailure clock _ rt1).
Qed.

(** X8. A call through the breaker that returns a value. When no other
    call on the breaker overlaps it, so that [execute] is the gate, the
    call of the wrapped function and the rest of [execute] with nothing in
    between, the breaker is left CLOSED with [failureCount = 0] and
    [lastFailureTime = null], whatever state the call found, and the
    wrapped function ran exactly once for it. When calls on a shared
    breaker overlap, the value comes back to the breaker as the other
    calls have left it: the failure count and the time of the last failure
    are cleared all the same, but a breaker that another call has opened
    meanwhile stays OPEN, with its deadline. *)
Theorem breaker_success_closes this fn rt (v : V) :
  (execute clock this fn rt).1.1 = Return v →
  let r := execute clock this fn rt in
  (state r.1.2 = CLOSED
   ∧ failureCount r.1.2 = 0
   ∧ lastFailureTime r.1.2 = None
   ∧ invocations r.2 = Datatypes.S (invocations rt)
   ∧ failureThreshold r.1.2 = failureThreshold this
   ∧ resetTimeout r.1.2 = resetTimeout this)
  ∧ r = (let g := enter clock this rt in
         if g.1.1 then let c := call fn g.2 in settle clock g.1.2 c.1 c.2
         else (Throw rejection, g.1.2, g.2))
  ∧ ∀ (shared : CircuitBreaker) (rt' : Runtime S),
      let r' := settle clock shared (Return v) rt' in
      r'.1.1 = Return v
      ∧ failureCount r'.1.2 = 0
      ∧ lastFailureTime r'.1.2 = None
      ∧ state r'.1.2 = (if bool_decide (state shared = OPEN) then OPEN else CLOSED)
      ∧ nextAttempt r'.1.2 = nextAttempt shared
      ∧ r'.2 = rt'.
Proof.
  intros Hret. cbv zeta.
  split; [|split; [apply execute_enter_settle|]].
  2:{ intros shared rt'. unfold settle, ret, onSuccess.
      cbn [fst snd failureCount lastFailureTime state nextAttempt].
      do 3 (split; [done|]). split; [|done].
      destruct (state shared); done. }
  assert (Hcase : ∀ this' rt', state this' ≠ OPEN →
            failureThreshold this' = failureThreshold this →
            resetTimeout this' = resetTimeout this →
            invocations rt' = invocations rt →
            (execute clock this' fn rt').1.1 = Return v →
            let r := execute clock this' fn rt' in
            state r.1.2 = CLOSED ∧ failureCount r.1.2 = 0
            ∧ lastFailureTime r.1.2 = None
            ∧ invocations r.2 = Datatypes.S (invocations rt)
            ∧ failureThreshold r.1.2 = failureThreshold this
            ∧ resetTimeout r.1.2 = resetTimeout this).
  { intros this' rt' Hst Hthr Hrt Hinv Hr. cbv zeta.
    destruct (isThrow_not_return (fn (user rt')).1) as [Hthrow|[v' Hv]].
    - exfalso. destruct (decide (failureThreshold this' ≤ failureCount this' + 1)).
      + rewrite BreakerFacts.execute_failure_trips in Hr by done. cbn in Hr.
        rewrite Hr in Hthrow. discriminate.
      + rewrite BreakerFacts.execute_failure_below in Hr by (done || lia). cbn in Hr.
        rewrite Hr in Hthrow. discriminate.
    - rewrite (execute_success this' fn rt' v') by done.
      cbn [fst snd onSuccess state failureCount lastFailureTime
           failureThreshold resetTimeout].
      rewrite BreakerFacts.invocations_invoked.
      destruct rt'; cbn in *. rewrite Hinv.
      split; [|done]. case_bool_decide; [done|].
      destruct (state this'); done. }
  destruct (decide (state this = OPEN)) as [Hopen|Hnot].
  - destruct (decide (clock (nowReads rt) < default 0 (nextAttempt this))) as [Hlt|Hge].
    + rewrite BreakerFacts.execute_open_rejects in Hret by done. discriminate.
    + rewrite execute_open_elapsed in Hret |- * by (done || lia).
      apply Hcase; [done | done | done | by destruct rt | done].
  - by apply Hcase.
Qed.

(** A call that is let through, from CLOSED below the threshold or from
    HALF_OPEN at or above it, leaves the breaker at rest. *)
Lemma passed_call_atRest this fn rt :
  1 ≤ failureThreshold this →
  0 ≤ failureCount this →
  (state this = CLOSED ∧ failureCount this < failureThreshold this)
  ∨ (state this = HALF_OPEN ∧ failureThreshold this ≤ failureCount this) →
  let r := execute clock this fn rt in
  atRest r.1.2
  ∧ failureThreshold r.1.2 = failureThreshold this
  ∧ resetTimeout r.1.2 = resetTimeout this.
Proof.
  intros Hthr Hcnt Hst. cbv zeta.
  assert (Hnot : state this ≠ OPEN) by (destruct Hst as [[-> _]|[-> _]]; done).
  destruct (isThrow_not_return (fn (user rt)).1) as [Hthrow|[v Hv]].
  - destruct (decide (failureThreshold this ≤ failureCount this + 1)) as [Hge|Hlt].
    + rewrite BreakerFacts.execute_failure_trips by done.
      cbn [fst snd]. unfold atRest.
      cbn [state failureCount failureThreshold nextAttempt resetTimeout].
      split; [|done]. split; [done|]. split; [done|]. split; [eauto | lia].
    + rewrite BreakerFacts.execute_failure_below by (done || lia).
      cbn [fst snd]. unfold atRest.
      cbn [state failureCount failureThreshold nextAttempt resetTimeout].
      destruct Hst as [[Hc Hlt']|[Hh Hge']]; [|lia].
      rewrite Hc. split; [|done]. split; [done|]. split; [|split; [done | lia]].
      split; [done | lia].
  - rewrite (execute_success this fn rt v) by done.
    cbn [fst snd]. unfold atRest, onSuccess.
    cbn [state failureCount failureThreshold nextAttempt resetTimeout].
    split; [|done].
    assert (Hcl : (if bool_decide (state this = HALF_OPEN) then CLOSED else state this)
                  = CLOSED).
    { destruct Hst as [[-> _]|[-> _]]; done. }
    rewrite Hcl. split; [done|]. split; [|split; [done | lia]].
    split; [done | lia].
Qed.

Lemma execute_atRest this fn rt :
  1 ≤ failureThreshold this →
  atRest this →
  let r := execute clock this fn rt in
  atRest r.1.2
  ∧ failureThreshold r.1.2 = failureThreshold this
  ∧ resetTimeout r.1.2 = resetTimeout this.
Proof.
  intros Hthr (Hnh & Hiff & Hdl & Hcnt). cbv zeta.
  destruct (decide (state this = OPEN)) as [Hopen|Hnot].
  - destruct (decide (clock (nowReads rt) < default 0 (nextAttempt this))) as [Hlt|Hge].
    + rewrite BreakerFacts.execute_open_rejects by done. by cbn.
    + rewrite execute_open_elapsed by (done || lia).
      apply (passed_call_atRest (withState HALF_OPEN this)); cbn; [done | done |].
      right. split; [done|]. by apply Hiff.
  - apply passed_call_atRest; [done | done |]. left.
    split; [destruct (state this); done|].
    destruct (decide (failureThreshold this ≤ failureCount this)) as [Hge|]; [|lia].
    by apply Hiff in Hge.
Qed.

Lemma sound_step (threshold timeout : Z) (st : CircuitBreaker * Runtime S)
    (s : Step V) :
  1 ≤ threshold →
  sound threshold timeout st.1 →
  sound threshold timeout (Overlap.step clock st s).1.
Proof.
  intros Hthr (Ht & Hr & Hc & Hdl & Hopen). destruct st as [this rt].
  cbn [fst snd] in *. destruct s as [|result]; cbn [Overlap.step fst snd].
  - unfold enter, bind, ret, DateNow. cbn [fst snd].
    case_bool_decide as Hst; [|done]. cbn [fst snd].
    case_bool_decide; cbn [fst snd]; [done|].
    unfold sound. cbn [withState failureThreshold resetTimeout failureCount state
                       nextAttempt].
    split; [done|]. split; [done|]. split; [done|].
    split; [intros _; apply Hdl; congruence | done].
  - assert (Hfail :
      sound threshold timeout (onFailure (S:=S) clock this rt).1).
    { unfold onFailure, bind, ret, DateNow. cbn [fst snd].
      case_bool_decide as Htrip; cbn [fst snd]; unfold sound;
        cbn [failureThreshold resetTimeout failureCount state nextAttempt].
      - split; [done|]. split; [done|]. split; [lia|]. split; [eauto | done].
      - split; [done|]. split; [done|]. split; [lia|].
        split; [done | intros ?; lia]. }
    destruct result as [v|e|]; unfold settle, bind, ret; cbn [fst snd].
    + unfold sound, onSuccess.
      cbn [failureThreshold resetTimeout failureCount state nextAttempt].
      split; [done|]. split; [done|]. split; [done|]. split; [|intros ?; lia].
      case_bool_decide; [done | apply Hdl].
    + by destruct (onFailure clock this rt).
    + by destruct (onFailure clock this rt).
Qed.

Lemma sound_interleave (threshold timeout : Z) (steps : list (Step V))
    (st : CircuitBreaker * Runtime S) :
  1 ≤ threshold →
  sound threshold timeout st.1 →
  sound threshold timeout (interleave clock steps st).1.
Proof.
  intros Hthr. revert st. induction steps as [|s steps IH]; intros st Hs; [done|].
  unfold interleave. cbn [foldl]. apply IH. by apply sound_step.
Qed.

(** X9. A breaker built with a threshold of at least 1. After any
    sequence of calls made one after the other, each settled before the
    next one starts, it is never left HALF_OPEN: it is OPEN exactly when
    its failure count has reached the threshold, and then its deadline is
    set; it is CLOSED otherwise. When the calls on it overlap, in whatever
    way their gates and their returns interleave, this much still holds at
    every moment: threshold and reset timeout never change, the failure
    count is not negative, a breaker that is not CLOSED has its deadline
    set, and a breaker whose failure count has reached the threshold is
    not CLOSED. *)
Theorem breaker_at_rest_between_calls (opts : Options)
    (fns : list (S → Outcome V * S)) (steps : list (Step V)) rt :
  1 ≤ failureThreshold (new opts) →
  let this := (executeAll clock fns (new opts) rt).1 in
  let shared := (interleave clock steps (new opts, rt)).1 in
  (atRest this
   ∧ failureThreshold this = failureThreshold (new opts)
   ∧ resetTimeout this = resetTimeout (new opts))
  ∧ sound (failureThreshold (new opts)) (resetTimeout (new opts)) shared.
Proof.
  intros Hthr. cbv zeta. split.
  2:{ apply sound_interleave; [done|]. unfold sound, new.
      cbn [fst failureThreshold resetTimeout failureCount state nextAttempt].
      split; [done|]. split; [done|]. split; [done|]. split; [done|].
      unfold new in Hthr. cbn [failureThreshold] in Hthr. intros ?. lia. }
  assert (Hgen : ∀ this rt, 1 ≤ failureThreshold this → atRest this →
            atRest (executeAll clock fns this rt).1
            ∧ failureThreshold (executeAll clock fns this rt).1 = failureThreshold this
            ∧ resetTimeout (executeAll clock fns this rt).1 = resetTimeout this).
  { clear. induction fns as [|fn fns IH]; intros this rt Hthr Hrest; [done|].
    unfold executeAll. cbn [foldl fst snd].
    destruct (execute_atRest this fn rt Hthr Hrest) as (Hrest' & Ht & Hr).
    fold (executeAll clock fns (execute clock this fn rt).1.2 (execute clock this fn rt).2).
    destruct (IH (execute clock this fn rt).1.2 (execute clock this fn rt).2)
      as (H1 & H2 & H3); [lia | done |].
    split; [done|]. split; congruence. }
  apply Hgen; [done|]. unfold atRest. unfold new in Hthr |- *.
  cbn [state failureCount failureThreshold nextAttempt] in *.
  split; [done|]. split; [|split; [done | lia]]. split; [done | lia].
Qed.

(** X10. Recovery from OPEN. When a breaker at rest is OPEN and its
    deadline has passed, the next call is let through: the wrapped function
    runs once. When no other call on the breaker overlaps this call: if it
    returns, the breaker is CLOSED with a failure count of 0; if it
    throws, the breaker is OPEN again with a deadline computed from a new
    reading of the clock. Until the call settles the breaker is HALF_OPEN,
    and in that state the gate lets every other call that arrives through
    as well, without reading the clock. *)
Theorem breaker_half_open_recovery this fn rt :
  1 ≤ failureThreshold this →
  atRest this →
  state this = OPEN →
  default 0 (nextAttempt this) ≤ clock (nowReads rt) →
  let r := execute clock this fn rt in
  user r.2 = (fn (user rt)).2
  ∧ invocations r.2 = Datatypes.S (invocations rt)
  ∧ (isThrow (fn (user rt)).1 = false →
       state r.1.2 = CLOSED ∧ failureCount r.1.2 = 0)
  ∧ (isThrow (fn (user rt)).1 = true →
       state r.1.2 = OPEN
       ∧ failureCount r.1.2 = failureCount this + 1
       ∧ nextAttempt r.1.2
         = Some (clock (nowReads rt + 2)%nat + resetTimeout this))
  ∧ enter clock this rt = (true, withState HALF_OPEN this, afterGate rt)
  ∧ ∀ rt' : Runtime S,
      enter clock (withState HALF_OPEN this) rt'
      = (true, withState HALF_OPEN this, rt').
Proof.
  intros Hthr (Hnh & Hiff & Hdl & Hcnt) Hopen Hnow. cbv zeta.
  assert (Hgate : enter (S:=S) clock this rt
                  = (true, withState HALF_OPEN this, afterGate rt)).
  { unfold enter, bind, ret, DateNow. cbn [fst snd].
    rewrite bool_decide_eq_true_2 by done.
    by rewrite bool_decide_eq_false_2 by lia. }
  rewrite execute_open_elapsed by done.
  apply Hiff in Hopen as Hge.
  destruct (isThrow_not_return (fn (user rt)).1) as [Hthrow|[v Hv]].
  - rewrite BreakerFacts.execute_failure_trips by (done || cbn; lia).
    cbn [fst snd user afterGate state failureCount nextAttempt nowReads
         resetTimeout withState].
    rewrite BreakerFacts.invocations_invoked.
    split; [done|]. split; [by destruct rt|].
    split; [by rewrite Hthrow|]. split; [|done].
    intros _. split; [done|]. split; [done|].
    do 3 f_equal. lia.
  - rewrite (execute_success _ fn (afterGate rt) v) by done.
    cbn [fst snd user afterGate state failureCount onSuccess withState].
    rewrite BreakerFacts.invocations_invoked.
    split; [done|]. split; [by destruct rt|].
    split; [done|]. rewrite Hv. done.
Qed.
End Facts.

Lemma breaker_success_closes_witness :
  let this := mkBreaker 5 60000 10000 OPEN 5 (Some 0) (Some 100) in
  let r := execute (λ _, 500) this (λ s : nat, (Return tt, Datatypes.S s)) (start 0%nat) in
  state r.1.2 = CLOSED ∧ failureCount r.1.2 = 0.
Proof.
  intros this r.
  destruct (breaker_success_closes (λ _, 500) this
              (λ s : nat, (Return tt, Datatypes.S s)) (start 0%nat) tt eq_refl)
    as ((H1 & H2 & _) & _).
  split; [exact H1 | exact H2].
Defined.

Lemma breaker_at_rest_between_calls_witness :
  let fail := λ s : nat, (@Throw unit (EError "reset" (Some "ECONNRESET")), Datatypes.S s) in
  let ok := λ s : nat, (Return tt, Datatypes.S s) in
  let failed := @Throw unit (EError "reset" (Some "ECONNRESET")) in
  atRest (executeAll (λ k, Z.of_nat k) [fail; fail; ok; fail]
            (new (mkOptions (Some 2) (Some 1) None)) (start 0%nat)).1
  ∧ sound 2 1
      (interleave (λ k, Z.of_nat k)
         [Enters; Enters; Enters; Settles failed; Settles failed; Settles (Return tt)]
         (new (mkOptions (Some 2) (Some 1) None), start 0%nat)).1.
Proof.
  intros fail ok failed.
  destruct (breaker_at_rest_between_calls (λ k, Z.of_nat k)
              (mkOptions (Some 2) (Some 1) None) [fail; fail; ok; fail]
              [Enters; Enters; Enters; Settles failed; Settles failed;
               Settles (Return tt)] (start 0%nat))
    as ((H1 & _) & H2); [vm_compute; discriminate|].
  split; [exact H1 | exact H2].
Defined.

Lemma breaker_half_open_recovery_witness :
  let this := mkBreaker 5 60000 10000 OPEN 5 (Some 0) (Some 100) in
  let fail := λ s : nat, (@Throw unit (EError "reset" (Some "ECONNRESET")), Datatypes.S s) in
  let r := execute (λ k, 500 + Z.of_nat k) this fail (start 0%nat) in
  state r.1.2 = OPEN ∧ nextAttempt r.1.2 = Some 60502.
Proof.
  intros this fail r.
  destruct (breaker_half_open_recovery (λ k, 500 + Z.of_nat k) this fail (start 0%nat))
    as (_ & _ & _ & Hfail & _).
  - vm_compute. discriminate.
  - unfold atRest. cbn. split; [done|]. split; [split; [lia | done]|].
    split; [eauto | lia].
  - reflexivity.
  - vm_compute. discriminate.
  - destruct (Hfail eq_refl) as (H1 & _ & H3). split; [exact H1 | exact H3].
Defined.

End BreakerExtra.

(** ** More on the LRU cache *)

Module CacheExtra.
Import Host Cache Samples.

Section Facts.
Context {V : Type}.
Variable RegExp_new : string → option (string → bool).
Implicit Types (c : gmap string (Item V)) (order keys : list string)
  (this : LRUCache V) (key k : string).

(** X11. Round trip with expiry. A value stored by [set] at time [now] is
    what [get] returns for its key up to and including the time
    [now + ttl] ([ttl] the per-call TTL when given and not 0, else the
    default of the cache), and the hit leaves the key last in the access
    order. A [get] later than that returns nothing, deletes the entry and
    takes the key out of the access order. *)
Theorem cache_set_then_get (now now' : Z) key (v : V) (customTTL : option Z) this :
  let stored := set now key v customTTL this in
  let deadline := now + orDefault customTTL (ttl this) in
  (now' ≤ deadline →
     (get now' key stored).1 = Some v
     ∧ cache (get now' key stored).2 = cache stored
     ∧ last (accessOrder (get now' key stored).2) = Some key)
  ∧ (deadline < now' →
     (get now' key stored).1 = None
     ∧ cache (get now' key stored).2 !! key = None
     ∧ key ∉ accessOrder (get now' key stored).2).
Proof.
  cbv zeta.
  assert (Hitem : cache (set now key v customTTL this) !! key
                  = Some (mkItem v (now + orDefault customTTL (ttl this)))).
  { unfold set. destruct (evict _ _ _). cbn [cache]. apply lookup_insert_eq. }
  unfold get. rewrite Hitem. cbn [expiry value]. split; intros Hnow.
  - rewrite bool_decide_eq_false_2 by lia. cbn [fst snd cache accessOrder].
    split; [done|]. split; [done|]. apply last_snoc.
  - rewrite bool_decide_eq_true_2 by lia. cbn [fst snd cache accessOrder].
    split; [done|]. split; [apply lookup_delete_eq|].
    rewrite CacheFacts.elem_of_without. tauto.
Qed.

Lemma invalidateKeys_lookup (test : string → bool) keys this k :
  cache (invalidateKeys test keys this) !! k
  = if test k && bool_decide (k ∈ keys) then None else cache this !! k.
Proof.
  revert this. induction keys as [|key keys IH]; intros this; cbn [invalidateKeys].
  - rewrite bool_decide_eq_false_2 by apply not_elem_of_nil.
    by rewrite andb_false_r.
  - rewrite IH. destruct (test k) eqn:Hk; cbn [andb].
    + destruct (decide (k ∈ keys)) as [Hin|Hnin].
      * rewrite !bool_decide_eq_true_2; [done | by right | done].
      * rewrite (bool_decide_eq_false_2 (k ∈ keys)) by done.
        destruct (decide (k = key)) as [->|Hne].
        -- rewrite bool_decide_eq_true_2 by (by left). rewrite Hk.
           cbn [cache]. apply lookup_delete_eq.
        -- rewrite bool_decide_eq_false_2 by (rewrite elem_of_cons; tauto).
           destruct (test key); [|done]. cbn [cache]. by rewrite lookup_delete_ne.
    + destruct (test key) eqn:Hkey; [|done]. cbn [cache].
      rewrite lookup_delete_ne; [done|]. intros ->. congruence.
Qed.

Lemma invalidateKeys_fields (test : string → bool) keys this :
  maxSize (invalidateKeys test keys this) = maxSize this
  ∧ ttl (invalidateKeys test keys this) = ttl this.
Proof.
  revert this. induction keys as [|key keys IH]; intros this; [done|].
  cbn [invalidateKeys]. destruct (IH (if test key
    then mkCache (maxSize this) (ttl this) (delete key (cache this))
           (without key (accessOrder this)) else this)) as [-> ->].
  by destruct (test key).
Qed.

(** X12. [invalidate] with a pattern that compiles removes exactly the
    entries whose key the pattern matches and leaves every other entry as
    it was; with a pattern that does not compile it throws and changes
    nothing; with no pattern, or the empty one, it empties the cache. *)
Theorem cache_invalidate_effect (p : string) this :
  p ≠ "" →
  (∀ test, RegExp_new p = Some test →
     (invalidate RegExp_new (Some p) this).1 = Return tt
     ∧ (∀ k, cache (invalidate RegExp_new (Some p) this).2 !! k
             = if test k then None else cache this !! k)
     ∧ maxSize (invalidate RegExp_new (Some p) this).2 = maxSize this)
  ∧ (RegExp_new p = None →
     invalidate RegExp_new (Some p) this = (Throw syntaxError, this))
  ∧ cache (invalidate RegExp_new None this).2 = ∅
  ∧ accessOrder (invalidate RegExp_new None this).2 = []
  ∧ invalidate RegExp_new (Some "") this = invalidate RegExp_new None this.
Proof.
  intros Hp. destruct p as [|a p]; [done|].
  split; [|split; [|done]].
  - intros test Hre. unfold invalidate. rewrite Hre. cbn [fst snd].
    split; [done|]. split; [|apply invalidateKeys_fields].
    intros k. rewrite invalidateKeys_lookup.
    destruct (test k); [|done]. cbn [andb]. case_bool_decide as Hin; [done|].
    apply not_elem_of_dom. intros Hd. apply Hin.
    apply elem_of_dom in Hd as [item Hitem].
    apply list_elem_of_fmap. exists (k, item). split; [done|].
    by apply elem_of_map_to_list.
  - intros Hre. unfold invalidate. by rewrite Hre.
Qed.

Lemma orderExact_size this :
  orderExact this → length (accessOrder this) = size (cache this).
Proof.
  intros [Hnd Hdom]. rewrite <- size_dom.
  assert (dom (cache this) = list_to_set (accessOrder this)) as ->.
  { apply set_eq. intros k. rewrite elem_of_list_to_set. by rewrite Hdom. }
  by rewrite size_list_to_set.
Qed.

(** With the order exact and the map at capacity, the loop evicts the key
    at the front of the order and no other. *)
Lemma evict_one this :
  orderExact this →
  1 ≤ maxSize this →
  stats_size this = maxSize this →
  ∃ oldest rest,
    accessOrder this = oldest :: rest
    ∧ is_Some (cache this !! oldest)
    ∧ evict (maxSize this) (cache this) (accessOrder this)
      = (delete oldest (cache this), rest).
Proof.
  intros Hex Hpos Hfull. pose proof (orderExact_size this Hex) as Hlen.
  unfold stats_size in Hfull.
  destruct (accessOrder this) as [|oldest rest] eqn:Horder; [cbn in Hlen; lia|].
  exists oldest, rest. split; [done|].
  assert (Hin : is_Some (cache this !! oldest)).
  { apply elem_of_dom, Hex. rewrite Horder. by left. }
  split; [done|]. cbn [evict]. rewrite bool_decide_eq_true_2 by lia.
  assert (Hsz : Z.of_nat (size (delete oldest (cache this))) < maxSize this).
  { rewrite map_size_delete. destruct Hin as [item ->]. cbn in Hlen. lia. }
  destruct rest as [|next rest]; [done|]. cbn [evict].
  by rewrite bool_decide_eq_false_2 by lia.
Qed.

(** X13. When the access order is exact and the cache is full, a [set] of a
    key that is not stored evicts exactly one entry, the one whose key is
    first in the access order, stores the new entry, keeps the cache full
    and keeps the access order exact. *)
Theorem cache_full_set_evicts_front (now : Z) key (v : V) (customTTL : option Z) this :
  orderExact this →
  1 ≤ maxSize this →
  stats_size this = maxSize this →
  cache this !! key = None →
  ∃ oldest rest,
    accessOrder this = oldest :: rest
    ∧ cache (set now key v customTTL this)
      = <[key := mkItem v (now + orDefault customTTL (ttl this))]>
          (delete oldest (cache this))
    ∧ accessOrder (set now key v customTTL this) = rest ++ [key]
    ∧ orderExact (set now key v customTTL this)
    ∧ stats_size (set now key v customTTL this) = maxSize this.
Proof.
  intros Hex Hpos Hfull Habs.
  destruct (evict_one this Hex Hpos Hfull) as (oldest & rest & Horder & Hin & Hev).
  exists oldest, rest. split; [done|].
  assert (Hord : orderExact (set now key v customTTL this)).
  { apply (CacheFacts.set_orderExact_absent RegExp_new now key v customTTL this Hex).
    rewrite Hev. cbn [fst].
    rewrite lookup_delete_None. by right. }
  unfold set in *. rewrite Hev in *. cbn [cache accessOrder] in *.
  split; [done|]. split; [done|]. split; [done|].
  unfold stats_size in *. cbn [cache].
  rewrite map_size_insert_None by (rewrite lookup_delete_None; by right).
  rewrite map_size_delete. destruct Hin as [item ->].
  pose proof (orderExact_size this Hex) as Hlen. rewrite Horder in Hlen.
  cbn in Hlen. lia.
Qed.

(** X14. A hit protects from the next eviction. When the access order is
    exact and the cache is full with room for at least two entries, then
    after a [get] that hits key [a], the [set] of a new key evicts some
    other entry: [a] is still stored, with the value it had. *)
Theorem cache_hit_survives_next_set (now now' : Z) (a b : string)
    (item : Item V) (v : V) (customTTL : option Z) this :
  orderExact this →
  2 ≤ maxSize this →
  stats_size this = maxSize this →
  cache this !! a = Some item →
  now ≤ expiry item →
  cache this !! b = None →
  (get now a this).1 = Some (value item)
  ∧ cache (set now' b v customTTL (get now a this).2) !! a = Some item.
Proof.
  intros Hex Hpos Hfull Ha Hlive Hb.
  pose proof (CacheFacts.get_orderExact RegExp_new now a this Hex) as Hex1.
  pose proof (orderExact_size this Hex) as Hlen.
  unfold get in *. rewrite Ha in *.
  rewrite bool_decide_eq_false_2 in * by lia. cbn [fst snd] in *.
  split; [done|].
  set (this1 := mkCache _ _ _ _) in *.
  destruct (cache_full_set_evicts_front now' b v customTTL this1 Hex1)
    as (oldest & rest & Horder & Hcache & _); [cbn; lia | done | done |].
  rewrite Hcache.
  assert (Hab : b ≠ a) by congruence.
  rewrite lookup_insert_ne by done.
  rewrite lookup_delete_ne; [done|]. intros ->.
  (* the front of the new order is not [a]: [a] was moved to the end and at
     least one other key is stored *)
  cbn [accessOrder this1] in Horder.
  destruct (without a (accessOrder this)) as [|x xs] eqn:Hw.
  - assert (Hall : ∀ k, k ∈ accessOrder this → k = a).
    { intros k Hk. destruct (decide (k = a)) as [|Hne]; [done|].
      assert (k ∈ without a (accessOrder this))
        by (by apply CacheFacts.elem_of_without).
      rewrite Hw in *. by apply elem_of_nil in H. }
    destruct Hex as [Hnd _]. unfold stats_size in Hfull.
    destruct (accessOrder this) as [|k1 [|k2 ks]]; cbn in Hlen; [lia | lia |].
    apply NoDup_cons in Hnd as [Hnin _]. apply Hnin.
    rewrite (Hall k1) by (by left). rewrite (Hall k2) by (right; by left). by left.
  - cbn in Horder. injection Horder as -> _.
    assert (Hin : a ∈ without a (accessOrder this)) by (rewrite Hw; by left).
    apply CacheFacts.elem_of_without in Hin. tauto.
Qed.

Lemma orderExact_new (m t : option Z) : orderExact (new (V:=V) m t).
Proof.
  split; cbn; [apply NoDup_nil_2|]. intros k. rewrite dom_empty_L.
  split; [by intros ?%elem_of_nil | by intros ?%elem_of_empty].
Qed.
End Facts.

Lemma twoEntries_orderExact : orderExact twoEntries.
Proof.
  unfold twoEntries.
  apply (CacheFacts.set_orderExact_absent startsWith); [|reflexivity].
  apply (CacheFacts.set_orderExact_absent startsWith); [|reflexivity].
  apply orderExact_new.
Qed.

Lemma cache_set_then_get_witness :
  (get 60000 "posts:{}" (set 0 "posts:{}" 7%nat (Some 60000) (new None None))).1 = Some 7%nat
  ∧ (get 60001 "posts:{}" (set 0 "posts:{}" 7%nat (Some 60000) (new None None))).1 = None.
Proof.
  destruct (cache_set_then_get startsWith 0 60000 "posts:{}" 7%nat (Some 60000)
              (new None None)) as [Hhit _].
  destruct (cache_set_then_get startsWith 0 60001 "posts:{}" 7%nat (Some 60000)
              (new None None)) as [_ Hmiss].
  split.
  - apply Hhit. vm_compute. discriminate.
  - apply Hmiss. reflexivity.
Defined.

Lemma cache_invalidate_effect_witness :
  cache (invalidate startsWith (Some "a") twoEntries).2 !! "a" = None
  ∧ cache (invalidate startsWith (Some "a") twoEntries).2 !! "b"
    = cache twoEntries !! "b".
Proof.
  destruct (cache_invalidate_effect startsWith "a" twoEntries) as [Hok _];
    [discriminate|].
  destruct (Hok (String.prefix "a") eq_refl) as (_ & Hlook & _).
  split; [exact (Hlook "a") | exact (Hlook "b")].
Defined.

Lemma cache_full_set_evicts_front_witness :
  cache (set 2 "c" 30%nat None twoEntries) !! "a" = None
  ∧ cache (set 2 "c" 30%nat None twoEntries) !! "b" = Some (mkItem 20%nat 300001).
Proof.
  destruct (cache_full_set_evicts_front startsWith 2 "c" 30%nat None twoEntries)
    as (oldest & rest & Horder & Hcache & _);
    [apply twoEntries_orderExact | vm_compute; discriminate | reflexivity
     | reflexivity |].
  injection Horder as <- <-. rewrite Hcache. split; reflexivity.
Defined.

Lemma cache_hit_survives_next_set_witness :
  cache (set 3 "c" 30%nat None (get 2 "a" twoEntries).2) !! "a"
  = Some (mkItem 10%nat 300000).
Proof.
  apply (cache_hit_survives_next_set startsWith 2 3 "a" "c" (mkItem 10%nat 300000)
           30%nat None twoEntries);
    [apply twoEntries_orderExact | vm_compute; discriminate | reflexivity
     | reflexivity | vm_compute; discriminate | reflexivity].
Defined.

End CacheExtra.

(** ** More on the subscription manager *)

Module SubscriptionExtra.
Import Errors Host Subscriptions.

(** X15. Change detection of a poll. When the fetch of a poll in flight
    settles with the value that the subscription saw last, no callback is
    invoked and nothing but the list of polls in flight changes. When it
    settles with another value, that value becomes [lastValue] and the
    callback is invoked with an [update] event carrying it; if this
    invocation returns (or throws [undefined]) it is the only one, and if
    it throws an error the callback is invoked a second time, with an
    [error] event carrying the message of what it threw. Either way a
    later poll of the same subscription settling with the value again is
    silent. When the fetch fails, the callback is invoked once with an
    [error] event carrying the message and [lastValue] stays. In no case
    is a timer or a registration touched. *)
Theorem poll_change_detection (k a : nat) (sub : Subscription) (m : Manager) :
  pending m !! k = Some a →
  heap m !! a = Some sub →
  (∀ onUpdate,
     delivered (fetchSettles k (Return (lastValue sub)) onUpdate m) = delivered m
     ∧ heap (fetchSettles k (Return (lastValue sub)) onUpdate m) = heap m)
  ∧ (∀ v onUpdate, v ≠ lastValue sub →
       let m1 := fetchSettles k (Return v) onUpdate m in
       delivered m1
       = delivered m
         ++ (a, mkEvent "update" (uri sub) v)
            :: match onUpdate with
               | Throw error => [(a, mkEvent "error" (uri sub) (message error))]
               | _ => []
               end
       ∧ heap m1 !! a = Some (mkSubscription (id sub) (uri sub) v (options sub))
       ∧ ∀ k' onUpdate', pending m1 !! k' = Some a →
           delivered (fetchSettles k' (Return v) onUpdate' m1) = delivered m1)
  ∧ (∀ e onUpdate,
       delivered (fetchSettles k (Throw e) onUpdate m)
       = delivered m ++ [(a, mkEvent "error" (uri sub) (message e))]
       ∧ heap (fetchSettles k (Throw e) onUpdate m) = heap m)
  ∧ (∀ result onUpdate,
       timers (fetchSettles k result onUpdate m) = timers m
       ∧ pollingIntervals (fetchSettles k result onUpdate m) = pollingIntervals m
       ∧ subscriptions (fetchSettles k result onUpdate m) = subscriptions m
       ∧ order (fetchSettles k result onUpdate m) = order m
       ∧ pending (fetchSettles k result onUpdate m) = delete k (pending m)).
Proof.
  intros Hk Ha.
  assert (Hlt : (a < length (heap m))%nat) by (by eapply lookup_lt_Some).
  split; [|split; [|split]].
  - intros onUpdate. unfold fetchSettles. rewrite Hk. cbn [heap]. rewrite Ha.
    by rewrite bool_decide_eq_false_2 by (intros H; by apply H).
  - intros v onUpdate Hv. cbv zeta.
    set (m2 := deliver a (mkEvent "update" (uri sub) v)
                 (mkManager
                    (<[a := mkSubscription (id sub) (uri sub) v (options sub)]> (heap m))
                    (subscriptions m) (order m) (pollingIntervals m) (timers m)
                    (nextTimer m) (delete k (pending m)) (delivered m))).
    assert (E : fetchSettles k (Return v) onUpdate m
                = match onUpdate with
                  | Throw error => pollCatch a sub error m2
                  | _ => m2
                  end).
    { unfold fetchSettles. rewrite Hk. cbn [heap]. rewrite Ha.
      rewrite bool_decide_eq_true_2 by done. by destruct onUpdate. }
    rewrite E.
    assert (Hheap : heap (match onUpdate with
                          | Throw error => pollCatch a sub error m2
                          | _ => m2
                          end)
                    = <[a := mkSubscription (id sub) (uri sub) v (options sub)]> (heap m))
      by (by destruct onUpdate).
    assert (Hpend : pending (match onUpdate with
                             | Throw error => pollCatch a sub error m2
                             | _ => m2
                             end) = delete k (pending m))
      by (by destruct onUpdate).
    split; [|split].
    + destruct onUpdate as [u|e|]; unfold pollCatch, m2; cbn [deliver delivered];
        by rewrite <- ?app_assoc.
    + rewrite Hheap. by apply list_lookup_insert_eq.
    + intros k' onUpdate' Hk'. unfold fetchSettles at 1. rewrite Hk'.
      cbn [heap]. rewrite Hheap. rewrite list_lookup_insert_eq by done.
      cbn [lastValue]. by rewrite bool_decide_eq_false_2 by (intros H; by apply H).
  - intros e onUpdate. unfold fetchSettles. rewrite Hk. cbn [heap]. by rewrite Ha.
  - intros result onUpdate. unfold fetchSettles. rewrite Hk. cbn [heap]. rewrite Ha.
    destruct result as [v|e|]; [case_bool_decide; [destruct onUpdate|]|..]; done.
Qed.

Lemma poll_change_detection_witness :
  let m := (subscribe "sub_1" "ghost/posts" (mkOptions None true) init).2 in
  delivered (fetchSettles 0 (Return "null") (Return tt) m) = []
  ∧ delivered (fetchSettles 0 (Return "[1]") (Throw (EError "callback failed" None)) m)
    = [(0%nat, mkEvent "update" "ghost/posts" "[1]");
       (0%nat, mkEvent "error" "ghost/posts" "callback failed")].
Proof.
  intros m.
  destruct (poll_change_detection 0 0 (mkSubscription "sub_1" "ghost/posts" "null"
              (mkOptions None true)) m eq_refl eq_refl)
    as (Hsame & Hupd & _).
  split; [apply Hsame|].
  destruct (Hupd "[1]" (Throw (EError "callback failed" None))) as (Hd & _);
    [discriminate | exact Hd].
Defined.

Lemma NoDup_omap {A B} (f : A → option B) (l : list A) :
  NoDup l →
  (∀ x y b, x ∈ l → y ∈ l → f x = Some b → f y = Some b → x = y) →
  NoDup (omap f l).
Proof.
  induction l as [|x l IH]; intros Hnd Hinj; [apply NoDup_nil_2|].
  apply NoDup_cons in Hnd as [Hx Hnd]. cbn [omap list_omap].
  assert (Hrest : NoDup (omap f l)).
  { apply IH; [done|]. intros y z b Hy Hz. apply Hinj; by right. }
  change (list_omap A B f l) with (omap f l).
  destruct (f x) as [b|] eqn:Hfx; [|done].
  apply NoDup_cons. split; [|done].
  intros (y & Hy & Hfy)%list_elem_of_omap.
  assert (x = y) as -> by (apply (Hinj x y b); [by left | by right | done | done]).
  done.
Qed.

Lemma uptoFirstThrow_prefix (outcomes : nat → Outcome unit) (l : list nat) :
  ∃ rest, l = uptoFirstThrow outcomes l ++ rest.
Proof.
  induction l as [|a l [rest IH]]; [by exists []|]. cbn [uptoFirstThrow].
  destruct (outcomes a).
  - exists rest. cbn. by rewrite <- IH.
  - by exists l.
  - by exists l.
Qed.

Lemma uptoFirstThrow_returns (outcomes : nat → Outcome unit) (l : list nat) :
  (∀ a, a ∈ l → isThrow (outcomes a) = false) →
  uptoFirstThrow outcomes l = l ∧ loopOutcome outcomes l = Return tt.
Proof.
  induction l as [|a l IH]; intros Hret; [done|]. cbn [uptoFirstThrow loopOutcome].
  pose proof (Hret a ltac:(by left)) as Ha.
  destruct (outcomes a); try discriminate Ha.
  destruct IH as [H1 H2]; [intros b Hb; apply Hret; by right|].
  by rewrite H1, H2.
Qed.

(** In a list without repetition an object is counted once or not at
    all. *)
Lemma count_invoked (a : nat) (ev : CallbackEvent) (l : list nat) :
  NoDup l →
  length (filter (λ d : nat * CallbackEvent, d.1 = a) (map (λ b, (b, ev)) l))
  = if bool_decide (a ∈ l) then 1%nat else 0%nat.
Proof.
  induction l as [|b l IH]; intros Hnd.
  - cbn. rewrite bool_decide_eq_false_2; [done|]. by intros ?%elem_of_nil.
  - apply NoDup_cons in Hnd as [Hb Hnd]. cbn [map].
    destruct (decide (b = a)) as [->|Hne].
    + rewrite filter_cons_True by done. cbn [length]. rewrite IH by done.
      rewrite (bool_decide_eq_false_2 (a ∈ l)) by done.
      rewrite bool_decide_eq_true_2; [done | by left].
    + rewrite filter_cons_False by done. rewrite IH by done.
      destruct (decide (a ∈ l)) as [Hin|Hnin].
      * rewrite !bool_decide_eq_true_2; [done | by right | done].
      * rewrite !bool_decide_eq_false_2; [done | | done].
        intros [?|?]%elem_of_cons; congruence.
Qed.

Lemma notifyLoop_cons (eventURI data eventType : string)
    (outcomes : nat → Outcome unit) (key : string) (keys : list string)
    (m : Manager) :
  notifyLoop eventURI data eventType outcomes (key :: keys) m
  = match matchOf eventURI m key with
    | None => notifyLoop eventURI data eventType outcomes keys m
    | Some a =>
        let m1 := deliver a (mkEvent eventType eventURI data) m in
        match outcomes a with
        | Return _ => notifyLoop eventURI data eventType outcomes keys m1
        | Throw error => (Throw error, m1)
        | ThrowUndefined => (ThrowUndefined, m1)
        end
    end.
Proof.
  cbn [notifyLoop]. unfold matchOf.
  destruct (subscriptions m !! key) as [b|]; [|done].
  destruct (heap m !! b) as [sub|]; [|done].
  by destruct (matchesSubscription (uri sub) eventURI).
Qed.

(** What the notification loop delivers: the event, to the matching
    objects under the keys it visits, in that order, up to and including
    the first whose callback throws. *)
Lemma notifyLoop_delivered (eventURI data eventType : string)
    (outcomes : nat → Outcome unit) (keys : list string) (m : Manager) :
  let r := notifyLoop eventURI data eventType outcomes keys m in
  let concerned := omap (matchOf eventURI m) keys in
  delivered r.2
  = delivered m
    ++ map (λ a, (a, mkEvent eventType eventURI data))
         (uptoFirstThrow outcomes concerned)
  ∧ r.1 = loopOutcome outcomes concerned.
Proof.
  cbv zeta. revert m. induction keys as [|key keys IH]; intros m.
  - cbn. by rewrite app_nil_r.
  - rewrite notifyLoop_cons. cbn [omap list_omap].
    change (list_omap string nat (matchOf eventURI m) keys)
      with (omap (matchOf eventURI m) keys).
    destruct (matchOf eventURI m key) as [b|]; [|apply IH].
    cbv zeta. cbn [uptoFirstThrow loopOutcome].
    destruct (outcomes b) as [u|e|]; [|by cbn..].
    destruct (IH (deliver b (mkEvent eventType eventURI data) m)) as [H1 H2].
    change (matchOf eventURI (deliver b (mkEvent eventType eventURI data) m))
      with (matchOf eventURI m) in H1, H2.
    rewrite H1, H2. cbn [deliver delivered map]. by rewrite <- app_assoc.
Qed.

(** X16. A notification, in any manager reached by calls and host events
    with unique subscription ids. [notifySubscribers] visits the
    registered subscriptions in the order of their registration and
    invokes the callback of each one whose URI matches the event URI (is
    equal to it, or one is a prefix of the other), once, until a callback
    throws: that ends the loop, the matching subscriptions registered later
    are not invoked, and [notifySubscribers] throws what the callback
    threw. When no callback throws, every matching registered subscription
    is invoked exactly once and the call returns. Subscriptions that do
    not match or are not registered are never invoked, and no [lastValue],
    poll, timer or registration changes. *)
Theorem notify_reaches_matching (acts : list Action)
    (eventURI data eventType : string) (outcomes : nat → Outcome unit) :
  admissible init acts = true →
  let m := run acts init in
  let r := notifySubscribers eventURI data eventType outcomes m in
  let invoked := uptoFirstThrow outcomes (matching eventURI m) in
  delivered r.2
  = delivered m ++ map (λ a, (a, mkEvent eventType eventURI data)) invoked
  ∧ r.1 = loopOutcome outcomes (matching eventURI m)
  ∧ NoDup (matching eventURI m)
  ∧ (∀ a, a ∈ matching eventURI m
          ↔ ∃ sid sub, subscriptions m !! sid = Some a ∧ heap m !! a = Some sub
                       ∧ matchesSubscription (uri sub) eventURI = true)
  ∧ (∀ a, callbacks a r.2
          = (callbacks a m + if bool_decide (a ∈ invoked) then 1 else 0)%nat)
  ∧ ((∀ a, a ∈ matching eventURI m → isThrow (outcomes a) = false) →
     invoked = matching eventURI m ∧ r.1 = Return tt)
  ∧ heap r.2 = heap m
  ∧ pending r.2 = pending m
  ∧ timers r.2 = timers m
  ∧ subscriptions r.2 = subscriptions m.
Proof.
  intros Hadm m r invoked.
  pose proof (SubscriptionFacts.consistent_run acts init
                SubscriptionFacts.consistent_init Hadm) as (_ & Hinj & _).
  pose proof (SubscriptionFacts.ordered_run acts init
                SubscriptionFacts.ordered_init) as [Hnd Hdom].
  fold m in Hinj, Hnd, Hdom.
  destruct (notifyLoop_delivered eventURI data eventType outcomes (order m) m)
    as [Hdel Hout].
  destruct (SubscriptionFacts.notify_facts eventURI data eventType outcomes m)
    as ((Hs & _ & _ & Ht & _) & Hpen & Hheap & _).
  fold (notifySubscribers eventURI data eventType outcomes m) in Hdel, Hout.
  fold (matching eventURI m) in Hdel, Hout. fold r in Hdel, Hout, Hs, Ht, Hpen, Hheap.
  fold invoked in Hdel.
  assert (Hmatch : NoDup (matching eventURI m)).
  { apply NoDup_omap; [done|]. intros x y b _ _ Hx Hy. unfold matchOf in Hx, Hy.
    destruct (subscriptions m !! x) as [bx|] eqn:Ex; [|done].
    destruct (subscriptions m !! y) as [by_|] eqn:Ey; [|done].
    destruct (heap m !! bx) as [sx|]; [|done].
    destruct (heap m !! by_) as [sy|]; [|done].
    destruct (matchesSubscription (uri sx) eventURI); [|done].
    destruct (matchesSubscription (uri sy) eventURI); [|done].
    simplify_eq. by eapply Hinj. }
  assert (Hinv : NoDup invoked).
  { destruct (uptoFirstThrow_prefix outcomes (matching eventURI m)) as [rest Hrest].
    fold invoked in Hrest. rewrite Hrest in Hmatch. by apply NoDup_app in Hmatch as [? _]. }
  split; [done|]. split; [done|]. split; [done|]. split; [|split; [|split]].
  - intros a. unfold matching. rewrite list_elem_of_omap. split.
    + intros (key & _ & Hkey). unfold matchOf in Hkey.
      destruct (subscriptions m !! key) as [b|] eqn:Eb; [|done].
      destruct (heap m !! b) as [sub|] eqn:Es; [|done].
      destruct (matchesSubscription (uri sub) eventURI) eqn:Em; [|done].
      simplify_eq. by exists key, sub.
    + intros (sid & sub & Hsid & Hsub & Hm). exists sid.
      split; [apply Hdom; by rewrite Hsid|]. unfold matchOf.
      by rewrite Hsid, Hsub, Hm.
  - intros a. unfold callbacks. rewrite Hdel, filter_app, length_app.
    by rewrite count_invoked.
  - intros Hret. subst invoked. rewrite Hout.
    by apply uptoFirstThrow_returns.
  - done.
Qed.

Lemma notify_reaches_matching_witness :
  let acts := [Subscribe "sub_1" "ghost/posts" (mkOptions None false);
               Subscribe "sub_2" "ghost/posts/42" (mkOptions None false);
               Subscribe "sub_3" "ghost/tags" (mkOptions None false)] in
  let failed := EError "callback failed" None in
  let outcomes := λ a : nat, if bool_decide (a = 0%nat) then Throw failed else Return tt in
  let r := notifySubscribers "ghost/posts/42" "{}" "update" outcomes (run acts init) in
  delivered r.2 = [(0%nat, mkEvent "update" "ghost/posts/42" "{}")]
  ∧ r.1 = Throw failed.
Proof.
  intros acts failed outcomes r.
  destruct (notify_reaches_matching acts "ghost/posts/42" "{}" "update" outcomes eq_refl)
    as (H1 & H2 & _).
  split; [etrans; [exact H1 | vm_compute; reflexivity]
         | etrans; [exact H2 | vm_compute; reflexivity]].
Defined.

(** X17. No timer is leaked. After any admissible sequence of calls and
    host events, every live interval timer polls for a subscription that is
    still registered and is the timer recorded for its id; in particular,
    once every subscription has been removed no timer is left. *)
Theorem no_timer_outlives_its_subscription (acts : list Action) :
  admissible init acts = true →
  let m := run acts init in
  (∀ h t, timers m !! h = Some t →
     ∃ sid, subscriptions m !! sid = Some (target t)
            ∧ pollingIntervals m !! sid = Some h)
  ∧ (subscriptions m = ∅ → timers m = ∅).
Proof.
  intros Hadm. cbv zeta.
  destruct (SubscriptionFacts.consistent_run acts init
              SubscriptionFacts.consistent_init Hadm) as (_ & _ & Htim & _).
  split; [done|]. intros Hempty. apply map_empty. intros h.
  destruct (timers (run acts init) !! h) as [t|] eqn:Ht; [|done].
  destruct (Htim h t Ht) as (sid & Hs & _). rewrite Hempty in Hs.
  by rewrite lookup_empty in Hs.
Qed.

Lemma no_timer_outlives_its_subscription_witness :
  timers (run [Subscribe "sub_1" "ghost/posts" (mkOptions (Some 5000) true);
               TimerFires 0; Unsubscribe "sub_1"] init) = ∅.
Proof.
  apply (no_timer_outlives_its_subscription
           [Subscribe "sub_1" "ghost/posts" (mkOptions (Some 5000) true);
            TimerFires 0; Unsubscribe "sub_1"]); reflexivity.
Defined.

End SubscriptionExtra.

(** ** Rate limiter *)

Module RateLimitFacts.
Import Errors Host RateLimit.

Lemma recent_recent (c1 c2 : Z) (times : list Z) :
  c1 ≤ c2 → recent c2 (recent c1 times) = recent c2 times.
Proof.
  intros Hc. unfold recent. induction times as [|t times IH]; [done|].
  destruct (decide (c1 < t)) as [H1|H1].
  - rewrite (filter_cons_True (λ time, c1 < time)) by done.
    destruct (decide (c2 < t)).
    + rewrite !(filter_cons_True (λ time, c2 < time)) by done. by rewrite IH.
    + rewrite !(filter_cons_False (λ time, c2 < time)) by done. done.
  - rewrite (filter_cons_False (λ time, c1 < time)) by done.
    rewrite (filter_cons_False (λ time, c2 < time)) by lia. done.
Qed.

Lemma recent_snoc (c now : Z) (times : list Z) :
  c < now → recent c (times ++ [now]) = recent c times ++ [now].
Proof.
  intros Hc. unfold recent. rewrite filter_app. f_equal.
  by rewrite filter_cons_True.
Qed.

Lemma cleanup_lookup (now : Z) (key : string) (this : RateLimiter) :
  default [] (requests (cleanup now this) !! key)
  = recent (now - windowMs this) (default [] (requests this !! key)).
Proof.
  unfold cleanup. cbn [requests]. rewrite lookup_omap.
  destruct (requests this !! key) as [times|]; [|done]. cbn.
  case_bool_decide as Hlen; [|done]. cbn.
  apply nil_length_inv in Hlen. symmetry. exact Hlen.
Qed.

Lemma timesOf_snoc (key key' : string) (now : Z) (served : list (string * Z)) :
  timesOf key (served ++ [(key', now)])
  = timesOf key served ++ (if decide (key' = key) then [now] else []).
Proof.
  unfold timesOf. rewrite omap_app. f_equal. cbn. by destruct (decide (key' = key)).
Qed.

(** The list that the middleware examines is the arrivals of the key within
    the window that ends at the request, this request included. *)
Lemma middleware_requestTimes (last now : Z) (key : string)
    (served : list (string * Z)) (this : RateLimiter) :
  tracks last served this → last ≤ now → 0 < windowMs this →
  default [] (requests (cleanup now this) !! key) ++ [now]
  = recent (now - windowMs this) (timesOf key (served ++ [(key, now)])).
Proof.
  intros Htr Hlast Hw. rewrite cleanup_lookup, Htr, recent_recent by lia.
  rewrite timesOf_snoc. rewrite decide_True by done.
  rewrite recent_snoc by lia. done.
Qed.

Lemma middleware_tracks (last now : Z) (key : string)
    (served : list (string * Z)) (this : RateLimiter) :
  tracks last served this → last ≤ now → 0 < windowMs this →
  tracks now (served ++ [(key, now)]) (middleware key now this).2
  ∧ windowMs (middleware key now this).2 = windowMs this
  ∧ maxRequests (middleware key now this).2 = maxRequests this.
Proof.
  intros Htr Hlast Hw.
  assert (Hfields : windowMs (middleware key now this).2 = windowMs this
                    ∧ maxRequests (middleware key now this).2 = maxRequests this).
  { unfold middleware. by case_bool_decide. }
  split; [|done]. intros key'. destruct Hfields as [-> _].
  assert (Hreq : requests (middleware key now this).2
                 = <[key := default [] (requests (cleanup now this) !! key) ++ [now]]>
                     (requests (cleanup now this))).
  { unfold middleware. by case_bool_decide. }
  rewrite Hreq. destruct (decide (key = key')) as [<-|Hne].
  - rewrite lookup_insert_eq. cbn [default].
    by apply (middleware_requestTimes last).
  - rewrite lookup_insert_ne by done.
    rewrite cleanup_lookup, Htr, recent_recent by lia.
    rewrite timesOf_snoc. rewrite decide_False by done. by rewrite app_nil_r.
Qed.

Lemma ceilSeconds_bounds (x w : Z) :
  0 < x → x ≤ w → 1 ≤ ceilSeconds x ≤ ceilSeconds w.
Proof.
  intros Hx Hw. unfold ceilSeconds. split.
  - assert (- x / 1000 < 0) by (apply Z.div_lt_upper_bound; lia). lia.
  - assert (- w / 1000 ≤ - x / 1000) by (apply Z.div_le_mono; lia). lia.
Qed.

(** The answer to one request, read off the arrivals so far. *)
Lemma middleware_verdict (last now : Z) (key : string)
    (served : list (string * Z)) (this : RateLimiter) :
  tracks last served this → last ≤ now → 0 < windowMs this →
  (∀ t, t ∈ served.*2 → t ≤ last) →
  let n := arrivedSince (now - windowMs this) key (served ++ [(key, now)]) in
  (n ≤ maxRequests this → (middleware key now this).1 = None)
  ∧ (maxRequests this < n →
     ∃ retryAfter, (middleware key now this).1 = Some (ERateLimit retryAfter)
                   ∧ 1 ≤ retryAfter ≤ ceilSeconds (windowMs this)).
Proof.
  intros Htr Hlast Hw Hbound n. subst n. unfold arrivedSince.
  pose proof (middleware_requestTimes last now key served this Htr Hlast Hw) as Hrt.
  unfold middleware. rewrite Hrt. split; intros Hn.
  - by rewrite bool_decide_eq_false_2 by (by apply Z.le_ngt).
  - rewrite bool_decide_eq_true_2 by done. cbn [fst]. eexists. split; [done|].
    destruct (recent _ _) as [|t0 rest] eqn:Hrec;
      [by destruct (default [] (requests (cleanup now this) !! key))|].
    cbn [head default].
    assert (Hin : t0 ∈ recent (now - windowMs this) (timesOf key (served ++ [(key, now)])))
      by (rewrite Hrec; by left).
    unfold recent in Hin. apply list_elem_of_filter in Hin as [Hlo Hin].
    assert (Hhi : t0 ≤ now).
    { rewrite timesOf_snoc, decide_True in Hin by done.
      apply elem_of_app in Hin as [Hin|Hin].
      - etrans; [|exact Hlast]. apply Hbound. unfold timesOf in Hin.
        apply list_elem_of_omap in Hin as ([k t] & Hr & Ht). cbn in Ht.
        destruct (decide (k = key)); simplify_eq.
        apply list_elem_of_fmap. by eexists (_, t0).
      - apply list_elem_of_singleton in Hin. lia. }
    unfold id. apply ceilSeconds_bounds; lia.
Qed.

Lemma serve_lookup (reqs served : list (string * Z)) (this : RateLimiter)
    (last : Z) (i : nat) (key : string) (t : Z) :
  tracks last served this → 0 < windowMs this →
  (∀ t', t' ∈ served.*2 → t' ≤ last) →
  Forall (λ t', last ≤ t') reqs.*2 →
  StronglySorted Z.le reqs.*2 →
  reqs !! i = Some (key, t) →
  let n := arrivedSince (t - windowMs this) key (served ++ take (Datatypes.S i) reqs) in
  (n ≤ maxRequests this → serve this reqs !! i = Some None)
  ∧ (maxRequests this < n →
     ∃ retryAfter, serve this reqs !! i = Some (Some (ERateLimit retryAfter))
                   ∧ 1 ≤ retryAfter ≤ ceilSeconds (windowMs this)).
Proof.
  revert served this last i.
  induction reqs as [|[k now] reqs IH]; intros served this last i Htr Hw Hb Hge Hs Hi;
    [done|].
  cbn [fmap list_fmap] in Hge, Hs. apply Forall_cons in Hge as [Hnow Hge].
  apply StronglySorted_inv in Hs as [Hs Hall].
  destruct i as [|i].
  - cbn in Hi. injection Hi as -> ->. cbn [take serve lookup list_lookup fst snd].
    destruct (middleware_verdict last t key served this Htr Hnow Hw Hb) as [H1 H2].
    split; [intros Hn; by rewrite H1|].
    intros Hn. destruct (H2 Hn) as (ra & -> & Hra). by exists ra.
  - cbn in Hi. cbn [serve fst snd].
    destruct (middleware_tracks last now k served this Htr Hnow Hw) as (Htr' & Hw' & Hm').
    change (take (Datatypes.S (Datatypes.S i)) ((k, now) :: reqs))
      with ((k, now) :: take (Datatypes.S i) reqs).
    rewrite (cons_middle (k, now)), app_assoc.
    rewrite <- Hw', <- Hm'.
    cbn [snd] in Hnow, Hall.
    apply (IH (served ++ [(k, now)]) _ now i);
      [done | by rewrite Hw' | | done | done | done].
    intros t'. rewrite fmap_app, elem_of_app. intros [Ht'|Ht'].
    + specialize (Hb t' Ht'). lia.
    + cbn in Ht'. apply list_elem_of_singleton in Ht'. lia.
Qed.

(** X18. Sliding window. With a positive window and requests arriving at
    non-decreasing clock readings, a new limiter admits a request exactly
    when the requests of its key that arrived within the window ending at
    it, itself and the rejected ones included, number at most
    [maxRequests]; otherwise it answers with a [RateLimitError] whose
    [retryAfter] is at least 1 and at most the window in seconds, rounded
    up. *)
Theorem rate_limiter_sliding_window (opts : Options) (reqs : list (string * Z))
    (i : nat) (key : string) (t : Z) :
  0 < windowMs (new opts) →
  StronglySorted Z.le reqs.*2 →
  reqs !! i = Some (key, t) →
  let n := arrivedSince (t - windowMs (new opts)) key (take (Datatypes.S i) reqs) in
  (n ≤ maxRequests (new opts) → serve (new opts) reqs !! i = Some None)
  ∧ (maxRequests (new opts) < n →
     ∃ retryAfter,
       serve (new opts) reqs !! i = Some (Some (ERateLimit retryAfter))
       ∧ 1 ≤ retryAfter ≤ ceilSeconds (windowMs (new opts))).
Proof.
  intros Hw Hs Hi.
  assert (Hmin : ∃ last, Forall (λ t', last ≤ t') reqs.*2).
  { destruct reqs as [|[k0 t0] reqs]; [done|]. exists t0.
    cbn in Hs |- *. apply StronglySorted_inv in Hs as [_ Hall].
    apply Forall_cons. split; [lia | done]. }
  destruct Hmin as [last Hlast].
  apply (serve_lookup reqs [] (new opts) last i key t); try done.
  intros t' Ht'. by apply elem_of_nil in Ht'.
Qed.

(** X19. After every request served with a positive window, every key that
    the limiter still holds has at least one recorded time, and every
    recorded time lies within the window that ends at that request: keys
    without a recent request are dropped. *)
Theorem rate_limiter_keeps_only_window (key : string) (now : Z) (this : RateLimiter) :
  0 < windowMs this →
  ∀ key' times, requests (middleware key now this).2 !! key' = Some times →
    times ≠ [] ∧ Forall (λ t, now - windowMs this < t) times.
Proof.
  intros Hw key' times.
  assert (Hreq : requests (middleware key now this).2
                 = <[key := default [] (requests (cleanup now this) !! key) ++ [now]]>
                     (requests (cleanup now this))).
  { unfold middleware. by case_bool_decide. }
  rewrite Hreq. destruct (decide (key = key')) as [<-|Hne].
  - rewrite lookup_insert_eq. intros [= <-]. split; [by destruct (default _ _)|].
    apply Forall_app. split; [|apply Forall_singleton; lia].
    pose proof (cleanup_lookup now key this) as Hc.
    unfold cleanup in Hc. cbn [requests] in Hc. rewrite Hc.
    unfold recent. apply Forall_forall.
    by intros t [Ht _]%list_elem_of_filter.
  - rewrite lookup_insert_ne by done. unfold cleanup. cbn [requests].
    rewrite lookup_omap. destruct (requests this !! key') as [ts|]; [|done]. cbn.
    case_bool_decide as Hlen; [done|]. intros [= <-].
    split; [by destruct (recent _ ts)|].
    unfold recent. apply Forall_forall. by intros t [Ht _]%list_elem_of_filter.
Qed.

Lemma rate_limiter_sliding_window_witness :
  let reqs := [("10.0.0.1", 0); ("10.0.0.1", 10); ("10.0.0.2", 20); ("10.0.0.1", 30)] in
  let opts := mkOptions (Some 1000) (Some 2) in
  serve (new opts) reqs !! 1%nat = Some None
  ∧ ∃ retryAfter, serve (new opts) reqs !! 3%nat = Some (Some (ERateLimit retryAfter)).
Proof.
  intros reqs opts.
  assert (Hs : StronglySorted Z.le reqs.*2).
  { cbn. repeat (constructor; [|repeat constructor; lia]). constructor. }
  split.
  - destruct (rate_limiter_sliding_window opts reqs 1 "10.0.0.1" 10) as [Hok _];
      [reflexivity | exact Hs | reflexivity |].
    apply Hok. vm_compute. discriminate.
  - destruct (rate_limiter_sliding_window opts reqs 3 "10.0.0.1" 30) as [_ Hno];
      [reflexivity | exact Hs | reflexivity |].
    destruct Hno as (ra & Hra & _); [reflexivity|]. by exists ra.
Defined.

Lemma rate_limiter_keeps_only_window_witness :
  let this := (middleware "10.0.0.1" 0 (new (mkOptions (Some 1000) (Some 2)))).2 in
  requests (middleware "10.0.0.2" 5000 this).2 !! "10.0.0.1" = None
  ∧ ([5000] ≠ [] ∧ Forall (λ t, 5000 - windowMs this < t) [5000]).
Proof.
  intros this. split; [reflexivity|].
  apply (rate_limiter_keeps_only_window "10.0.0.2" 5000 this ltac:(reflexivity)
           "10.0.0.2" [5000]).
  reflexivity.
Defined.

End RateLimitFacts.

(** ** Requests to Ghost: retry around the circuit breaker *)

Module ExecutorFacts.
Import Errors Host Breaker Retry Runs Executor.

Section Facts.
Context {U V : Type}.
Variable clock : nat → Z.
Variable rnd : nat → Q.
Variable apiCall : U → (UpstreamError + V) * U.
Variable operation : string.
Implicit Types (st : Shared U) (rt : Runtime (Shared U)).

Lemma effective_maxRetries (maxRetries : option Z) :
  orDefault (Some (default 3 maxRetries)) 3 = orDefault maxRetries 3.
Proof.
  destruct maxRetries as [n|]; [done|]. unfold orDefault. cbn.
  by rewrite bool_decide_eq_false_2.
Qed.




(** [handleApiRequest] of a known action: the retry loop, and the [catch]
    block on its outcome. *)
Lemma handleApiRequest_run (maxRetries : option Z) (useCircuitBreaker : option bool) rt :
  handleApiRequest (V:=V) clock rnd apiCall operation true maxRetries
    useCircuitBreaker rt
  = let r := retryWithBackoff rnd
               (wrappedExecute (V:=V) clock apiCall operation
                  (default true useCircuitBreaker))
               (Some (default 3 maxRetries)) rt in
    (match r.1 with
     | ThrowUndefined => Throw messageOfUndefined
     | settled => settled
     end, r.2).
Proof.
  unfold handleApiRequest, bind, ret. cbn [negb].
  by destruct (retryWithBackoff _ _ _ rt) as [[v|e|] rt'].
Qed.



(** An open breaker before its deadline: the gate reads the clock and turns
    the request away. *)
Lemma guarded_rejects st :
  state st.1 = OPEN →
  clock (nowReads st.2) < default 0 (nextAttempt st.1) →
  wrappedExecute (V:=V) clock apiCall operation true st
  = (Throw rejection, (st.1, afterGate st.2)).
Proof.
  intros Hst Hnow. unfold wrappedExecute.
  by rewrite BreakerFacts.execute_open_rejects.
Qed.

(** The shared state after [k] calls at the gate of an open breaker whose
    deadline lies beyond the clock reads of [bound] calls: the clock was
    read [k] times and nothing else happened. *)
Lemma guarded_open_afterCalls (bound k : nat) (b : CircuitBreaker) (rti : Runtime U) :
  state b = OPEN →
  (∀ j, (j < bound)%nat → clock (nowReads rti + j) < default 0 (nextAttempt b)) →
  (k ≤ bound)%nat →
  afterCalls (wrappedExecute (V:=V) clock apiCall operation true) k (b, rti)
  = (b, mkRuntime (user rti) (nowReads rti + k) (randomReads rti) (events rti)).
Proof.
  intros Hst Hclk. induction k as [|k IH]; intros Hk.
  - unfold afterCalls. cbn [Nat.iter]. rewrite Nat.add_0_r. by destruct rti.
  - change (afterCalls ?fn (Datatypes.S k) ?s) with (advance fn (afterCalls fn k s)).
    rewrite IH by lia. unfold advance.
    rewrite guarded_rejects; cbn [fst snd nowReads]; [|done | apply Hclk; lia].
    unfold afterGate. cbn [user nowReads randomReads events].
    by rewrite Nat.add_succ_r.
Qed.




(** X21. While the breaker is OPEN and the clock stays before its deadline,
    a request never reaches the Ghost client, yet it is not turned away at
    once: the rejection being retryable, the gate is asked [maxRetries]
    times (an integer of at least 1; 3 when the option is absent or 0). The
    events of the request are a look at the gate, then for each of the
    [maxRetries - 1] retries a sleep, the [onRetry] with the rejection and
    the next look at the gate, in this order; only then is the rejection
    thrown. Of the shared state only the count of clock reads moves, by one
    for each look at the gate: the breaker is left as it was. *)
Theorem open_breaker_request_waits_without_calling (maxRetries : option Z) (n : Z) rt :
  orDefault maxRetries 3 = n →
  1 ≤ n →
  state (breakerOf rt) = OPEN →
  (∀ j, (j < Z.to_nat n)%nat →
     clock (nowReads (user rt).2 + j) < default 0 (nextAttempt (breakerOf rt))) →
  let res := handleApiRequest (V:=V) clock rnd apiCall operation true maxRetries
               None rt in
  res.1 = Throw rejection
  ∧ (∃ retries : list Retry,
       events res.2 = events rt ++ retryTrace retries
       ∧ length retries = (Z.to_nat n - 1)%nat
       ∧ map retry_attempt retries = map Z.of_nat (seq 1 (length retries))
       ∧ sleeps res.2 = sleeps rt ++ map retry_delay retries
       ∧ Forall (λ r, retry_error r = rejection
                      ∧ ∃ q, retry_delay r = getRetryDelay q (retry_attempt r) rejection)
           retries)
  ∧ user res.2
    = (breakerOf rt,
       mkRuntime (user (user rt).2) (nowReads (user rt).2 + Z.to_nat n)
         (randomReads (user rt).2) (events (user rt).2))
  ∧ upstreamCalls res.2 = upstreamCalls rt
  ∧ invocations res.2 = (invocations rt + Z.to_nat n)%nat
  ∧ breakerOf res.2 = breakerOf rt.
Proof.
  intros Hn Hpos Hst Hclk res. subst res.
  rewrite handleApiRequest_run. cbn [default]. cbv zeta.
  unfold retryWithBackoff, attempts. rewrite effective_maxRetries, Hn.
  destruct (Z.to_nat n) as [|m] eqn:Hm; [lia|].
  assert (n = Z.of_nat (1 + m)) as -> by lia.
  replace (Datatypes.S m - 1)%nat with m by lia.
  destruct (RetryExtra.retryLoop_trace rnd
              (wrappedExecute (V:=V) clock apiCall operation true) m 1 None rt)
    as (retries & H1 & H2 & H3 & H4 & H5 & H6 & H7 & H8).
  cbv zeta in H7, H8.
  unfold breakerOf, upstreamCalls in *.
  destruct (user rt) as [b rti] eqn:Hu. cbn [fst snd] in *.
  assert (Hcall : ∀ k, (k ≤ m)%nat →
            (wrappedExecute (V:=V) clock apiCall operation true
               (afterCalls (wrappedExecute (V:=V) clock apiCall operation true)
                  k (b, rti))).1
            = Throw rejection).
  { intros k Hk.
    rewrite (guarded_open_afterCalls (Datatypes.S m)) by (done || lia).
    rewrite guarded_rejects; cbn [fst snd nowReads]; [done | done | apply Hclk; lia]. }
  assert (Hlen : length retries = m).
  { destruct (decide (length retries < m)%nat) as [Hlt|]; [|lia].
    specialize (H8 Hlt). rewrite Hcall in H8 by lia. discriminate. }
  rewrite Hlen in H5, H7. rewrite Hcall in H7 by lia.
  destruct H7 as [H7|[H7 _]]; [|discriminate].
  rewrite H7, H5.
  rewrite (guarded_open_afterCalls (Datatypes.S m)) by (done || lia).
  cbn [fst snd]. split; [done|].
  split.
  { exists retries. split; [done|]. split; [done|]. split; [done|].
    split; [by eapply RetryExtra.sleeps_retryTrace|].
    apply Forall_lookup. intros i r Hi.
    destruct (H4 i r Hi) as (Hr & _ & Hq).
    rewrite Hcall in Hr by (apply lookup_lt_Some in Hi; lia).
    assert (retry_error r = rejection) as Hrej by (by simplify_eq).
    split; [done|]. by rewrite <- Hrej. }
  split; [done|]. split; [done|]. split; [|done].
  by eapply RetryExtra.invocations_retryTrace in H1; rewrite H1, Hlen.
Qed.


(** X29. [handleApiRequest] with a negative integer for [maxRetries]: the
    loop of [retryWithBackoff] has no attempt to make and throws its
    [lastError], which is still [undefined]; the [catch] block of
    [handleApiRequest] reads [error.message] of it, and the request ends
    with the [TypeError] of that read. Neither the breaker nor the Ghost
    client is reached, and no clock or random number is read. *)
Theorem negative_maxRetries_ends_in_type_error (n : Z)
    (useCircuitBreaker : option bool) rt :
  n < 0 →
  handleApiRequest (V:=V) clock rnd apiCall operation true (Some n)
    useCircuitBreaker rt
  = (Throw messageOfUndefined, rt).
Proof.
  intros Hn. rewrite handleApiRequest_run. cbv zeta.
  unfold retryWithBackoff, attempts. rewrite (effective_maxRetries (Some n)).
  unfold orDefault. rewrite bool_decide_eq_false_2 by lia.
  replace (Z.to_nat n) with 0%nat by lia. reflexivity.
Qed.
End Facts.

Section GetPostFacts.
Context {U V : Type}.
Variable clock : nat → Z.
Variable rnd : nat → Q.
Variable read : string → U → (UpstreamError + V) * U.

End GetPostFacts.


Lemma open_breaker_request_waits_without_calling_witness :
  let apiCall := λ u : nat, (@inr UpstreamError unit tt, Datatypes.S u) in
  let this := mkBreaker 5 60000 10000 OPEN 5 (Some 0) (Some 60000) in
  let rt := start (this, start 0%nat) in
  let res := handleApiRequest (λ k, 1000 * Z.of_nat k) (λ _, 0%Q) apiCall "posts.read"
               true None None rt in
  res.1 = Throw rejection
  ∧ upstreamCalls res.2 = 0%nat
  ∧ invocations res.2 = 3%nat
  ∧ ∃ retries, events res.2 = retryTrace retries ∧ length retries = 2%nat.
Proof.
  intros apiCall this rt res.
  destruct (open_breaker_request_waits_without_calling
              (λ k, 1000 * Z.of_nat k) (λ _, 0%Q) apiCall "posts.read" None 3 rt)
    as (H1 & (retries & H2 & H3 & _) & _ & H4 & H5 & _);
    [reflexivity | lia | reflexivity | |].
  - intros j Hj. cbn. lia.
  - split; [exact H1|]. split; [exact H4|]. split; [exact H5|].
    exists retries. split; [exact H2 | exact H3].
Defined.

Lemma negative_maxRetries_ends_in_type_error_witness :
  let apiCall := λ u : nat, (@inr UpstreamError unit tt, Datatypes.S u) in
  let rt := start (Breaker.new (mkOptions None None None), start 0%nat) in
  handleApiRequest (λ k, Z.of_nat k) (λ _, 0%Q) apiCall "posts.browse"
    true (Some (-1)) None rt
  = (Throw (EError "Cannot read properties of undefined (reading 'message')" None), rt).
Proof.
  intros apiCall rt.
  apply (negative_maxRetries_ends_in_type_error
           (λ k, Z.of_nat k) (λ _, 0%Q) apiCall "posts.browse" (-1) None rt).
  lia.
Defined.



End ExecutorFacts.

(** ** Error metrics *)

Module MetricsFacts.
Import Errors Host Metrics.

Lemma orDefault_zero (x : option Z) : orDefault x 0 = default 0 x.
Proof.
  destruct x as [v|]; [|done]. unfold orDefault. by case_bool_decide.
Qed.

Lemma bump_lookup `{Countable K} (key k : K) (counts : gmap K Z) :
  default 0 (bump key counts !! k)
  = default 0 (counts !! k) + (if bool_decide (k = key) then 1 else 0).
Proof.
  unfold bump. rewrite orDefault_zero. case_bool_decide as Hk.
  - subst k. by rewrite lookup_insert_eq.
  - rewrite lookup_insert_ne by done. lia.
Qed.

Lemma bump_positive `{Countable K} (key k : K) (n : Z) (counts : gmap K Z) :
  (∀ k' n', counts !! k' = Some n' → 1 ≤ n') →
  bump key counts !! k = Some n → 1 ≤ n.
Proof.
  intros Hpos. unfold bump. rewrite orDefault_zero.
  destruct (decide (k = key)) as [->|Hne].
  - rewrite lookup_insert_eq. intros [= <-].
    destruct (counts !! key) as [v|] eqn:E; cbn; [|lia].
    specialize (Hpos _ _ E). lia.
  - rewrite lookup_insert_ne by done. apply Hpos.
Qed.

Lemma run_snoc (calls : list Call) (c : Call) (this : ErrorMetrics) :
  run (calls ++ [c]) this = step (run calls this) c.
Proof. unfold run. by rewrite foldl_app. Qed.

Lemma sinceReset_snoc (calls : list Call) (c : Call) :
  sinceReset (calls ++ [c])
  = match c with
    | RecordError error _ => sinceReset calls ++ [error]
    | Reset _ => []
    end.
Proof. unfold sinceReset. by rewrite foldl_app. Qed.

Lemma count_snoc {A} (P : A → Prop) `{∀ x, Decision (P x)} (l : list A) (x : A) :
  Z.of_nat (length (filter P (l ++ [x])))
  = Z.of_nat (length (filter P l)) + (if bool_decide (P x) then 1 else 0).
Proof.
  rewrite filter_app, length_app. case_bool_decide.
  - rewrite filter_cons_True by done. cbn. lia.
  - rewrite filter_cons_False by done. cbn. lia.
Qed.

(** X24. The counters of the collector are exact. After any sequence of
    [recordError] and [reset] calls on a new collector, [totalErrors] is
    the number of errors recorded since the last reset, the counter of each
    status code is the number of those whose [statusCode] (500 when it has
    none) is that code, the counter of each class name is the number of
    those of that class, and no counter is present with a value below 1. *)
Theorem metrics_count_recorded_errors (t0 : Z) (calls : list Call) :
  let m := run calls (new t0) in
  let errs := sinceReset calls in
  totalErrors m = Z.of_nat (length errs)
  ∧ (∀ c, default 0 (errorsByStatusCode m !! c)
          = Z.of_nat (length (filter (λ e, orDefault (statusCode e) 500 = c) errs)))
  ∧ (∀ name, default 0 (errorsByType m !! name)
             = Z.of_nat (length (filter (λ e, className (classOf e) = name) errs)))
  ∧ (∀ c n, errorsByStatusCode m !! c = Some n → 1 ≤ n)
  ∧ (∀ name n, errorsByType m !! name = Some n → 1 ≤ n).
Proof.
  cbv zeta. induction calls as [|c calls IH] using rev_ind.
  - cbn. split; [done|]. split; [done|]. split; [done|].
    split; intros k n Hk; by rewrite lookup_empty in Hk.
  - destruct IH as (Htot & Hst & Hty & Hpst & Hpty).
    rewrite run_snoc, sinceReset_snoc. destruct c as [error endpoint|now].
    + cbn [step recordError totalErrors errorsByStatusCode errorsByType].
      split; [rewrite Htot, length_app; cbn; lia|].
      split; [intros c; rewrite bump_lookup, count_snoc, Hst;
              repeat case_bool_decide; congruence|].
      split; [intros name; rewrite bump_lookup, count_snoc, Hty;
              repeat case_bool_decide; congruence|].
      split; intros k n; by apply bump_positive.
    + cbn. split; [done|]. split; [done|]. split; [done|].
      split; intros k n Hk; by rewrite lookup_empty in Hk.
Qed.

End MetricsFacts.

(** ** Pagination of tags *)

Module TagsFacts.
Import Host Fetcher Tags.

(** With a positive limit, page [p >= 1] is the chunk of [limit] items
    behind the first [(p - 1) * limit]. *)
Lemma page_chunk {A} (l : list A) (limit p : Z) :
  1 ≤ limit → 1 ≤ p →
  data (paginate l limit p)
  = take (Z.to_nat limit) (drop (Z.to_nat ((p - 1) * limit)) l).
Proof.
  intros Hl Hp. unfold paginate, slice, relativeIndex. cbn [data].
  set (len := Z.of_nat (length l)). set (start := (p - 1) * limit).
  assert (0 ≤ start) by (subst start; nia).
  rewrite !bool_decide_eq_false_2 by lia.
  destruct (decide (len ≤ start)) as [Hge|Hlt].
  - rewrite (drop_ge l (Z.to_nat start)) by (subst len; lia).
    rewrite take_nil. rewrite !Z.min_r by lia.
    replace (len - len) with 0 by lia. done.
  - rewrite (Z.min_l start len) by lia.
    destruct (decide (start + limit ≤ len)) as [Hin|Hout].
    + rewrite Z.min_l by lia. by replace (start + limit - start) with limit by lia.
    + rewrite Z.min_r by lia.
      rewrite !take_ge; [done | |]; rewrite length_drop; subst len; lia.
Qed.

Lemma chunks_concat {A} (l : list A) (L n : nat) :
  concat (map (λ p, take L (drop ((p - 1) * L) l)) (seq 1 n)) = take (n * L) l.
Proof.
  induction n as [|n IH]; [done|].
  rewrite seq_S, map_app, concat_app, IH. cbn [map concat Nat.add].
  rewrite app_nil_r. replace (Datatypes.S n - 1)%nat with n by lia.
  rewrite take_take_drop. f_equal. lia.
Qed.

Lemma ceilDiv_covers (a b : Z) : 1 ≤ b → a ≤ ceilDiv a b * b ∧ ceilDiv a b * b < a + b.
Proof.
  intros Hb. unfold ceilDiv.
  pose proof (Z.div_mod (- a) b ltac:(lia)).
  pose proof (Z.mod_pos_bound (- a) b ltac:(lia)). nia.
Qed.

(** X25. With a positive limit the pages of [fetchTags] cut the filtered
    tags into consecutive pieces: the pages 1 .. [pages], one after the
    other, give back the filtered tags, in order and without loss or
    repetition; every page holds at most [limit] tags; and a page beyond
    [pages] is empty. [pages] is the least number of pages that will do. *)
Theorem tags_pages_partition {A} (filteredTags : list A) (limit : Z) :
  1 ≤ limit →
  let n := pages (pagination (paginate filteredTags limit 1)) in
  concat (map (λ p, data (paginate filteredTags limit (Z.of_nat p)))
            (seq 1 (Z.to_nat n)))
  = filteredTags
  ∧ (∀ p, 1 ≤ p → Z.of_nat (length (data (paginate filteredTags limit p))) ≤ limit)
  ∧ (∀ p, n < p → data (paginate filteredTags limit p) = [])
  ∧ (n - 1) * limit < Z.of_nat (length filteredTags) ≤ n * limit.
Proof.
  intros Hl n. subst n. cbn [paginate pagination pages].
  set (len := Z.of_nat (length filteredTags)).
  destruct (ceilDiv_covers len limit Hl) as [Hlo Hhi].
  assert (0 ≤ ceilDiv len limit) by (subst len; nia).
  split; [|split; [|split]].
  - rewrite (map_ext_in _ (λ p, take (Z.to_nat limit)
                                  (drop ((p - 1) * Z.to_nat limit) filteredTags))).
    + rewrite chunks_concat. apply take_ge. subst len. nia.
    + intros p [Hp _]%in_seq. rewrite page_chunk by lia. do 2 f_equal. nia.
  - intros p Hp. rewrite page_chunk by done. rewrite length_take. lia.
  - intros p Hp. rewrite page_chunk by lia.
    rewrite drop_ge; [by rewrite take_nil|]. subst len. nia.
  - lia.
Qed.

(** X26. A negative limit is not turned away. With [query.limit] read as
    a negative number and no [page], [fetchTags] answers with all the
    filtered tags but the last [-limit] of them, and reports a number of
    pages that is not positive. *)
Theorem tags_negative_limit_drops_tail {A} (query : gmap string string)
    (filteredTags : list A) (limit : Z) :
  parseInt (query !! "limit") = Some limit →
  limit < 0 →
  query !! "page" = None →
  data (tagsResponse query filteredTags)
  = take (length filteredTags - Z.to_nat (- limit)) filteredTags
  ∧ pages (pagination (tagsResponse query filteredTags)) ≤ 0
  ∧ total (pagination (tagsResponse query filteredTags))
    = Z.of_nat (length filteredTags).
Proof.
  intros Hlimit Hneg Hpage. unfold tagsResponse. rewrite Hlimit, Hpage.
  change (parseInt None) with (@None Z). unfold orDefault.
  rewrite bool_decide_eq_false_2 by lia.
  unfold paginate, slice, relativeIndex. cbn [data pagination pages total].
  set (len := Z.of_nat (length filteredTags)).
  replace ((1 - 1) * limit) with 0 by lia.
  rewrite (bool_decide_eq_true_2 (0 + limit < 0)) by lia.
  rewrite !(bool_decide_eq_false_2 (0 < 0)) by lia.
  rewrite Z.min_l by lia. cbn [Z.to_nat drop].
  split; [f_equal; subst len; lia|]. split; [|done].
  unfold ceilDiv. assert (0 ≤ - len / limit); [|lia].
  pose proof (Z.div_mod (- len) limit ltac:(lia)).
  pose proof (Z.mod_neg_bound (- len) limit ltac:(lia)). subst len. nia.
Qed.

Lemma tags_pages_partition_witness :
  let tags := ["news"; "tech"; "travel"; "food"; "art"] in
  concat (map (λ p, data (paginate tags 2 (Z.of_nat p))) (seq 1 3)) = tags
  ∧ data (paginate tags 2 4) = [].
Proof.
  intros tags.
  destruct (tags_pages_partition tags 2 ltac:(lia)) as (H1 & _ & H3 & _).
  split; [exact H1 | apply H3; reflexivity].
Defined.

Lemma tags_negative_limit_drops_tail_witness :
  let tags := ["news"; "tech"; "travel"] in
  data (tagsResponse {["limit" := "-1"]} tags) = ["news"; "tech"].
Proof.
  intros tags.
  destruct (tags_negative_limit_drops_tail {["limit" := "-1"]} tags (-1))
    as (H1 & _); [reflexivity | lia | reflexivity | exact H1].
Defined.

End TagsFacts.

(** ** A single post through the cache *)

Module PostFetcherFacts.
Import Errors Host Cache PostFetcher.

Section Facts.
Context {S V : Type}.
Variable getPost : string → S → Outcome (option V) * S.
Variable getPosts : string → S → Outcome (list V) * S.
Variable fetchPosts : gmap string string → LRUCache V * S
                      → Outcome V * (LRUCache V * S).

(** A fetch that finds a live entry: the service is not asked. *)
Lemma fetchPost_hit (t t' : Z) (parsedURI : ParsedURI) (c : LRUCache V) (s : S)
    (item : Item V) :
  isCollection parsedURI = false →
  cache c !! cacheKey parsedURI = Some item →
  t ≤ expiry item →
  let r := fetchPost getPost getPosts fetchPosts t t' parsedURI (c, s) in
  r.1 = Return (value item) ∧ r.2.2 = s ∧ cache r.2.1 = cache c
  ∧ ttl r.2.1 = ttl c.
Proof.
  intros Hcol Hitem Ht. cbv zeta. unfold fetchPost. rewrite Hcol.
  unfold get. cbn [fst snd]. rewrite Hitem.
  by rewrite bool_decide_eq_false_2 by lia.
Qed.

Lemma get_miss (now : Z) (key : string) (c : LRUCache V) :
  (get now key c).1 = None →
  cache (get now key c).2 !! key = None ∧ ttl (get now key c).2 = ttl c.
Proof.
  unfold get. destruct (cache c !! key) as [item|] eqn:E; [|done].
  case_bool_decide; [|done]. intros _. cbn. by rewrite lookup_delete_eq.
Qed.

Lemma set_lookup (now : Z) (key : string) (v : V) (c : LRUCache V) :
  cache (set now key v None c) !! key = Some (mkItem v (now + ttl c))
  ∧ ttl (set now key v None c) = ttl c.
Proof.
  unfold set. destruct (evict _ _ _) as [cache' order']. cbn.
  by rewrite lookup_insert_eq.
Qed.

(** A fetch that finds no live entry asks the service, and stores what it
    finds. *)
Lemma fetchPost_miss (nowGet nowSet : Z) (parsedURI : ParsedURI)
    (c : LRUCache V) (s : S) :
  isCollection parsedURI = false →
  (get nowGet (cacheKey parsedURI) c).1 = None →
  let c1 := (get nowGet (cacheKey parsedURI) c).2 in
  fetchPost getPost getPosts fetchPosts nowGet nowSet parsedURI (c, s)
  = match lookupPost getPost getPosts parsedURI s with
    | (Return (Some post), s') =>
        (Return post, (set nowSet (cacheKey parsedURI) post None c1, s'))
    | (Return None, s') =>
        (Throw (ENotFound "Post" (identifier parsedURI)), (c1, s'))
    | (Throw e, s') => (Throw e, (c1, s'))
    | (ThrowUndefined, s') => (ThrowUndefined, (c1, s'))
    end.
Proof.
  intros Hcol Hnone. cbv zeta. unfold fetchPost. rewrite Hcol. cbn [fst snd].
  destruct (get nowGet (cacheKey parsedURI) c) as [cached c1].
  cbn [fst snd] in *. by subst cached.
Qed.

(** X27. [fetchPost] of a single post, run without another call in
    between. When it returns a post, the cache holds that post under the
    key of the URI, and any later fetch of the URI up to the expiry of that
    entry returns the same post without asking the Ghost service and
    without changing the stored entries; when the post came from the
    service the expiry is the clock reading of [cache.set] plus the TTL of
    the cache. When it throws, for a post that is missing or for any
    failure of the service, nothing is cached under the key: the next fetch
    asks the service again. *)
Theorem fetchPost_caches_found_posts_only (nowGet nowSet : Z)
    (parsedURI : ParsedURI) (c : LRUCache V) (s : S) :
  isCollection parsedURI = false →
  let r := fetchPost getPost getPosts fetchPosts nowGet nowSet parsedURI (c, s) in
  match r.1 with
  | Return post =>
      ∃ item, cache r.2.1 !! cacheKey parsedURI = Some item
              ∧ value item = post
              ∧ ((get nowGet (cacheKey parsedURI) c).1 = None →
                 expiry item = nowSet + ttl c)
              ∧ ∀ t t', t ≤ expiry item →
                  let r' := fetchPost getPost getPosts fetchPosts t t' parsedURI r.2 in
                  r'.1 = Return post ∧ r'.2.2 = r.2.2
                  ∧ cache r'.2.1 = cache r.2.1
  | _ => cache r.2.1 !! cacheKey parsedURI = None
  end.
Proof.
  intros Hcol. cbv zeta.
  destruct ((get nowGet (cacheKey parsedURI) c).1) as [post|] eqn:Hget.
  - assert (∃ item, cache c !! cacheKey parsedURI = Some item
                    ∧ nowGet ≤ expiry item ∧ value item = post)
      as (item & Hitem & Hlive & Hval).
    { unfold get in Hget. destruct (cache c !! cacheKey parsedURI) as [item|]; [|done].
      case_bool_decide; [done|]. cbn in Hget. exists item.
      split; [done|]. split; [lia | congruence]. }
    destruct (fetchPost_hit nowGet nowSet parsedURI c s item Hcol Hitem Hlive)
      as (H1 & H2 & H3 & _).
    destruct (fetchPost _ _ _ nowGet nowSet parsedURI (c, s)) as [o [c1 s1]].
    cbn [fst snd] in *. subst o s1. rewrite Hval. exists item. rewrite H3.
    split; [done|]. split; [done|]. split; [done|].
    intros t t' Ht.
    destruct (fetchPost_hit t t' parsedURI c1 s item Hcol ltac:(by rewrite H3) Ht)
      as (H1' & H2' & H3' & _).
    rewrite Hval in H1'. by rewrite H3 in H3'.
  - rewrite (fetchPost_miss nowGet nowSet parsedURI c s Hcol Hget).
    destruct (get_miss nowGet (cacheKey parsedURI) c Hget) as [Hnone Httl].
    destruct (lookupPost getPost getPosts parsedURI s) as [[[post|]|e|] s'];
      cbn [fst snd]; try done.
    set (c1 := (get nowGet (cacheKey parsedURI) c).2) in *.
    destruct (set_lookup nowSet (cacheKey parsedURI) post c1) as [Hset Httl'].
    exists (mkItem post (nowSet + ttl c1)). rewrite Httl in *.
    split; [done|]. split; [done|]. split; [done|].
    intros t t' Ht. cbn [expiry] in Ht.
    destruct (fetchPost_hit t t' parsedURI
                (set nowSet (cacheKey parsedURI) post None c1) s'
                (mkItem post (nowSet + ttl c)) Hcol Hset Ht) as (H1 & H2 & H3 & _).
    done.
Qed.
End Facts.

Lemma fetchPost_caches_found_posts_only_witness :
  let getPost := λ (id : string) (calls : nat), (Return (Some ("post " +:+ id)), Datatypes.S calls) in
  let getPosts := λ (_ : string) (calls : nat), (@Return (list string) [], Datatypes.S calls) in
  let fetchPosts := λ (_ : gmap string string) (st : LRUCache string * nat),
                      (@ThrowUndefined string, st) in
  let uri := mkParsedURI "42" "id" ∅ false in
  let r := fetchPost getPost getPosts fetchPosts 0 0 uri (Cache.new None None, 0%nat) in
  let r' := fetchPost getPost getPosts fetchPosts 300000 300000 uri r.2 in
  r'.1 = Return "post 42" ∧ r'.2.2 = 1%nat.
Proof.
  intros getPost getPosts fetchPosts uri r r'.
  pose proof (fetchPost_caches_found_posts_only getPost getPosts fetchPosts
                0 0 uri (Cache.new None None) 0%nat eq_refl) as H.
  cbv zeta in H. fold r in H.
  change r.1 with (Return (V:=string) "post 42") in H.
  destruct H as (item & _ & _ & Hexp & Hlater).
  destruct (Hlater 300000 300000) as (H1 & H2 & _).
  - rewrite Hexp by reflexivity. reflexivity.
  - split; [exact H1 | exact H2].
Defined.

End PostFetcherFacts.

(** ** The filter of a search *)

Module SearchFacts.
Import Host Fetcher Search.

Lemma append_assoc (a b c : string) : (a +:+ b) +:+ c = a +:+ (b +:+ c).
Proof.
  induction a as [|x a IH]; [done|].
  change (String x ((a +:+ b) +:+ c) = String x (a +:+ (b +:+ c))). by rewrite IH.
Qed.

Lemma append_cons (a : ascii) (s t : string) :
  String a s +:+ t = String a (s +:+ t).
Proof. reflexivity. Qed.

Lemma replaceAll_same (c : ascii) (replacement s : string) :
  replaceAll c replacement (String c s) = replacement +:+ replaceAll c replacement s.
Proof. cbn [replaceAll]. by rewrite bool_decide_eq_true_2. Qed.

Lemma replaceAll_other (c a : ascii) (replacement s : string) :
  a ≠ c →
  replaceAll c replacement (String a s) = String a (replaceAll c replacement s).
Proof. intros Hne. cbn [replaceAll]. by rewrite bool_decide_eq_false_2. Qed.

Lemma readEscaped_quote (s : string) :
  readEscaped (String quote s) = Some (EmptyString, s).
Proof. reflexivity. Qed.

Lemma readEscaped_escape (b : ascii) (s : string) :
  readEscaped (String backslash (String b s))
  = match readEscaped s with
    | Some (text, rest) => Some (String b text, rest)
    | None => None
    end.
Proof. reflexivity. Qed.

Lemma readEscaped_plain (a : ascii) (s : string) :
  a ≠ quote → a ≠ backslash →
  readEscaped (String a s)
  = match readEscaped s with
    | Some (text, rest) => Some (String a text, rest)
    | None => None
    end.
Proof.
  intros Hq Hbs. cbn [readEscaped]. by rewrite !bool_decide_eq_false_2.
Qed.

(** The sanitised query, read back from behind an opening quote, is the
    query: the literal ends at the quote that follows it and nowhere
    before. *)
Lemma readEscaped_sanitizeQuery (query rest : string) :
  readEscaped (sanitizeQuery query +:+ String quote rest) = Some (query, rest).
Proof.
  unfold sanitizeQuery. induction query as [|a query IH].
  - apply readEscaped_quote.
  - destruct (decide (a = backslash)) as [->|Hbs].
    + rewrite replaceAll_same, !append_cons.
      rewrite !(replaceAll_other quote backslash) by done.
      rewrite !append_cons, readEscaped_escape.
      change (EmptyString +:+ ?s) with s. by rewrite IH.
    + rewrite (replaceAll_other backslash a) by done.
      destruct (decide (a = quote)) as [->|Hq].
      * rewrite replaceAll_same, !append_cons, readEscaped_escape.
        change (EmptyString +:+ ?s) with s. by rewrite IH.
      * rewrite (replaceAll_other quote a) by done.
        rewrite append_cons, readEscaped_plain by done. by rewrite IH.
Qed.

(** X28. Whatever the search query holds (quotes and backslashes
    included), the filter that [searchPosts] builds is [title:~'] followed
    by a quoted literal that a reader taking the backslash as the escape
    character reads back as exactly the query, ending at the quote that the
    template adds; behind it comes nothing, or [+status:] and the status
    when a status other than [all] is asked for. The query cannot close its
    literal and add a clause of its own. *)
Theorem search_query_stays_inside_its_literal (query : string)
    (status : option string) (limit : option Z) :
  ∃ body,
    filter (searchOptions query status limit) = "title:~'" +:+ body
    ∧ readEscaped body
      = Some (query,
              if truthy status && negb (bool_decide (status = Some "all"))
              then "+status:" +:+ default EmptyString status
              else EmptyString).
Proof.
  unfold searchOptions. cbn [filter].
  destruct (truthy status && negb (bool_decide (status = Some "all"))).
  - exists (sanitizeQuery query +:+ String quote ("+status:" +:+ default EmptyString status)).
    split; [|apply readEscaped_sanitizeQuery].
    cbn [app join foldl]. by rewrite !append_assoc.
  - exists (sanitizeQuery query +:+ String quote EmptyString).
    split; [done | apply readEscaped_sanitizeQuery].
Qed.

End SearchFacts.
